(** * Scriggo: template engine, type checker and register VM

    A shallow embedding of the parts of the repository that its
    specification makes claims about, followed by the theorems that settle
    those claims.  Go strings are byte sequences, so they are modelled by
    [string] (a list of 8-bit [ascii]); Go's fixed-width integers are
    modelled by [Z] with their wrap-around written out. *)

From Stdlib Require Import ZArith QArith List Bool Ascii String Lia Permutation Sorted.
From stdpp Require Import base option list strings gmap.

Import ListNotations.
Set Warnings "-register-all".
Local Open Scope string_scope.
Local Open Scope Z_scope.

(** ** Go strings seen as bytes *)

Module GoString.

Definition byte (a : ascii) : Z := Z.of_N (N_of_ascii a).
Definition char (z : Z) : ascii := ascii_of_N (Z.to_N (z mod 256)).

Definition bytes (s : string) : list Z := map byte (list_ascii_of_string s).
Definition of_bytes (l : list Z) : string :=
  string_of_list_ascii (map char l).

(** [len(s)] *)
Definition len (s : string) : Z := Z.of_nat (String.length s).

(** [s[0]] and [s[len(s)-1]]; [None] stands for the index-out-of-range
    panic on the empty string. *)
Definition first_byte (s : string) : option ascii :=
  match s with EmptyString => None | String a _ => Some a end.

Fixpoint last_byte (s : string) : option ascii :=
  match s with
  | EmptyString => None
  | String a EmptyString => Some a
  | String _ r => last_byte r
  end.

Definition is_byte (o : option ascii) (a : ascii) : bool :=
  match o with Some b => Ascii.eqb a b | None => false end.

(** [s[n:]] for [0 <= n <= len(s)] *)
Fixpoint drop (n : nat) (s : string) : string :=
  match n, s with
  | O, _ => s
  | S n', String _ r => drop n' r
  | S _, EmptyString => EmptyString
  end.

(** [s[:n]] *)
Fixpoint take (n : nat) (s : string) : string :=
  match n, s with
  | S n', String a r => String a (take n' r)
  | _, _ => EmptyString
  end.

(** [strings.HasPrefix(s, p)] *)
Fixpoint HasPrefix (s p : string) : bool :=
  match p, s with
  | EmptyString, _ => true
  | String a p', String b s' => Ascii.eqb a b && HasPrefix s' p'
  | String _ _, EmptyString => false
  end.

(** [strings.Contains(s, sub)] *)
Fixpoint Contains (s sub : string) : bool :=
  HasPrefix s sub ||
  match s with
  | EmptyString => false
  | String _ r => Contains r sub
  end.

(** [strings.IndexByte(s, c)]: the first index of [c], or [-1]. *)
Fixpoint IndexByte (s : string) (c : ascii) : Z :=
  match s with
  | EmptyString => -1
  | String a r =>
      if Ascii.eqb a c then 0
      else let i := IndexByte r c in if i <? 0 then -1 else i + 1
  end.

(** [strings.LastIndexByte(s, c)]: the last index of [c], or [-1]. *)
Fixpoint LastIndexByte (s : string) (c : ascii) : Z :=
  match s with
  | EmptyString => -1
  | String a r =>
      let i := LastIndexByte r c in
      if 0 <=? i then i + 1 else if Ascii.eqb a c then 0 else -1
  end.

(** [strings.Split(s, "/")] for a one-byte separator: never empty. *)
Fixpoint Split (s : string) (sep : ascii) : list string :=
  match s with
  | EmptyString => [EmptyString]
  | String a r =>
      if Ascii.eqb a sep then EmptyString :: Split r sep
      else match Split r sep with
           | h :: t => String a h :: t
           | [] => [String a EmptyString]
           end
  end.

(** Byte-wise comparison [a < b] of Go strings. *)
Fixpoint ltb (a b : string) : bool :=
  match a, b with
  | EmptyString, EmptyString => false
  | EmptyString, String _ _ => true
  | String _ _, EmptyString => false
  | String x a', String y b' =>
      if byte x <? byte y then true
      else if byte y <? byte x then false
      else ltb a' b'
  end.

Definition leb (a b : string) : bool := negb (ltb b a).

End GoString.

(** ** unicode/utf8 and the few functions of package strings built on it *)

Module Utf8.
Import GoString.

Definition RuneError : Z := 0xFFFD.
Definition RuneSelf : Z := 0x80.
Definition UTFMax : nat := 4.

(** The [first] table of package utf8 together with [acceptRanges]: for a
    leading byte of a multi-byte sequence, its size and the range
    accepted for the second byte; [None] for ASCII and invalid bytes. *)
Definition first (c : Z) : option (nat * Z * Z) :=
  if c <? 0xC2 then None
  else if c <=? 0xDF then Some (2%nat, 0x80, 0xBF)
  else if c =? 0xE0 then Some (3%nat, 0xA0, 0xBF)
  else if c =? 0xED then Some (3%nat, 0x80, 0x9F)
  else if c <=? 0xEF then Some (3%nat, 0x80, 0xBF)
  else if c =? 0xF0 then Some (4%nat, 0x90, 0xBF)
  else if c <=? 0xF3 then Some (4%nat, 0x80, 0xBF)
  else if c =? 0xF4 then Some (4%nat, 0x80, 0x8F)
  else None.

Definition cont (c : Z) : bool := (0x80 <=? c) && (c <=? 0xBF).

(** [utf8.DecodeRune]: the rune at the head of [s] and its width. *)
Definition DecodeRune (s : list Z) : Z * nat :=
  match s with
  | [] => (RuneError, 0%nat)
  | s0 :: t =>
      match first s0 with
      | None => (if s0 <? RuneSelf then s0 else RuneError, 1%nat)
      | Some (sz, lo, hi) =>
          if (length s <? sz)%nat then (RuneError, 1%nat)
          else
            match t with
            | [] => (RuneError, 1%nat)
            | s1 :: t1 =>
                if (s1 <? lo) || (hi <? s1) then (RuneError, 1%nat)
                else if (sz <=? 2)%nat then
                  (Z.lor (Z.shiftl (Z.land s0 0x1F) 6) (Z.land s1 0x3F), 2%nat)
                else
                  match t1 with
                  | [] => (RuneError, 1%nat)
                  | s2 :: t2 =>
                      if negb (cont s2) then (RuneError, 1%nat)
                      else if (sz <=? 3)%nat then
                        (Z.lor (Z.shiftl (Z.land s0 0x0F) 12)
                           (Z.lor (Z.shiftl (Z.land s1 0x3F) 6)
                                  (Z.land s2 0x3F)), 3%nat)
                      else
                        match t2 with
                        | [] => (RuneError, 1%nat)
                        | s3 :: _ =>
                            if negb (cont s3) then (RuneError, 1%nat)
                            else
                              (Z.lor (Z.shiftl (Z.land s0 0x07) 18)
                                 (Z.lor (Z.shiftl (Z.land s1 0x3F) 12)
                                    (Z.lor (Z.shiftl (Z.land s2 0x3F) 6)
                                           (Z.land s3 0x3F))), 4%nat)
                        end
                  end
            end
      end
  end.

(** The runes of [s] with their widths, decoding from the left; every
    step consumes at least one byte, so [length s] steps are enough. *)
Fixpoint runes_fuel (fuel : nat) (s : list Z) : list (Z * nat) :=
  match fuel, s with
  | S f, _ :: _ =>
      let rw := DecodeRune s in
      rw :: runes_fuel f (List.skipn (snd rw) s)
  | _, _ => []
  end.

Definition runes (s : list Z) : list (Z * nat) := runes_fuel (length s) s.

(** [utf8.RuneCountInString] *)
Definition RuneCountInString (s : string) : Z :=
  Z.of_nat (length (runes (bytes s))).

(** [utf8.EncodeRune]; surrogates and out-of-range runes are encoded as
    [RuneError]. *)
Definition EncodeRune (r : Z) : list Z :=
  let enc3 r := [Z.lor 0xE0 (Z.shiftr r 12);
                 Z.lor 0x80 (Z.land (Z.shiftr r 6) 0x3F);
                 Z.lor 0x80 (Z.land r 0x3F)] in
  if (0 <=? r) && (r <=? 0x7F) then [r]
  else if (0 <=? r) && (r <=? 0x7FF) then
    [Z.lor 0xC0 (Z.shiftr r 6); Z.lor 0x80 (Z.land r 0x3F)]
  else if (r <? 0) || (0x10FFFF <? r) || ((0xD800 <=? r) && (r <=? 0xDFFF))
  then enc3 RuneError
  else if r <=? 0xFFFF then enc3 r
  else [Z.lor 0xF0 (Z.shiftr r 18);
        Z.lor 0x80 (Z.land (Z.shiftr r 12) 0x3F);
        Z.lor 0x80 (Z.land (Z.shiftr r 6) 0x3F);
        Z.lor 0x80 (Z.land r 0x3F)].

(** [utf8.DecodeLastRune]: the rune at the end of [s] and its width. *)
Definition RuneStart (b : Z) : bool := negb (Z.land b 0xC0 =? 0x80).

Fixpoint back_to_start (steps : nat) (rev_prefix : list Z) (k : nat) : nat :=
  (* walks left from the last byte, at most [steps] bytes, until a byte
     that can start a rune; returns how many bytes the candidate has *)
  match steps, rev_prefix with
  | S n, b :: r => if RuneStart b then S k else back_to_start n r (S k)
  | _, _ => k
  end.

Definition DecodeLastRune (s : list Z) : Z * nat :=
  match rev s with
  | [] => (RuneError, 0%nat)
  | r0 :: before =>
      if r0 <? RuneSelf then (r0, 1%nat)
      else
        let k := back_to_start (UTFMax - 1) before 1%nat in
        let cand := List.skipn (length s - k) s in
        let rw := DecodeRune cand in
        if (snd rw =? k)%nat then rw else (RuneError, 1%nat)
  end.

End Utf8.

(** ** Package unicode and package strings, as far as the sources use them *)

Module Strings.
Import GoString Utf8.

(** [unicode.IsSpace] *)
Definition IsSpace (r : Z) : bool :=
  if r <? 0x100 then
    ((9 <=? r) && (r <=? 13)) || (r =? 32) || (r =? 0x85) || (r =? 0xA0)
  else
    (r =? 0x1680) || ((0x2000 <=? r) && (r <=? 0x200A)) || (r =? 0x2028)
    || (r =? 0x2029) || (r =? 0x202F) || (r =? 0x205F) || (r =? 0x3000).

(** [strings.TrimLeftFunc(s, unicode.IsSpace)] *)
Fixpoint trimLeft (fuel : nat) (s : list Z) : list Z :=
  match fuel, s with
  | S f, _ :: _ =>
      let rw := DecodeRune s in
      if IsSpace (fst rw) then trimLeft f (List.skipn (snd rw) s) else s
  | _, _ => s
  end.

(** [strings.TrimRightFunc(s, unicode.IsSpace)] *)
Fixpoint trimRight (fuel : nat) (s : list Z) : list Z :=
  match fuel, s with
  | S f, _ :: _ =>
      let rw := DecodeLastRune s in
      if IsSpace (fst rw)
      then trimRight f (List.firstn (length s - snd rw) s)
      else s
  | _, _ => s
  end.

(** [strings.TrimSpace] *)
Definition TrimSpace (s : string) : string :=
  let b := bytes s in
  let l := trimLeft (length b) b in
  of_bytes (trimRight (length l) l).

Section Lower.
(** [unicode.ToLower] above ASCII is a table of the Go library; it is
    taken as a parameter. *)
Variable unicodeToLower : Z -> Z.

Definition ToLowerRune (r : Z) : Z :=
  if r <=? 0x7F
  then (if (65 <=? r) && (r <=? 90) then r + 32 else r)
  else unicodeToLower r.

Definition isASCII (b : list Z) : bool := forallb (fun c => c <? RuneSelf) b.

(** [strings.ToLower]: bytes are lowered in place when the string is
    ASCII; otherwise it is [strings.Map(unicode.ToLower, s)], which
    re-encodes every decoded rune. *)
Definition ToLower (s : string) : string :=
  let b := bytes s in
  if isASCII b
  then of_bytes (map ToLowerRune b)
  else of_bytes (concat (map (fun rw => EncodeRune (ToLowerRune (fst rw)))
                             (runes b))).
End Lower.

End Strings.

(** ** Package ast: validity of include, import and extends paths *)

Module Path.
Import GoString Utf8 Strings.

Definition forbidden_bytes : list Z :=
  [34; 42; 47; 58; 60; 62; 63; 92; 124; 127].

Definition reserved_names : list string :=
  ["con"; "prn"; "aux"; "nul";
   "com0"; "com1"; "com2"; "com3"; "com4"; "com5"; "com6"; "com7"; "com8";
   "com9"; "lpt0"; "lpt1"; "lpt2"; "lpt3"; "lpt4"; "lpt5"; "lpt6"; "lpt7";
   "lpt8"; "lpt9"].

Definition reserved_prefix4 : list string := ["con."; "prn."; "aux."; "nul."].

Definition reserved_prefix5 : list string :=
  ["com0."; "com1."; "com2."; "com3."; "com4."; "com5."; "com6.";
   "com7."; "com8."; "com9."; "lpt0."; "lpt1."; "lpt2."; "lpt3.";
   "lpt4."; "lpt5."; "lpt6."; "lpt7."; "lpt8."; "lpt9."].

Definition mem_string (s : string) (l : list string) : bool :=
  existsb (String.eqb s) l.

(** [isWindowsReservedName] *)
Definition isWindowsReservedName (name : string) : bool :=
  if existsb (fun c => existsb (Z.eqb c) forbidden_bytes || (c <=? 0x1F))
             (bytes name)
  then true
  else if mem_string name reserved_names then true
  else if 4 <=? len name then
    if mem_string (take 4 name) reserved_prefix4 then true
    else if 5 <=? len name then mem_string (take 5 name) reserved_prefix5
    else false
  else false.

(** [isDirName] *)
Definition isDirName (name : string) : bool :=
  if String.eqb name "" || (256 <=? RuneCountInString name) then false
  else if String.eqb name "." || Contains name ".." then false
  else if is_byte (first_byte name) " " || is_byte (last_byte name) " "
  then false
  else negb (isWindowsReservedName name).

Section WithUnicode.
Variable unicodeToLower : Z -> Z.

(** [isFileName] *)
Definition isFileName (name : string) : bool :=
  let length := RuneCountInString name in
  if (length <=? 2) || (256 <=? length) then false
  else if is_byte (first_byte name) "." || is_byte (last_byte name) "."
  then false
  else
    let name := ToLower unicodeToLower name in
    let dot := LastIndexByte name "." in
    let ext := drop (Z.to_nat (dot + 1)) name in
    if 0 <=? IndexByte ext "." then false
    else if is_byte (first_byte name) " " || is_byte (last_byte name) " "
    then false
    else negb (isWindowsReservedName name).

(** The loop of [IsPath] over [names[:len(names)-1]]. *)
Fixpoint dirsOk (i : nat) (names : list string) : bool :=
  match names with
  | [] => true
  | name :: rest =>
      if (i =? 0)%nat && String.eqb name "" then dirsOk (S i) rest
      else if negb (String.eqb name "..") && negb (isDirName name)
      then false
      else dirsOk (S i) rest
  end.

(** [IsPath] *)
Definition IsPath (path : string) : bool :=
  if String.eqb path "" || is_byte (last_byte path) "/" then false
  else
    let names := Split path "/" in
    if dirsOk 0 (removelast names) then isFileName (List.last names "")
    else false.
End WithUnicode.

(** What the file-name rule asks for, in the words of the specification:
    at least 3 and at most 255 characters, an extension, and neither the
    first nor the last character a dot. *)
Definition hasExtension (name : string) : bool :=
  0 <=? LastIndexByte name ".".

Definition fileNameRule (name : string) : bool :=
  (3 <=? RuneCountInString name) && (RuneCountInString name <=? 255)
  && hasExtension name
  && negb (is_byte (first_byte name) ".")
  && negb (is_byte (last_byte name) ".").

End Path.

(** ** Package templates: [Template.UsedVars] *)

Module Templates.
Import GoString.

(** [compiler.Global]; types and values are opaque handles here. *)
Record Global := mkGlobal {
  Pkg : string;
  Name : string;
  Type_ : option nat;
  Value : option nat
}.

Record Template := mkTemplate {
  fn : nat;
  types : nat;
  globals : list Global
}.

(** [sort.Strings]: sorts in increasing byte-wise order.  The result of
    sorting under a total order does not depend on the algorithm; an
    insertion sort stands for the library's. *)
Fixpoint insertString (x : string) (l : list string) : list string :=
  match l with
  | [] => [x]
  | y :: r => if leb x y then x :: l else y :: insertString x r
  end.

Fixpoint sortStrings (l : list string) : list string :=
  match l with
  | [] => []
  | x :: r => insertString x (sortStrings r)
  end.

(** The loop [for i, global := range t.globals { vars[i] = global.Name }]
    started at index [i]. *)
Fixpoint fillNames (i : nat) (gs : list Global) (vars : list string)
  : list string :=
  match gs with
  | [] => vars
  | global :: rest => fillNames (S i) rest (<[i := Name global]> vars)
  end.

(** [UsedVars]: returns the names and the template as the call leaves
    it. *)
Definition UsedVars (t : Template) : list string * Template :=
  let vars := replicate (length (globals t)) "" in
  let vars := fillNames 0 (globals t) vars in
  (sortStrings vars, t).

(** Increasing byte-wise order. *)
Definition sortedStrings (l : list string) : Prop :=
  StronglySorted (fun a b => leb a b = true) l.

End Templates.

(** ** Package vm: calls, returns and tail calls *)

Module VM.

Definition wrap32 (x : Z) : Z := x mod 2 ^ 32.
Global Arguments wrap32 : simpl never.
(** [uint8(x)] of an [int8] operand *)
Definition uint8 (x : Z) : Z := x mod 256.

Definition NoPackage : Z := -2.
Definition CurrentPackage : Z := -1.
Definition CurrentFunction : Z := -1.
Definition maxInt8 : Z := 127.

(** The operations [VM.run] dispatches on that matter here; every other
    operation is [opOther]. *)
Inductive operation := opCall | opReturn | opTailCall | opOther (n : Z).

Record instruction := mkInstr { op : operation; a : Z; b : Z; c : Z }.

(** A [*Function] is an index in the table of functions of the program,
    a [*Package] an index in its table of packages. *)
Record Function := mkFunction {
  pkg : nat;
  regnum : Z * Z * Z * Z;
  body : list instruction
}.

Record Package := mkPackage {
  packages : list nat;
  functions : list nat
}.

Record Program := mkProgram {
  funcs : list Function;
  pkgs : list Package
}.

Inductive Value :=
| VClosure (fn : nat) (vars : list nat)
| VOther (v : Z).

(** [Call]: a record of the call stack.  [fp] is a [[4]uint32] array,
    copied by value. *)
Record Call := mkCall {
  call_fn : nat;
  call_cvars : list nat;
  call_fp : Z * Z * Z * Z;
  call_pc : Z;
  call_tail : bool
}.

Record VM := mkVM {
  fn : nat;
  cvars : list nat;
  fp : Z * Z * Z * Z;
  st : Z * Z * Z * Z;
  regsInt : list Z;
  regsFloat : list Z;
  regsString : list string;
  regsGeneral : list Value;
  calls : list Call
}.

Inductive StepResult :=
| Next (vm : VM) (pc : Z)
| Halt (code : Z) (vm : VM)
| Panic (msg : string).

Definition bank0 (x : Z * Z * Z * Z) : Z := fst (fst (fst x)).
Definition bank1 (x : Z * Z * Z * Z) : Z := snd (fst (fst x)).
Definition bank2 (x : Z * Z * Z * Z) : Z := snd (fst x).
Definition bank3 (x : Z * Z * Z * Z) : Z := snd x.

Definition setFp (vm : VM) (fp' : Z * Z * Z * Z) : VM :=
  mkVM (fn vm) (cvars vm) fp' (st vm) (regsInt vm) (regsFloat vm)
       (regsString vm) (regsGeneral vm) (calls vm).
Definition setCvars (vm : VM) (cv : list nat) : VM :=
  mkVM (fn vm) cv (fp vm) (st vm) (regsInt vm) (regsFloat vm)
       (regsString vm) (regsGeneral vm) (calls vm).
Definition setFn (vm : VM) (f : nat) : VM :=
  mkVM f (cvars vm) (fp vm) (st vm) (regsInt vm) (regsFloat vm)
       (regsString vm) (regsGeneral vm) (calls vm).
Definition setCalls (vm : VM) (cs : list Call) : VM :=
  mkVM (fn vm) (cvars vm) (fp vm) (st vm) (regsInt vm) (regsFloat vm)
       (regsString vm) (regsGeneral vm) cs.

(** Modelled from the spec: [moreIntStack], [moreFloatStack],
    [moreStringStack] and [moreGeneralStack] are not among the sources;
    the specification says that a bank grows by doubling.  The bank is
    reallocated at twice its size, its contents are kept, and [st]
    records the new size. *)
Definition moreIntStack (vm : VM) : VM :=
  let '(s0, s1, s2, s3) := st vm in
  mkVM (fn vm) (cvars vm) (fp vm) (wrap32 (2 * s0), s1, s2, s3)
       (regsInt vm ++ repeat 0 (length (regsInt vm))) (regsFloat vm)
       (regsString vm) (regsGeneral vm) (calls vm).
Definition moreFloatStack (vm : VM) : VM :=
  let '(s0, s1, s2, s3) := st vm in
  mkVM (fn vm) (cvars vm) (fp vm) (s0, wrap32 (2 * s1), s2, s3)
       (regsInt vm) (regsFloat vm ++ repeat 0 (length (regsFloat vm)))
       (regsString vm) (regsGeneral vm) (calls vm).
Definition moreStringStack (vm : VM) : VM :=
  let '(s0, s1, s2, s3) := st vm in
  mkVM (fn vm) (cvars vm) (fp vm) (s0, s1, wrap32 (2 * s2), s3)
       (regsInt vm) (regsFloat vm)
       (regsString vm ++ repeat "" (length (regsString vm)))
       (regsGeneral vm) (calls vm).
Definition moreGeneralStack (vm : VM) : VM :=
  let '(s0, s1, s2, s3) := st vm in
  mkVM (fn vm) (cvars vm) (fp vm) (s0, s1, s2, wrap32 (2 * s3))
       (regsInt vm) (regsFloat vm) (regsString vm)
       (regsGeneral vm ++ repeat (VOther 0) (length (regsGeneral vm)))
       (calls vm).

Section Run.
Variable prog : Program.
(** The numeric value of an operation, [uint32(off.op)] reads it. *)
Variable opNum : operation -> Z.
(** [vm.general(r)], the read of a general register, and the
    operations other than call, return and tail call are not among
    the sources. *)
Variable general : VM -> Z -> Value.
Variable execOther : instruction -> VM -> Z -> StepResult.

(** The callee of a call or tail call with operands [a] and [b]: a
    closure held in a general register, or a function of a package.
    Yields the machine with [cvars] set, and the callee. *)
Definition callee (vm : VM) (a b : Z) : option (VM * nat * Function) :=
  if a =? NoPackage then
    match general vm b with
    | VClosure f vars =>
        match funcs prog !! f with
        | Some fd => Some (setCvars vm vars, f, fd)
        | None => None
        end
    | VOther _ => None
    end
  else
    match funcs prog !! fn vm with
    | None => None
    | Some cur =>
        let p :=
          if a =? CurrentPackage then Some (pkg cur)
          else match pkgs prog !! pkg cur with
               | Some pk => packages pk !! Z.to_nat (uint8 a)
               | None => None
               end in
        match p with
        | None => None
        | Some p =>
            match pkgs prog !! p with
            | None => None
            | Some pk =>
                match functions pk !! Z.to_nat (uint8 b) with
                | None => None
                | Some f =>
                    match funcs prog !! f with
                    | Some fd => Some (setCvars vm [], f, fd)
                    | None => None
                    end
                end
            end
        end
    end.

Definition growInt (fd : Function) (vm : VM) : VM :=
  if bank0 (st vm) <? wrap32 (bank0 (fp vm) + wrap32 (bank0 (regnum fd)))
  then moreIntStack vm else vm.
Definition growFloat (fd : Function) (vm : VM) : VM :=
  if bank1 (st vm) <? wrap32 (bank1 (fp vm) + wrap32 (bank1 (regnum fd)))
  then moreFloatStack vm else vm.
Definition growString (fd : Function) (vm : VM) : VM :=
  if bank2 (st vm) <? wrap32 (bank2 (fp vm) + wrap32 (bank2 (regnum fd)))
  then moreStringStack vm else vm.
Definition growGeneral (fd : Function) (vm : VM) : VM :=
  if bank3 (st vm) <? wrap32 (bank3 (fp vm) + wrap32 (bank3 (regnum fd)))
  then moreGeneralStack vm else vm.

Definition addFp0 (vm : VM) (d : Z) : VM :=
  let '(f0, f1, f2, f3) := fp vm in setFp vm (wrap32 (f0 + wrap32 d), f1, f2, f3).
Definition addFp2 (vm : VM) (d : Z) : VM :=
  let '(f0, f1, f2, f3) := fp vm in setFp vm (f0, f1, wrap32 (f2 + wrap32 d), f3).
Definition addFp3 (vm : VM) (d : Z) : VM :=
  let '(f0, f1, f2, f3) := fp vm in setFp vm (f0, f1, f2, wrap32 (f3 + wrap32 d)).

(** [case opCall]; [pc] is already past the call instruction. *)
Definition execCall (vm : VM) (pc : Z) (a b : Z) : StepResult :=
  match funcs prog !! fn vm with
  | None => Panic "invalid function"
  | Some cur =>
      match body cur !! Z.to_nat pc with
      | None => Panic "index out of range"
      | Some off =>
          let call := mkCall (fn vm) (cvars vm) (fp vm) (wrap32 (pc + 1)) false in
          match callee vm a b with
          | None => Panic "invalid callee"
          | Some (vm, f, fd) =>
              let vm := addFp0 vm (opNum (op off)) in
              let vm := growInt fd vm in
              let vm := growFloat fd vm in
              let vm := addFp2 vm (VM.b off) in
              let vm := growString fd vm in
              let vm := addFp3 vm (VM.c off) in
              let vm := growGeneral fd vm in
              let vm := setFn vm f in
              let vm := setCalls vm (calls vm ++ [call]) in
              Next vm 0
          end
      end
  end.

(** The loop of [case opReturn] that walks down the call stack from
    index [i - 1] to the first record that is not a tail record;
    [rev_calls] is the stack from its top.  [None] is the index out of
    range when every record is a tail record. *)
Fixpoint lastNonTail (rev_calls : list Call) : option (Call * list Call) :=
  match rev_calls with
  | [] => None
  | call :: below =>
      if call_tail call then lastNonTail below
      else Some (call, rev below)
  end.

(** [case opReturn] *)
Definition execReturn (vm : VM) : StepResult :=
  match calls vm with
  | [] => Halt maxInt8 vm
  | _ :: _ =>
      match lastNonTail (rev (calls vm)) with
      | None => Panic "index out of range"
      | Some (call, below) =>
          let vm := setCalls vm below in
          let vm := setFp vm (call_fp call) in
          let vm := setFn vm (call_fn call) in
          let vm := setCvars vm (call_cvars call) in
          Next vm (call_pc call)
      end
  end.

(** [case opTailCall] *)
Definition execTailCall (vm : VM) (pc : Z) (a b : Z) : StepResult :=
  let vm :=
    setCalls vm (calls vm ++ [mkCall (fn vm) (cvars vm) (0, 0, 0, 0) pc true]) in
  if negb (b =? CurrentFunction) then
    match callee vm a b with
    | None => Panic "invalid callee"
    | Some (vm, f, fd) =>
        let vm := growInt fd vm in
        let vm := growFloat fd vm in
        let vm := growString fd vm in
        let vm := growGeneral fd vm in
        Next (setFn vm f) 0
    end
  else Next vm 0.

(** One turn of the loop of [VM.run].  The trace that the loop writes
    to the standard error when [DebugTraceExecution] is set is left
    out. *)
Definition step (vm : VM) (pc : Z) : StepResult :=
  match funcs prog !! fn vm with
  | None => Panic "invalid function"
  | Some cur =>
      match body cur !! Z.to_nat pc with
      | None => Panic "index out of range"
      | Some i =>
          let pc := wrap32 (pc + 1) in
          match op i with
          | opCall => execCall vm pc (a i) (b i)
          | opReturn => execReturn vm
          | opTailCall => execTailCall vm pc (a i) (b i)
          | opOther _ => execOther i vm pc
          end
      end
  end.

(** [VM.run], bounded by a number of instructions. *)
Fixpoint run (fuel : nat) (vm : VM) (pc : Z) : option (Z * VM) :=
  match fuel with
  | O => None
  | S n =>
      match step vm pc with
      | Next vm' pc' => run n vm' pc'
      | Halt code vm' => Some (code, vm')
      | Panic _ => None
      end
  end.
End Run.

(** *** Vocabulary for the statements about calls *)

(** The size of a bank after the test of a call: doubled when the
    frame would pass it. *)
Definition grown (size need : Z) : Z :=
  if size <? need then wrap32 (2 * size) else size.

(** The end of the frame of [fd] in bank [i], as the tests compute
    it. *)
Definition need (i : Z * Z * Z * Z -> Z) (fd : Function) (vm : VM) : Z :=
  wrap32 (i (fp vm) + wrap32 (i (regnum fd))).

(** The machine after the seven steps of a call that move the frame
    pointers and test the banks. *)
Definition enterFrame (opNum : operation -> Z) (off : instruction)
    (fd : Function) (vm : VM) : VM :=
  growGeneral fd (addFp3 (growString fd (addFp2 (growFloat fd
    (growInt fd (addFp0 vm (opNum (op off))))) (b off))) (c off)).


Definition isTail (c : Call) : Prop := call_tail c = true.

(** The record that a call at [pc] pushes, and the one of a tail
    call. *)
Definition returnRecord (vm : VM) (pc : Z) : Call :=
  mkCall (fn vm) (cvars vm) (fp vm) (wrap32 (wrap32 (pc + 1) + 1)) false.


(** *** A small program *)

(** Function 0 calls itself by a tail call; function 1 calls function 0
    with shifts 3, 1 and 4 for the integer, string and general banks
    (and 2, unused, for the float bank). *)
Definition sampleProgram : Program :=
  mkProgram
    [mkFunction 0 (2, 2, 2, 2)
       [mkInstr opTailCall CurrentPackage CurrentFunction 0;
        mkInstr opReturn 0 0 0];
     mkFunction 0 (1, 1, 1, 1)
       [mkInstr opCall CurrentPackage 0 0;
        mkInstr (opOther 3) 2 1 4;
        mkInstr opReturn 0 0 0]]
    [mkPackage [] [0%nat; 1%nat]].

Definition sampleOpNum (o : operation) : Z :=
  match o with
  | opOther n => n | opCall => 100 | opReturn => 101 | opTailCall => 102
  end.

Definition sampleGeneral (vm : VM) (r : Z) : Value := VOther 0.

Definition sampleExecOther (i : instruction) (vm : VM) (pc : Z) : StepResult :=
  Next vm pc.

Definition sampleVM (f : nat) (cs : list Call) : VM :=
  mkVM f [] (0, 0, 0, 0) (4, 4, 4, 4) [0; 0; 0; 0] [0; 0; 0; 0]
       [""; ""; ""; ""] [VOther 0; VOther 0; VOther 0; VOther 0] cs.

End VM.

(** ** Package ast: positions, contexts and the nodes of a template *)

Module Ast.

Record Position := mkPos { Line : Z; Column : Z; Start : Z; End_ : Z }.

(** Modelled from the spec: the declaration of [ast.Context] is not
    among the sources; these are the rendering contexts that the data
    model of the specification lists. *)
Inductive Context :=
| ContextText | ContextHTML | ContextTag | ContextAttribute
| ContextUnquotedAttribute | ContextCSS | ContextCSSString
| ContextJavaScript | ContextJavaScriptString | ContextJSON
| ContextMarkdown.

Definition Context_eqb (x y : Context) : bool :=
  match x, y with
  | ContextText, ContextText | ContextHTML, ContextHTML
  | ContextTag, ContextTag | ContextAttribute, ContextAttribute
  | ContextUnquotedAttribute, ContextUnquotedAttribute
  | ContextCSS, ContextCSS | ContextCSSString, ContextCSSString
  | ContextJavaScript, ContextJavaScript
  | ContextJavaScriptString, ContextJavaScriptString
  | ContextJSON, ContextJSON | ContextMarkdown, ContextMarkdown => true
  | _, _ => false
  end.

(** The top-level nodes of a parsed tree.  Expressions and the bodies of
    statements that no claim looks into are kept as source text. *)
Inductive Node :=
| Text (pos : option Position) (text : string)
| Comment (pos : option Position) (text : string)
| Macro (pos : option Position) (name : string) (body : list Node)
| Var (pos : option Position) (src : string)
| TypeDeclaration (pos : option Position) (src : string)
| Const (pos : option Position) (src : string)
| Import (pos : option Position) (path : string)
| Extends (pos : option Position) (path : string)
| Show (pos : option Position) (expr : string) (ctx : Context)
| Statement (pos : option Position) (src : string)
| Package (pos : option Position) (name : string) (decls : list Node).

Definition Pos (n : Node) : option Position :=
  match n with
  | Text p _ | Comment p _ | Macro p _ _ | Var p _ | TypeDeclaration p _
  | Const p _ | Import p _ | Extends p _ | Show p _ _ | Statement p _
  | Package p _ _ => p
  end.

Record Tree := mkTree {
  tree_Path : string;
  tree_Pos : option Position;
  Nodes : list Node
}.

End Ast.

(** ** Package reflect: kinds, types and method sets *)

Module Reflect.

Inductive Kind :=
| Invalid | KBool | KInt | KInt8 | KInt16 | KInt32 | KInt64
| KUint | KUint8 | KUint16 | KUint32 | KUint64 | KUintptr
| KFloat32 | KFloat64 | KComplex64 | KComplex128
| KArray | KChan | KFunc | KInterface | KMap | KPtr | KSlice | KString
| KStruct | KUnsafePointer.

(** The numeric value of a [reflect.Kind]: the order of its [iota]. *)
Definition kindNum (k : Kind) : Z :=
  match k with
  | Invalid => 0 | KBool => 1 | KInt => 2 | KInt8 => 3 | KInt16 => 4
  | KInt32 => 5 | KInt64 => 6 | KUint => 7 | KUint8 => 8 | KUint16 => 9
  | KUint32 => 10 | KUint64 => 11 | KUintptr => 12 | KFloat32 => 13
  | KFloat64 => 14 | KComplex64 => 15 | KComplex128 => 16 | KArray => 17
  | KChan => 18 | KFunc => 19 | KInterface => 20 | KMap => 21 | KPtr => 22
  | KSlice => 23 | KString => 24 | KStruct => 25 | KUnsafePointer => 26
  end.

Definition Kind_eqb (x y : Kind) : bool := kindNum x =? kindNum y.

(** A method: its name and its signature. *)
Definition Method : Type := string * string.

Definition Method_eqb (m n : Method) : bool :=
  String.eqb (fst m) (fst n) && String.eqb (snd m) (snd n).

Fixpoint Methods_eqb (l r : list Method) : bool :=
  match l, r with
  | [], [] => true
  | m :: l', n :: r' => Method_eqb m n && Methods_eqb l' r'
  | _, _ => false
  end.

(** A [reflect.Type]: predeclared types, defined (named) types with
    their methods, and type literals. *)
Inductive Type_ :=
| TBasic (k : Kind)
| TNamed (pkgPath name : string) (underlying : Type_) (methods : list Method)
| TSlice (elem : Type_)
| TArray (n : Z) (elem : Type_)
| TPtr (elem : Type_)
| TMap (key elem : Type_)
| TChan (elem : Type_)
| TInterface (methods : list Method)
| TFunc (signature : string)
| TStruct (fields : string).

(** [t1 == t2] on [reflect.Type] values: identity of types. *)
Fixpoint Type_eqb (t u : Type_) : bool :=
  match t, u with
  | TBasic k, TBasic k' => Kind_eqb k k'
  | TNamed p n t' ms, TNamed p' n' u' ms' =>
      String.eqb p p' && String.eqb n n' && Type_eqb t' u'
      && Methods_eqb ms ms'
  | TSlice t', TSlice u' => Type_eqb t' u'
  | TArray n t', TArray n' u' => (n =? n') && Type_eqb t' u'
  | TPtr t', TPtr u' => Type_eqb t' u'
  | TMap k t', TMap k' u' => Type_eqb k k' && Type_eqb t' u'
  | TChan t', TChan u' => Type_eqb t' u'
  | TInterface ms, TInterface ms' => Methods_eqb ms ms'
  | TFunc s, TFunc s' => String.eqb s s'
  | TStruct s, TStruct s' => String.eqb s s'
  | _, _ => false
  end.

(** [Type.Kind()] *)
Fixpoint Kind_of (t : Type_) : Kind :=
  match t with
  | TBasic k => k
  | TNamed _ _ u _ => Kind_of u
  | TSlice _ => KSlice
  | TArray _ _ => KArray
  | TPtr _ => KPtr
  | TMap _ _ => KMap
  | TChan _ => KChan
  | TInterface _ => KInterface
  | TFunc _ => KFunc
  | TStruct _ => KStruct
  end.

(** The methods of an interface type, [None] for other types. *)
Definition interfaceMethods (t : Type_) : option (list Method) :=
  match t with
  | TInterface ms => Some ms
  | TNamed _ _ (TInterface ms) _ => Some ms
  | _ => None
  end.

(** The method set of a type. *)
Definition methodSet (t : Type_) : list Method :=
  match t with
  | TInterface ms => ms
  | TNamed _ _ (TInterface ms) _ => ms
  | TNamed _ _ _ ms => ms
  | TPtr (TNamed _ _ (TInterface _) _) => []
  | TPtr (TNamed _ _ _ ms) => ms
  | _ => []
  end.

(** [t.Implements(u)]; [reflect] panics when [u] is not an interface
    type, which no caller here does: [false] then. *)
Definition Implements (t u : Type_) : bool :=
  match interfaceMethods u with
  | Some ms => forallb (fun m => existsb (Method_eqb m) (methodSet t)) ms
  | None => false
  end.

End Reflect.

(** ** Package compiler: the type checker *)

Module Checker.
Import GoString Strings Ast Reflect.

(** [CheckingError], or the plain error that [checkError] builds for a
    node without position. *)
Inductive error :=
| CheckingError (path : string) (pos : Position) (err : string)
| PlainError (err : string).

Definition message (e : error) : string :=
  match e with CheckingError _ _ m => m | PlainError m => m end.

(** [checkError] *)
Definition checkError (path : string) (pos : option Position) (msg : string)
  : error :=
  match pos with
  | None => PlainError msg
  | Some p => CheckingError path (mkPos (Line p) (Column p) (Start p) (End_ p)) msg
  end.

(** *** [templatePageToPackage] *)

Definition errTemplateDeclarations : string :=
  "template declarations can only contain extends, import or declaration statements".

(** The [switch] of the loop: what is done with one top-level node. *)
Inductive nodeClass := Dropped | Declaration | Rejected.

Definition classify (n : Node) : nodeClass :=
  match n with
  | Comment _ _ => Dropped
  | Macro _ _ _ | Var _ _ | TypeDeclaration _ _ | Const _ _ | Import _ _
  | Extends _ _ => Declaration
  | Text _ txt =>
      if len (TrimSpace txt) =? 0 then Dropped else Rejected
  | _ => Rejected
  end.

(** The loop over [tree.Nodes]: the declarations collected so far are
    [acc]; the first rejected node ends it. *)
Fixpoint collect (nodes acc : list Node) : list Node + Node :=
  match nodes with
  | [] => inl acc
  | n :: rest =>
      match classify n with
      | Dropped => collect rest acc
      | Declaration => collect rest (acc ++ [n])
      | Rejected => inr n
      end
  end.

Definition isPackageTree (tree : Tree) : bool :=
  match Nodes tree with
  | [Package _ _ _] => true
  | _ => false
  end.

(** [templatePageToPackage]: the checker's [path] field and the tree are
    passed and returned, with the error if any. *)
Definition templatePageToPackage (tc_path : string) (tree : Tree)
    (path : string) : string * Tree * option error :=
  if isPackageTree tree then (tc_path, tree, None)
  else
    let currentPath := tc_path in
    let tc_path := path in
    match collect (Nodes tree) [] with
    | inr n =>
        (tc_path, tree,
         Some (checkError tc_path (Pos n) errTemplateDeclarations))
    | inl nodes =>
        (currentPath,
         mkTree (tree_Path tree) (tree_Pos tree)
                [Package (tree_Pos tree) "" nodes],
         None)
    end.

(** The three kinds of top-level node in the words of the
    specification. *)
Definition isDeclarationNode (n : Node) : bool :=
  match n with
  | Macro _ _ _ | Var _ _ | TypeDeclaration _ _ | Const _ _ | Import _ _
  | Extends _ _ => true
  | _ => false
  end.

Definition whitespaceOnly (txt : string) : bool :=
  String.eqb (TrimSpace txt) "".

Definition isSilentlyDropped (n : Node) : bool :=
  match n with
  | Comment _ _ => true
  | Text _ txt => whitespaceOnly txt
  | _ => false
  end.

Definition isAllowed (n : Node) : bool :=
  isDeclarationNode n || isSilentlyDropped n.

Definition packageOf (tree : Tree) : Tree :=
  mkTree (tree_Path tree) (tree_Pos tree)
         [Package (tree_Pos tree) "" (List.filter isDeclarationNode (Nodes tree))].

(** A template with a comment, blank text, a macro and a variable; and
    one with a [show] statement at top level. *)
Definition sampleNodes : list Node :=
  [Comment None "c"; Text None "  "; Macro None "M" []; Var None "var a = 1"].

Definition sampleTree : Tree := mkTree "/lib.html" None sampleNodes.

Definition sampleBadTree : Tree :=
  mkTree "/bad.html" None
         [Macro None "M" []; Show (Some (mkPos 1 9 8 14)) "a" ContextHTML;
          Var None "var a = 1"].

(** *** The [show] statement *)

(** The result of [tc.checkExpr] on the operand, as far as the [show]
    case reads it: its type and whether it is the untyped [nil]. *)
Record typeInfo := mkTypeInfo { Typ : Type_; IsNil : bool }.

Definition emptyInterfaceType : Type_ := TInterface [].
Definition byteSliceType : Type_ := TSlice (TBasic KUint8).
Definition stringerType : Type_ :=
  TNamed "fmt" "Stringer" (TInterface [("String", "func() string")]) [].
Definition htmlStringerType : Type_ :=
  TNamed "templates" "HTMLStringer" (TInterface [("HTML", "func() string")]) [].
Definition cssStringerType : Type_ :=
  TNamed "templates" "CSSStringer" (TInterface [("CSS", "func() string")]) [].

Definition kindBetween (lo k hi : Kind) : bool :=
  (kindNum lo <=? kindNum k) && (kindNum k <=? kindNum hi).

Section Show.
(** [printedAsJavaScript] and the printing of expressions and types in
    messages are not among the sources. *)
Variable printedAsJavaScript : Type_ -> option string.
Variable typeString : typeInfo -> string.

Definition cannotPrint (expr : string) (ti : typeInfo) (as_ : string)
  : string :=
  "cannot print " +:+ expr +:+ " (type " +:+ typeString ti
    +:+ " cannot be printed as " +:+ as_ +:+ ")".

(** [case *ast.Show] of [checkNodes], after [tc.checkExpr]: [None]
    when the statement is accepted, the error it panics with
    otherwise. *)
Definition checkShow (tc_path : string) (pos : option Position)
    (expr : string) (ctx : Context) (ti : typeInfo) : option error :=
  if IsNil ti then Some (checkError tc_path pos "use of untyped nil")
  else
    let kind := Kind_of (Typ ti) in
    match ctx with
    | ContextText | ContextTag | ContextAttribute
    | ContextUnquotedAttribute | ContextCSSString
    | ContextJavaScriptString =>
        if Kind_eqb kind KString then None
        else if kindBetween KBool kind KComplex128 then None
        else if Type_eqb (Typ ti) emptyInterfaceType then None
        else if Context_eqb ctx ContextCSSString
                && Type_eqb (Typ ti) byteSliceType then None
        else if Implements (Typ ti) stringerType then None
        else Some (checkError tc_path pos (cannotPrint expr ti "text"))
    | ContextHTML =>
        if Kind_eqb kind KString then None
        else if kindBetween KBool kind KComplex128 then None
        else if Type_eqb (Typ ti) emptyInterfaceType then None
        else if Implements (Typ ti) stringerType then None
        else if Implements (Typ ti) htmlStringerType then None
        else Some (checkError tc_path pos (cannotPrint expr ti "HTML"))
    | ContextCSS =>
        if Kind_eqb kind KString then None
        else if kindBetween KInt kind KFloat64 then None
        else if Type_eqb (Typ ti) emptyInterfaceType then None
        else if Type_eqb (Typ ti) byteSliceType then None
        else if Implements (Typ ti) cssStringerType then None
        else Some (checkError tc_path pos (cannotPrint expr ti "CSS"))
    | ContextJavaScript =>
        match printedAsJavaScript (Typ ti) with
        | Some err =>
            Some (checkError tc_path pos
                    ("cannot print " +:+ expr +:+ " (" +:+ err +:+ ")"))
        | None => None
        end
    | _ => None
    end.
End Show.

(** *** The operand types in the words of the specification *)

Definition isStringKind (k : Kind) : bool :=
  match k with KString => true | _ => false end.

(** The numeric kinds: integers, floats and complex numbers. *)
Definition isNumericKind (k : Kind) : bool :=
  match k with
  | KInt | KInt8 | KInt16 | KInt32 | KInt64 | KUint | KUint8 | KUint16
  | KUint32 | KUint64 | KUintptr | KFloat32 | KFloat64 | KComplex64
  | KComplex128 => true
  | _ => false
  end.

Definition isBoolKind (k : Kind) : bool :=
  match k with KBool => true | _ => false end.

Definition isComplexKind (k : Kind) : bool :=
  match k with KComplex64 | KComplex128 => true | _ => false end.

(** What the specification lets a [show] take in the text, tag,
    attribute and string contexts. *)
Definition textOperand (t : Type_) : bool :=
  isStringKind (Kind_of t) || isNumericKind (Kind_of t)
  || Type_eqb t emptyInterfaceType || Implements t stringerType.

(** The nine contexts for which the checker tests the operand. *)
Definition testedContext (ctx : Context) : bool :=
  match ctx with
  | ContextJSON | ContextMarkdown => false
  | _ => true
  end.

(** What the checker lets a [show] take: the statement of the
    specification, with booleans let through wherever all numeric kinds
    are, with byte slices let through in CSS strings, and with the CSS
    context taking strings, integers and floats, the empty interface,
    byte slices and values with a [CSS] method only. *)
Definition accepts (printedAsJavaScript : Type_ -> option string)
    (ctx : Context) (t : Type_) : bool :=
  match ctx with
  | ContextHTML =>
      textOperand t || isBoolKind (Kind_of t) || Implements t htmlStringerType
  | ContextCSS =>
      isStringKind (Kind_of t)
      || (isNumericKind (Kind_of t) && negb (isComplexKind (Kind_of t)))
      || Type_eqb t emptyInterfaceType || Type_eqb t byteSliceType
      || Implements t cssStringerType
  | ContextJavaScript =>
      match printedAsJavaScript t with None => true | Some _ => false end
  | ContextCSSString =>
      textOperand t || isBoolKind (Kind_of t) || Type_eqb t byteSliceType
  | _ => textOperand t || isBoolKind (Kind_of t)
  end.

(** Sample operands and the functions that are not among the sources,
    for the examples. *)
Definition sampleJS (t : Type_) : option string :=
  if isStringKind (Kind_of t) then None else Some "type cannot be printed as JavaScript".
Definition sampleTypeString (ti : typeInfo) : string := "T".
Definition boolOperand : typeInfo := mkTypeInfo (TBasic KBool) false.
Definition complexOperand : typeInfo := mkTypeInfo (TBasic KComplex128) false.
Definition htmlOperand : typeInfo :=
  mkTypeInfo (TNamed "templates" "HTML" (TBasic KString) [("HTML", "func() string")])
             false.

End Checker.

(** ** Package parser: evaluation of constant binary expressions *)

Module ConstEval.

(** The declaration of [ast.DefaultType] is not among the sources; the
    numeric default types come in the order int, rune, float64, which
    is what the comparison [c.DefaultType < c2.DefaultType] of
    [binaryOp] relies on, and the zero value is the first of them. *)
Inductive DefaultType :=
| DefaultTypeInt | DefaultTypeRune | DefaultTypeFloat64
| DefaultTypeString | DefaultTypeBool.

Definition rank (d : DefaultType) : Z :=
  match d with
  | DefaultTypeInt => 0 | DefaultTypeRune => 1 | DefaultTypeFloat64 => 2
  | DefaultTypeString => 3 | DefaultTypeBool => 4
  end.

Definition isFloat64 (d : DefaultType) : bool :=
  match d with DefaultTypeFloat64 => true | _ => false end.

Inductive Operator :=
| OperatorEqual | OperatorNotEqual | OperatorLess | OperatorLessOrEqual
| OperatorGreater | OperatorGreaterOrEqual | OperatorAnd | OperatorOr
| OperatorAddition | OperatorSubtraction | OperatorMultiplication
| OperatorDivision | OperatorModulo.

(** *** Package go/constant: exact integers and rationals *)

Inductive Value := IntVal (z : Z) | RatVal (q : Q).

Definition toQ (v : Value) : Q :=
  match v with IntVal z => inject_Z z | RatVal q => q end.

(** [constant.Sign] *)
Definition Sign (v : Value) : Z :=
  match v with
  | IntVal z => Z.sgn z
  | RatVal q => Z.sgn (Qnum q)
  end.

Inductive Token := EQL | NEQ | LSS | LEQ | GTR | GEQ | ADD | SUB | MUL | QUO | REM.

(** [constant.Compare] *)
Definition Compare (x : Value) (tok : Token) (y : Value) : option bool :=
  let c := Qcompare (toQ x) (toQ y) in
  match tok with
  | EQL => Some (match c with Eq => true | _ => false end)
  | NEQ => Some (match c with Eq => false | _ => true end)
  | LSS => Some (match c with Lt => true | _ => false end)
  | LEQ => Some (match c with Gt => false | _ => true end)
  | GTR => Some (match c with Gt => true | _ => false end)
  | GEQ => Some (match c with Lt => false | _ => true end)
  | _ => None
  end.

(** [constant.BinaryOp]: integers stay integers under [ADD], [SUB],
    [MUL] and [REM]; [QUO] yields a rational; with a rational operand
    both are taken as rationals, on which [REM] is not defined.  [None]
    is the panic of the library. *)
Definition BinaryOp (x : Value) (tok : Token) (y : Value) : option Value :=
  match x, y with
  | IntVal a, IntVal b =>
      match tok with
      | ADD => Some (IntVal (a + b))
      | SUB => Some (IntVal (a - b))
      | MUL => Some (IntVal (a * b))
      | QUO => if b =? 0 then None else Some (RatVal (Qred (inject_Z a / inject_Z b)))
      | REM => if b =? 0 then None else Some (IntVal (Z.rem a b))
      | _ => None
      end
  | _, _ =>
      let a := toQ x in
      let b := toQ y in
      match tok with
      | ADD => Some (RatVal (Qred (a + b)))
      | SUB => Some (RatVal (Qred (a - b)))
      | MUL => Some (RatVal (Qred (a * b)))
      | QUO => if Qnum b =? 0 then None else Some (RatVal (Qred (a / b)))
      | _ => None
      end
  end.

(** [new(big.Int).SetString(x.ExactString(), 10)]: the exact string of
    a rational that is not an integer value is a fraction, which does
    not parse. *)
Definition exactInt (v : Value) : option Z :=
  match v with IntVal z => Some z | RatVal _ => None end.

(** *** [ast.Constant] and [binaryOp] *)

Record Constant := mkConstant {
  DefaultType_ : DefaultType;
  Number : option Value;
  Bool_ : bool;
  String_ : string
}.

Definition zeroConstant : Constant :=
  mkConstant DefaultTypeInt None false "".

Inductive error :=
| errDivisionByZero
| errFloatModulo
| errInvalidOperation (op : Operator) (d : DefaultType).

(** [errors.New("division by zero")] *)
Definition errorString (e : error) : option string :=
  match e with
  | errDivisionByZero => Some "division by zero"
  | _ => None
  end.

(** The outcome of [binaryOp]: a constant, a checking error it panics
    with, or a run-time panic of the checker itself. *)
Inductive result :=
| Ok (c : Constant)
| Error (e : error)
| GoPanic.

(** The value [v] computed by the numeric case. *)
Inductive computed := VNumber (n : Value) | VBool (b : bool) | VNil.

Definition ofNumber (o : option Value) : result + computed :=
  match o with Some n => inr (VNumber n) | None => inl GoPanic end.
Definition ofBool (o : option bool) : result + computed :=
  match o with Some b => inr (VBool b) | None => inl GoPanic end.

Definition numericOp (op : Operator) (d1 d2 : DefaultType) (n1 n2 : Value)
  : result + computed :=
  match op with
  | OperatorEqual => ofBool (Compare n1 EQL n2)
  | OperatorNotEqual => ofBool (Compare n1 NEQ n2)
  | OperatorLess => ofBool (Compare n1 LSS n2)
  | OperatorLessOrEqual => ofBool (Compare n1 LEQ n2)
  | OperatorGreater => ofBool (Compare n1 GTR n2)
  | OperatorGreaterOrEqual => ofBool (Compare n1 GEQ n2)
  | OperatorAddition => ofNumber (BinaryOp n1 ADD n2)
  | OperatorSubtraction => ofNumber (BinaryOp n1 SUB n2)
  | OperatorMultiplication => ofNumber (BinaryOp n1 MUL n2)
  | OperatorDivision =>
      if Sign n2 =? 0 then inl (Error errDivisionByZero)
      else if isFloat64 d1 || isFloat64 d2
      then ofNumber (BinaryOp n1 QUO n2)
      else
        match exactInt n1, exactInt n2 with
        | Some a, Some b => inr (VNumber (IntVal (Z.quot a b)))
        | _, _ => inl GoPanic
        end
  | OperatorModulo =>
      if isFloat64 d1 || isFloat64 d2 then inl (Error errFloatModulo)
      else if Sign n2 =? 0 then inl (Error errDivisionByZero)
      else ofNumber (BinaryOp n1 REM n2)
  | OperatorAnd | OperatorOr => inr VNil
  end.

(** [binaryOp] on the constants of the two operands. *)
Definition binaryOp (op : Operator) (c1 c2 : Constant) : result :=
  match DefaultType_ c1 with
  | DefaultTypeString =>
      match op with
      | OperatorEqual =>
          Ok (mkConstant DefaultTypeBool None
                (Bool.eqb (Bool_ c1) (Bool_ c2)) "")
      | OperatorNotEqual =>
          Ok (mkConstant DefaultTypeBool None
                (negb (Bool.eqb (Bool_ c1) (Bool_ c2))) "")
      | OperatorAddition =>
          Ok (mkConstant DefaultTypeString None false
                (String_ c1 +:+ String_ c2))
      | _ => Ok zeroConstant
      end
  | DefaultTypeBool =>
      match op with
      | OperatorEqual =>
          Ok (mkConstant DefaultTypeBool None (Bool.eqb (Bool_ c1) (Bool_ c2)) "")
      | OperatorNotEqual =>
          Ok (mkConstant DefaultTypeBool None
                (negb (Bool.eqb (Bool_ c1) (Bool_ c2))) "")
      | OperatorAnd =>
          Ok (mkConstant DefaultTypeBool None (Bool_ c1 && Bool_ c2) "")
      | OperatorOr =>
          Ok (mkConstant DefaultTypeBool None (Bool_ c1 || Bool_ c2) "")
      | _ => Error (errInvalidOperation op (DefaultType_ c1))
      end
  | d1 =>
      let d2 := DefaultType_ c2 in
      (* a modulo on a float operand is refused before the numbers are
         looked at *)
      match op, isFloat64 d1 || isFloat64 d2 with
      | OperatorModulo, true => Error errFloatModulo
      | _, _ =>
          match Number c1, Number c2 with
          | Some n1, Some n2 =>
              match numericOp op d1 d2 n1 n2 with
              | inl r => r
              | inr (VNumber number) =>
                  Ok (mkConstant (if rank d1 <? rank d2 then d2 else d1)
                                 (Some number) false "")
              | inr (VBool b) => Ok (mkConstant DefaultTypeBool None b "")
              | inr VNil => GoPanic
              end
          | _, _ => GoPanic
          end
      end
  end.


(** Sample constants: the integer [2^64], the integer zero and the
    float [1.5]. *)
Definition intConstant (z : Z) : Constant :=
  mkConstant DefaultTypeInt (Some (IntVal z)) false "".


(** The constant that [typeof] gives a string literal: the default type
    and the text; the other fields are zero. *)
Definition stringLiteral (text : string) : Constant :=
  mkConstant DefaultTypeString None false text.

Definition boolConstant (b : bool) : Constant :=
  mkConstant DefaultTypeBool None b "".

End ConstEval.

(** ** Package template: the renderer of the tree-walking engine *)

Module Renderer.
Import GoString Ast.

(** Expressions are kept as source text; their evaluation is not among
    the sources. *)
Definition Expr : Type := string.

Record Cut := mkCut { Left : Z; Right : Z }.

(** The nodes whose rendering is modelled. *)
Inductive Node :=
| Text (pos : option Position) (text : string) (cut : Cut)
| URL (pos : option Position) (Attribute : string) (Value : list Node)
| Value (pos : option Position) (expr : Expr) (ctx : Context)
| ShowMacro (pos : option Position) (Import : option string)
            (Macro : string) (Arguments : list Expr) (ctx : Context)
| Break (pos : option Position)
| Continue (pos : option Position).

Definition Pos (n : Node) : option Position :=
  match n with
  | Text p _ _ | URL p _ _ | Value p _ _ | ShowMacro p _ _ _ _ | Break p
  | Continue p => p
  end.

(** [*ast.Macro], the declaration of a macro. *)
Record MacroNode := mkMacroNode {
  macro_Pos : option Position;
  Ident : string;
  Parameters : list string;
  Body : list Node;
  IsVariadic : bool;
  macro_Context : Context
}.

(** [macro]: a macro in a scope. *)
Record macro := mkMacro { macro_path : string; macro_node : MacroNode }.

(** The values held by a scope. *)
Inductive value :=
| VMacro (m : macro)
| VReference
| VNil
| VString (s : string)
| VInt (n : Z)
| VBool (b : bool)
| VSlice (l : list value).

Inductive error :=
| Error_ (Path : string) (pos : Position) (Err : string)
| Plain (Err : string)
| errBreak
| errContinue
| WriteError (code : Z).

(** [urlState] *)
Record urlState := mkUrlState {
  path : bool;
  query : bool;
  isSet : bool;
  addAmp : bool
}.

(** [rendering]; a [nil] scope in [vars] is [None]. *)
Record rendering := mkRendering {
  scope : gmap string (gmap string value);
  r_path : string;
  vars : list (option (gmap string value));
  treeContext : Context;
  handleError : error -> bool
}.

(** [io.Writer] *)
Class Writer (W : Type) := Write : W -> string -> W * option error.

(** A [bytes.Buffer]: every write succeeds. *)
#[export] Instance bufferWriter : Writer string :=
  fun b p => (b +:+ p, None).

(** A writer with room for [n] more bytes that fails a write it cannot
    take whole. *)
#[export] Instance limitedWriter : Writer (string * Z) :=
  fun w p =>
    if len p <=? snd w then ((fst w +:+ p, snd w - len p), None)
    else (w, Some (WriteError 1)).

(** [rendering.errorf] *)
Definition errorf (r : rendering) (pos : option Position) (msg : string)
  : error :=
  match pos with
  | None => Plain msg
  | Some p => Error_ (r_path r) (mkPos (Line p) (Column p) (Start p) (End_ p)) msg
  end.

(** [rendering.variable]: the scopes are searched from the innermost;
    [inl tt] is the panic on a referenced value. *)
Fixpoint variableFrom (rev_vars : list (option (gmap string value)))
    (name : string) : unit + option value :=
  match rev_vars with
  | [] => inr None
  | None :: below => variableFrom below name
  | Some sc :: below =>
      match sc !! name with
      | Some VReference => inl tt
      | Some v => inr (Some v)
      | None => variableFrom below name
      end
  end.

Definition variable (r : rendering) (name : string) : unit + option value :=
  variableFrom (rev (vars r)) name.

(** [bytes.ContainsAny(text, "?#")] *)
Definition containsQueryOrFragment (text : string) : bool :=
  (0 <=? IndexByte text "?") || (0 <=? IndexByte text "#").

(** What the rendering threads through: the writer ([None] for a [nil]
    writer), the URL state the caller points to ([None] for [nil]), and
    the errors passed to [handleError] so far. *)
Record St (W : Type) := mkSt {
  wr : option W;
  urlstate : option urlState;
  reported : list error
}.
Arguments mkSt {W}.
Arguments wr {W}.
Arguments urlstate {W}.
Arguments reported {W}.

Inductive outcome (W : Type) :=
| Done (st : St W) (err : option error)
| GoPanic (msg : string)
| OutOfFuel.
Arguments Done {W}.
Arguments GoPanic {W}.
Arguments OutOfFuel {W}.

(** The URL part of [case *ast.Text]: the state after [text] is looked
    at, the text that remains to be written, and whether ["&amp;"] is
    written before it. *)
Definition urlText (u : urlState) (text : string) : urlState * string * bool :=
  if query u then (u, text, false)
  else
    let '(u1, text1, amp) :=
      if containsQueryOrFragment text then
        let strip := is_byte (first_byte text) "?" && negb (path u) in
        (mkUrlState false true (isSet u) (addAmp u),
         if strip then drop 1 text else text,
         strip && addAmp u)
      else (u, text, false) in
    let u2 :=
      if isSet u1 && (0 <=? IndexByte text1 ",")
      then mkUrlState true false (isSet u1) (addAmp u1)
      else u1 in
    (u2, text1, amp).

Section Render.
Context {W : Type} `{Writer W}.

(** [case *ast.Text] *)
Definition renderText (st : St W) (text : string) (cut : Cut) : outcome W :=
  match wr st with
  | None => Done st None
  | Some w =>
      if len text - Left cut - Right cut =? 0 then Done st None
      else if (Left cut <? 0) || (len text - Right cut <? Left cut)
              || (len text <? len text - Right cut)
      then GoPanic "slice bounds out of range"
      else
        let text :=
          take (Z.to_nat (len text - Right cut - Left cut))
               (drop (Z.to_nat (Left cut)) text) in
        match urlstate st with
        | None =>
            let '(w, e) := Write w text in
            Done (mkSt (Some w) None (reported st)) e
        | Some u =>
            let '(u', text', amp) := urlText u text in
            let '(w1, e1) := if amp then Write w "&amp;" else (w, None) in
            match e1 with
            | Some e => Done (mkSt (Some w1) (Some u) (reported st)) (Some e)
            | None =>
                let '(w2, e2) := Write w1 text' in
                Done (mkSt (Some w2) (Some u') (reported st)) e2
            end
        end
  end.

(** [r.eval], [r.renderValue] and [typeof] on values other than
    macros are not among the sources. *)
Variable eval : rendering -> Expr -> value + error.
Variable renderValue :
  option W -> value -> Expr -> Context -> option urlState ->
  option W * option urlState * option error.
Variable typeof : value -> string.
Variable contextString : Context -> string.

Definition nl : string := String (ascii_of_nat 10) (String (ascii_of_nat 9) "").

(** The ["have"] list of the arity error. *)
Fixpoint haveList (i haveSize : nat) (params : list string) : string :=
  match haveSize with
  | O => ""
  | S n =>
      (if (0 <? i)%nat then ", " else "")
      +:+ match params with
          | p :: _ => p
          | [] => "?"
          end
      +:+ haveList (S i) n (tl params)
  end.

(** The ["want"] list of the arity error. *)
Fixpoint wantList (i wantSize : nat) (params : list string)
    (isVariadic : bool) : string :=
  match params with
  | [] => ""
  | p :: rest =>
      (if (0 <? i)%nat then ", " else "") +:+ p
      +:+ (if (S i =? wantSize)%nat && isVariadic then "..." else "")
      +:+ wantList (S i) wantSize rest isVariadic
  end.

(** The evaluation of the arguments of a show, in order; stops at the
    first error. *)
Fixpoint evalArguments (r : rendering) (args : list Expr)
  : list value + error :=
  match args with
  | [] => inl []
  | a :: rest =>
      match eval r a with
      | inr e => inr e
      | inl v =>
          match evalArguments r rest with
          | inl vs => inl (v :: vs)
          | inr e => inr e
          end
      end
  end.

(** The scope [arguments] of a show: one entry per parameter, the last
    parameter of a variadic macro holding the remaining arguments. *)
Fixpoint bindArguments (params : list string) (isVariadic : bool)
    (args : list value) (acc : gmap string value) : gmap string value :=
  match params with
  | [] => acc
  | [p] =>
      if isVariadic then <[p := VSlice args]> acc
      else match args with
           | a :: _ => <[p := a]> acc
           | [] => acc
           end
  | p :: ps =>
      match args with
      | a :: rest => bindArguments ps isVariadic rest (<[p := a]> acc)
      | [] => bindArguments ps isVariadic [] acc
      end
  end.

Definition showName (imp : option string) (name sep : string) : string :=
  match imp with
  | Some i => i +:+ sep +:+ name
  | None => name
  end.

(** The arity check of a show. *)
Definition arityError (isVariadic : bool) (haveSize wantSize : nat) : bool :=
  (negb isVariadic && negb (haveSize =? wantSize)%nat)
  || (isVariadic && (haveSize <? wantSize - 1)%nat).

(** An error is passed to [handleError]; when it asks to go on the
    loop continues with the next node, otherwise the error is
    returned. *)
Definition report (r : rendering) (st : St W) (e : error)
    (continue : St W -> outcome W) : outcome W :=
  let st' := mkSt (wr st) (urlstate st) (reported st ++ [e]) in
  if handleError r e then continue st' else Done st' (Some e).

(** [rendering.render], bounded in the depth of nested renderings
    (the value of a URL, the body of a macro). *)
Fixpoint render (fuel : nat) (r : rendering) (nodes : list Node)
    (st : St W) {struct fuel} : outcome W :=
  match fuel with
  | O => OutOfFuel
  | S fuel' =>
      (fix loop (nodes : list Node) (st : St W) {struct nodes} : outcome W :=
         match nodes with
         | [] => Done st None
         | n :: rest =>
             match n with
             | Text _ text cut =>
                 match renderText st text cut with
                 | Done st' None => loop rest st'
                 | o => o
                 end
             | URL _ attribute val =>
                 match val with
                 | [] => loop rest st
                 | _ :: _ =>
                     let isSet := String.eqb attribute "srcset" in
                     let inner :=
                       mkSt (wr st) (Some (mkUrlState true false isSet false))
                            (reported st) in
                     match render fuel' r val inner with
                     | Done st' None =>
                         loop rest (mkSt (wr st') (urlstate st) (reported st'))
                     | Done st' (Some e) =>
                         Done (mkSt (wr st') (urlstate st) (reported st')) (Some e)
                     | o => o
                     end
                 end
             | Value _ expr ctx =>
                 match eval r expr with
                 | inr e => report r st e (loop rest)
                 | inl v =>
                     let '(w, u, e) := renderValue (wr st) v expr ctx (urlstate st) in
                     let st' := mkSt w u (reported st) in
                     match e with
                     | Some e => Done st' (Some e)
                     | None => loop rest st'
                     end
                 end
             | ShowMacro pos imp mname args ctx =>
                 let name := showName imp mname "." in
                 match variable r name with
                 | inl _ => GoPanic "referenced not implemented"
                 | inr None =>
                     report r st
                       (errorf r pos ("macro " +:+ name +:+ " not declared"))
                       (loop rest)
                 | inr (Some (VMacro m)) =>
                     let mn := macro_node m in
                     if negb (Context_eqb ctx (macro_Context mn)) then
                       report r st
                         (errorf r pos
                            ("macro " +:+ name
                             +:+ " is defined in a different context ("
                             +:+ contextString (macro_Context mn) +:+ ")"))
                         (loop rest)
                     else
                       let haveSize := length args in
                       let wantSize := length (Parameters mn) in
                       if arityError (IsVariadic mn) haveSize wantSize then
                         let have :=
                           "(" +:+ haveList 0 haveSize (Parameters mn) +:+ ")" in
                         let want :=
                           "(" +:+ wantList 0 wantSize (Parameters mn)
                                          (IsVariadic mn) +:+ ")" in
                         let name := showName imp mname " " in
                         report r st
                           (errorf r pos
                              ((if (haveSize <? wantSize)%nat
                                then "not enough arguments in show of "
                                else "too many arguments in show of ")
                               +:+ name +:+ nl +:+ "have " +:+ have
                               +:+ nl +:+ "want " +:+ want))
                           (loop rest)
                       else if IsVariadic mn && (wantSize =? 0)%nat then
                         GoPanic "index out of range"
                       else
                         match evalArguments r args with
                         | inr e => report r st e (loop rest)
                         | inl vs =>
                             match vars r with
                             | v0 :: v1 :: _ =>
                                 let arguments :=
                                   bindArguments (Parameters mn) (IsVariadic mn) vs ∅ in
                                 let rn :=
                                   mkRendering (scope r) (macro_path m)
                                     [v0; v1; scope r !! macro_path m; Some arguments]
                                     (treeContext r) (handleError r) in
                                 match render fuel' rn (Body mn)
                                         (mkSt (wr st) None (reported st)) with
                                 | Done st' None =>
                                     loop rest (mkSt (wr st') (urlstate st) (reported st'))
                                 | Done st' (Some e) =>
                                     Done (mkSt (wr st') (urlstate st) (reported st')) (Some e)
                                 | o => o
                                 end
                             | _ => GoPanic "index out of range"
                             end
                         end
                 | inr (Some v) =>
                     report r st
                       (errorf r pos
                          ("cannot show non-macro " +:+ name +:+ " (type "
                           +:+ typeof v +:+ ")"))
                       (loop rest)
                 end
             | Break _ => Done st (Some errBreak)
             | Continue _ => Done st (Some errContinue)
             end
         end) nodes st
  end.
End Render.

(** The state of the URL writer after literal text [text], of which
    [rest] is written: unchanged in query state; otherwise the path state
    for a comma in a [srcset], else the query state for a question mark
    or a hash. *)
Definition afterText (u : urlState) (text rest : string) : urlState :=
  if query u then u
  else if isSet u && (0 <=? IndexByte rest ",")
  then mkUrlState true false true (addAmp u)
  else if containsQueryOrFragment text
  then mkUrlState false true (isSet u) (addAmp u)
  else u.


(** The rendering [rn] in which the body of a macro is rendered. *)
Definition macroRendering (r : rendering) (m : macro)
    (v0 v1 : option (gmap string value)) (vs : list value) : rendering :=
  mkRendering (scope r) (macro_path m)
    [v0; v1; scope r !! macro_path m;
     Some (bindArguments (Parameters (macro_node m))
             (IsVariadic (macro_node m)) vs ∅)]
    (treeContext r) (handleError r).

(** *** Samples *)

Definition sampleEval (r : rendering) (e : Expr) : value + error :=
  if String.eqb e "bad" then inr (Plain "undefined: bad") else inl (VString e).

Definition sampleRenderValue (w : option string) (v : value) (e : Expr)
    (ctx : Context) (u : option urlState)
  : option string * option urlState * option error :=
  match w, v with
  | Some b, VString s => (Some (b +:+ s), u, None)
  | _, _ => (w, u, None)
  end.

Definition sampleTypeof (v : value) : string := "value".

Definition sampleContextString (c : Context) : string :=
  match c with
  | ContextHTML => "HTML"
  | ContextCSS => "CSS"
  | _ => "Text"
  end.

(** The macro [Title(a)] declared in HTML context with body [Hi]. *)
Definition sampleMacroNode : MacroNode :=
  mkMacroNode None "Title" ["a"] [Text None "Hi" (mkCut 0 0)] false ContextHTML.

Definition sampleMacro : macro := mkMacro "/index.html" sampleMacroNode.

Definition sampleRendering : rendering :=
  mkRendering ∅ "/index.html"
    [None; None; Some {["Title" := VMacro sampleMacro]}]
    ContextHTML (fun _ => true).

Definition emptySt : St string := mkSt (Some "") None [].

(** The state of the URL writer at the start of a [srcset] value. *)
Definition srcsetStart : urlState := mkUrlState true false true false.


(** The part of a text node that is written:
    [node.Text[node.Cut.Left : len(node.Text)-node.Cut.Right]]. *)
Definition cutText (text : string) (cut : Cut) : string :=
  take (Z.to_nat (len text - Right cut - Left cut))
       (drop (Z.to_nat (Left cut)) text).

Definition validCut (text : string) (cut : Cut) : bool :=
  (0 <=? Left cut) && (0 <=? Right cut) && (Left cut + Right cut <=? len text).

(** The text of a list of text nodes with valid cuts; [None] for any
    other list. *)
Fixpoint literalText (nodes : list Node) : option string :=
  match nodes with
  | [] => Some ""
  | Text _ text cut :: rest =>
      if validCut text cut then
        match literalText rest with
        | Some s => Some (cutText text cut +:+ s)
        | None => None
        end
      else None
  | _ => None
  end.

(** The errors of a list of shows, each with a position, of names that
    are not declared in [r]; [None] for any other list. *)
Fixpoint undeclaredShows (r : rendering) (nodes : list Node)
  : option (list error) :=
  match nodes with
  | [] => Some []
  | ShowMacro (Some p) imp mname _ _ :: rest =>
      let name := showName imp mname "." in
      match variable r name, undeclaredShows r rest with
      | inr None, Some es =>
          Some (errorf r (Some p) ("macro " +:+ name +:+ " not declared") :: es)
      | _, _ => None
      end
  | _ => None
  end.

End Renderer.

(** ** Format types and their conversions *)

Module FormatTypes.

(** The five format types; [ast.Format] has [FormatText] too, which has
    no type of its own. *)
Inductive Format :=
| FormatHTML | FormatCSS | FormatJS | FormatJSON | FormatMarkdown.

Definition Format_eqb (f g : Format) : bool :=
  match f, g with
  | FormatHTML, FormatHTML | FormatCSS, FormatCSS | FormatJS, FormatJS
  | FormatJSON, FormatJSON | FormatMarkdown, FormatMarkdown => true
  | _, _ => false
  end.

Definition formatName (f : Format) : string :=
  match f with
  | FormatHTML => "html" | FormatCSS => "css" | FormatJS => "js"
  | FormatJSON => "json" | FormatMarkdown => "markdown"
  end.

(** The types that take part in the rule. *)
Inductive Ty := TyString | TyFormat (f : Format).

Definition Ty_eqb (t u : Ty) : bool :=
  match t, u with
  | TyString, TyString => true
  | TyFormat f, TyFormat g => Format_eqb f g
  | _, _ => false
  end.

Definition typeName (t : Ty) : string :=
  match t with
  | TyString => "string"
  | TyFormat f => "compiler." +:+ formatName f
  end.

(** An operand: an untyped string constant, or a value (constant or
    not) of a type. *)
Inductive Operand := UntypedString | Typed (t : Ty).

(** Modelled from the spec: the function of the type checker that
    decides a conversion [T(x)] to or from a format type is not among
    the sources (its tests are).  The specification's rules: an untyped
    string constant converts to any format type; a typed [string] value
    does not convert to a format type; a format type converts to
    [string] by an explicit conversion; two distinct format types do
    not convert to each other; a value of a format type converts to its
    own type. *)
Definition convertible (x : Operand) (target : Ty) : bool :=
  match x, target with
  | UntypedString, _ => true
  | Typed TyString, TyString => true
  | Typed TyString, TyFormat _ => false
  | Typed (TyFormat _), TyString => true
  | Typed (TyFormat f), TyFormat g => Format_eqb f g
  end.

(** Modelled from the spec: without an explicit conversion a format
    type is a distinct nominal type, so a typed value can be used where
    another type is expected only when the two types are the same; an
    untyped string constant takes the type asked for. *)
Definition assignable (x : Operand) (target : Ty) : bool :=
  match x with
  | UntypedString => true
  | Typed t => Ty_eqb t target
  end.

(** The explicit conversion [T(x)] of the operand written [expr]:
    [None] when it type checks, the message of the compile error
    otherwise. *)
Definition checkConversion (expr : string) (x : Operand) (target : Ty)
  : option string :=
  if convertible x target then None
  else
    Some ("cannot convert " +:+ expr +:+ " (type "
          +:+ match x with
              | UntypedString => "untyped string"
              | Typed t => typeName t
              end
          +:+ ") to type " +:+ typeName target).

End FormatTypes.

(** ** The command-line driver *)

Module CLI.
Import GoString.

Definition wrap64 (x : Z) : Z := (x + 2 ^ 63) mod 2 ^ 64 - 2 ^ 63.

(** [strconv.Atoi]: an optional sign and decimal digits, a value of
    type [int]; [None] is an error. *)
Fixpoint digits (l : list Z) (acc : Z) : option Z :=
  match l with
  | [] => Some acc
  | c :: r =>
      if (48 <=? c) && (c <=? 57) then digits r (acc * 10 + (c - 48))
      else None
  end.

Definition Atoi (s : string) : option Z :=
  let b := bytes s in
  let '(neg, ds) :=
    match b with
    | 45 :: r => (true, r)
    | 43 :: r => (false, r)
    | _ => (false, b)
    end in
  match ds with
  | [] => None
  | _ =>
      match digits ds 0 with
      | None => None
      | Some n =>
          let n := if neg then - n else n in
          if (- 2 ^ 63 <=? n) && (n <? 2 ^ 63) then Some n else None
      end
  end.

(** [filepath.Ext] *)
Fixpoint extFrom (rev_path : list ascii) (acc : list ascii) : string :=
  match rev_path with
  | [] => ""
  | a :: r =>
      if Ascii.eqb a "/" then ""
      else if Ascii.eqb a "." then string_of_list_ascii (a :: acc)
      else extFrom r (a :: acc)
  end.

Definition Ext (path : string) : string :=
  extFrom (rev (list_ascii_of_string path)) [].

Record LoadOptions := mkLoadOptions { LimitMemory : bool }.

Record RunOptions := mkRunOptions {
  Context : option Z;          (* the timeout of the context *)
  MemoryLimiter : option Z     (* the limit of the memory limiter *)
}.

(** The errors of [program.Run]. *)
Inductive RunError :=
| Panic (msg : string)
| DeadlineExceeded
| OtherError (msg : string).

(** How the process ends: [os.Exit(code)], or a panic that reaches the
    top of [main], which the Go run time turns into exit status 2. *)
Inductive Outcome :=
| Exit (code : Z)
| GoPanic (msg : string).

Definition exitStatus (o : Outcome) : Z :=
  match o with Exit code => code | GoPanic _ => 2 end.

(** The command line after [flag.Parse]. *)
Record CommandLine := mkCommandLine {
  asm : bool;
  timeout : string;
  mem : string;
  args : list string
}.

(** The unit letter of [-mem], upper-cased as [run] does. *)
Definition memUnit (mem : string) : Z :=
  match last_byte mem with
  | Some a => let unit := byte a in
              if 90 <? unit then unit - (122 - 90) else unit
  | None => 0
  end.

Definition isUnitLetter (unit : Z) : bool :=
  (unit =? 66) || (unit =? 75) || (unit =? 77) || (unit =? 71).

(** The digits of [-mem]: the value without its unit letter. *)
Definition memDigits (mem : string) : string :=
  if isUnitLetter (memUnit mem)
  then take (String.length mem - 1) mem else mem.

Definition memScale (unit max : Z) : Z :=
  if unit =? 75 then wrap64 (max * 1024)
  else if unit =? 77 then wrap64 (max * (1024 * 1024))
  else if unit =? 71 then wrap64 (max * (1024 * 1024 * 1024))
  else max.

(** The handling of [-mem]: [None] is the exit with status 1 on an
    invalid value, otherwise whether memory is limited and the limit. *)
Definition memStep (cl : CommandLine) : option (bool * option Z) :=
  if String.eqb (mem cl) "" then Some (false, None)
  else
    let unit := memUnit (mem cl) in
    match Atoi (memDigits (mem cl)) with
    | None => None
    | Some max => Some (true, Some (memScale unit max))
    end.

Section Run.
(** The program type and the calls out of [run]. *)
Variable Program : Type.
Variable ParseDuration : string -> option Z.
Variable Abs : string -> string + string.
Variable ReadFile : string -> string + string.
Variable Load : string -> LoadOptions -> Program + string.
Variable Disassemble : Program -> option string.
Variable Run : Program -> RunOptions -> Z * option RunError.
Variable renderPanics : string -> string.

(** The handling of [-time]: [None] is the exit with status 1 on an
    invalid value, otherwise the context of the run options. *)
Definition timeoutStep (cl : CommandLine) : option (option Z) :=
  if String.eqb (timeout cl) "" then Some None
  else match ParseDuration (timeout cl) with
       | None => None
       | Some d => Some (if d =? 0 then None else Some d)
       end.

(** [run] *)
Definition run (cl : CommandLine) : Outcome :=
  match timeoutStep cl with
  | None => Exit 1
  | Some ctx =>
      match memStep cl with
      | None => Exit 1
      | Some (limit, limiter) =>
          let loadOptions := mkLoadOptions limit in
          let runOptions := mkRunOptions ctx limiter in
          match args cl with
          | [file] =>
              if negb (String.eqb (Ext file) ".go") then Exit 1
              else
                match Abs file with
                | inr _ => Exit 1
                | inl absFile =>
                    match ReadFile absFile with
                    | inr err => GoPanic err
                    | inl main =>
                        match Load main loadOptions with
                        | inr _ => Exit 2
                        | inl program =>
                            if asm cl then
                              match Disassemble program with
                              | Some _ => Exit 2
                              | None => Exit 0
                              end
                            else
                              match Run program runOptions with
                              | (_, Some (Panic p)) => GoPanic (renderPanics p)
                              | (_, Some _) => Exit 2
                              | (code, None) => Exit code
                              end
                        end
                    end
                end
          | _ => Exit 1
          end
      end
  end.
End Run.

(** *** Samples *)

(** A world in which every file loads; [-S] fails on no program, and the
    program run ends as its source text says. *)
Definition sampleParseDuration (s : string) : option Z :=
  if String.eqb s "50ms" then Some 50000000 else None.
Definition sampleAbs (f : string) : string + string := inl ("/work/" +:+ f).
Definition sampleReadFile (f : string) : string + string := inl "exit(3)".
Definition sampleLoad (src : string) (o : LoadOptions) : string + string :=
  inl src.
Definition sampleDisassemble (p : string) : option string := None.
Definition sampleRun (p : string) (o : RunOptions) : Z * option RunError :=
  (3, None).
Definition sampleRenderPanics (p : string) : string := p.

End CLI.

(** ** Package compiler: the [extends] node of a tree *)

Module Extends.
Import Ast.

(** [getExtends]: the [extends] node of [nodes], which only comment and
    text nodes may precede. *)
Fixpoint getExtends (nodes : list Node) : option Node :=
  match nodes with
  | [] => None
  | node :: rest =>
      match node with
      | Comment _ _ | Text _ _ => getExtends rest
      | Extends _ _ => Some node
      | _ => None
      end
  end.

Definition isCommentOrText (n : Node) : bool :=
  match n with Comment _ _ | Text _ _ => true | _ => false end.

Definition isExtends (n : Node) : bool :=
  match n with Extends _ _ => true | _ => false end.

End Extends.

(** ** Package parser: the shape of composite literals *)

Module CompositeLiteral.

Definition noEllipses : Z := -1.

Definition wrapInt (x : Z) : Z := (x + 2 ^ 63) mod 2 ^ 64 - 2 ^ 63.

Definition errIndex : string := "index must be non-negative integer constant".

(** The key of an element, as [maxIndex] sees it after checking and
    converting it: no key, a key that is not a constant, a constant that
    does not convert to [int] (with the error of the conversion), or an
    integer constant. *)
Inductive Key :=
| NoKey
| KeyNotConstant
| KeyNotInt (err : string)
| KeyInt (i : Z).

(** The loop of [maxIndex] over [node.KeyValues]; [inl] is the error it
    panics with. *)
Fixpoint maxIndexLoop (keys : list Key) (maxIndex currentIndex : Z)
  : string + Z :=
  match keys with
  | [] => inr maxIndex
  | kv :: rest =>
      let next : string + Z :=
        match kv with
        | NoKey => inr (wrapInt (currentIndex + 1))
        | KeyNotConstant => inl errIndex
        | KeyNotInt err => inl err
        | KeyInt i => if i <? 0 then inl errIndex else inr i
        end in
      match next with
      | inl e => inl e
      | inr currentIndex =>
          maxIndexLoop rest
            (if maxIndex <? currentIndex then currentIndex else maxIndex)
            currentIndex
      end
  end.

(** [maxIndex]; [isArrayOrSlice] tells whether the type of the literal is
    an array or a slice type. *)
Definition maxIndex (isArrayOrSlice : bool) (keys : list Key) : string + Z :=
  if isArrayOrSlice then maxIndexLoop keys noEllipses (-1) else inr noEllipses.

(** The index that each element of an array or slice literal stands at:
    the one of its key, or one more than the element before it. *)
Fixpoint indicesFrom (keys : list Key) (currentIndex : Z) : list Z :=
  match keys with
  | [] => []
  | kv :: rest =>
      let i := match kv with
               | KeyInt i => i
               | _ => wrapInt (currentIndex + 1)
               end in
      i :: indicesFrom rest i
  end.

Definition indices (keys : list Key) : list Z := indicesFrom keys (-1).

Definition errMixture : string := "mixture of field:value and value initializers".

(** The first loop of the struct case of [checkCompositeLiteral]:
    [declType] is 0 at first, 1 after a keyed element and -1 after an
    element without key; [None] is the error of a mixture.  An element is
    given by whether it has a key. *)
Fixpoint declTypeLoop (keyed : list bool) (declType : Z) : option Z :=
  match keyed with
  | [] => Some declType
  | false :: rest =>
      if declType =? 1 then None else declTypeLoop rest (-1)
  | true :: rest =>
      if declType =? -1 then None else declTypeLoop rest 1
  end.

(** The struct case as far as it depends on the shape of the literal
    only: the mixture, and the number of values of a literal without
    keys against the number of fields. *)
Inductive Shape :=
| ExplicitFields
| ImplicitFields
| EmptyLiteral
| ShapeError (msg : string).

Definition structShape (keyed : list bool) (numField : nat) : Shape :=
  match declTypeLoop keyed 0 with
  | None => ShapeError errMixture
  | Some declType =>
      if declType =? 1 then ExplicitFields
      else if (length keyed =? 0)%nat then EmptyLiteral
      else if (length keyed <? numField)%nat then ShapeError "too few values"
      else if (numField <? length keyed)%nat then ShapeError "too many values"
      else ImplicitFields
  end.

(** The keys that [maxIndex] takes: no key, or a non-negative integer
    constant. *)
Definition goodKey (k : Key) : Prop :=
  match k with
  | NoKey => True
  | KeyInt i => 0 <= i
  | _ => False
  end.

End CompositeLiteral.

(** ** Package parser: the scopes of the type checker *)

Module Scopes.

(** A [*TypeInfo] and the identifier node of a declaration are opaque
    handles. *)
Definition TypeInfo : Type := Z.

Record scopeElement := mkScopeElement { t : TypeInfo; decl : option Z }.

Record scopeVariable := mkScopeVariable {
  ident : string;
  scopeLevel : Z;
  node : option Z
}.

(** The fields of [typechecker] that the scope functions use. *)
Record typechecker := mkTypechecker {
  universe : gmap string scopeElement;
  filePackageBlock : gmap string scopeElement;
  scopes : list (gmap string scopeElement);
  unusedVars : list scopeVariable;
  isScript : bool
}.

Definition setScopes (tc : typechecker) (s : list (gmap string scopeElement))
  : typechecker :=
  mkTypechecker (universe tc) (filePackageBlock tc) s (unusedVars tc)
                (isScript tc).

(** [addScope] *)
Definition addScope (tc : typechecker) : typechecker :=
  setScopes tc (scopes tc ++ [∅]).

(** The loop of [lookupScopes] over the scopes, from the innermost
    ([first] tells that the scope at hand is the current one): the
    element found, or whether the lookup ends without result ([inr true])
    or goes on with the file block ([inr false]). *)
Fixpoint lookupInner (rev_scopes : list (gmap string scopeElement))
    (first : bool) (name : string) (justCurrentScope : bool)
  : scopeElement + bool :=
  match rev_scopes with
  | [] => inr false
  | sc :: below =>
      match sc !! name with
      | Some elem => inl elem
      | None =>
          if justCurrentScope && first then inr true
          else lookupInner below false name justCurrentScope
      end
  end.

(** [lookupScopes] *)
Definition lookupScopes (tc : typechecker) (name : string)
    (justCurrentScope : bool) : option TypeInfo :=
  match lookupInner (rev (scopes tc)) true name justCurrentScope with
  | inl elem => Some (t elem)
  | inr true => None
  | inr false =>
      match filePackageBlock tc !! name with
      | Some elem => Some (t elem)
      | None =>
          match universe tc !! name with
          | Some elem => Some (t elem)
          | None => None
          end
      end
  end.

(** [assignScope]; [None] is the index out of range without scopes. *)
Definition assignScope (tc : typechecker) (name : string) (value : TypeInfo)
    (declNode : option Z) : option typechecker :=
  match rev (scopes tc) with
  | [] => None
  | last :: below =>
      Some (setScopes tc
              (rev below ++ [<[name := mkScopeElement value declNode]> last]))
  end.

(** The loop of [removeCurrentScope] over [unusedVars] from its end:
    [inl] is the variable reported as declared and not used, [inr] what
    is kept of the list (from its end). *)
Fixpoint cutUnused (rev_unused : list scopeVariable) (level : Z)
  : scopeVariable + list scopeVariable :=
  match rev_unused with
  | [] => inr []
  | v :: before =>
      if scopeLevel v <? level then inr rev_unused
      else match node v with
           | Some _ => inl v
           | None => cutUnused before level
           end
  end.

Inductive removed :=
| Removed (tc : typechecker)
| NotUsed (v : scopeVariable)
| OutOfRange.

(** [removeCurrentScope] *)
Definition removeCurrentScope (tc : typechecker) : removed :=
  let unused :=
    if isScript tc then inr (rev (unusedVars tc))
    else cutUnused (rev (unusedVars tc)) (Z.of_nat (length (scopes tc)) - 1) in
  match unused with
  | inl v => NotUsed v
  | inr kept =>
      match rev (scopes tc) with
      | [] => OutOfRange
      | _ :: below =>
          Removed (mkTypechecker (universe tc) (filePackageBlock tc)
                     (rev below) (rev kept) (isScript tc))
      end
  end.

(** A type checker with the name [len] in its universe and one open
    scope that holds [a]. *)
Definition sampleChecker : typechecker :=
  mkTypechecker {["len" := mkScopeElement 1 None]} ∅
                [{["a" := mkScopeElement 2 (Some 10)]}] [] false.

End Scopes.

(** ** Package templates: the initial values of the global variables *)

Module Globals.
Import Reflect.

(** A value passed in [init]: the [nil] interface, or a value with its
    dynamic type; [isNil] tells a nil pointer. *)
Inductive InitValue :=
| NilInterface
| Val (typ : Type_) (isNil : bool) (data : Z).

(** [compiler.Global] with its type; [Value] is [None] for [nil]. *)
Record Global := mkGlobal {
  Pkg : string;
  Name : string;
  Typ : Type_;
  Value : option Z
}.

(** An element of the slice that [initGlobalVariables] returns: the
    predefined value of the global, a pointer to a new zero value of its
    type, a pointer to a new variable set to the initializer, or the
    pointer passed as initializer. *)
Inductive Slot :=
| Predefined (v : Z)
| NewZero (typ : Type_)
| NewCopy (typ : Type_) (data : Z)
| Given (typ : Type_) (data : Z).

Inductive panic :=
| AlreadyInitialized (name : string)
| CannotBeNil (name : string)
| WrongType (name : string) (want have : Type_)
| NilPointer (name : string).

(** The body of the loop for one variable. *)
Definition initOne (init : gmap string InitValue) (variable : Global)
  : panic + Slot :=
  let default :=
    match Value variable with
    | None => NewZero (Typ variable)
    | Some v => Predefined v
    end in
  if String.eqb (Pkg variable) "main" then
    match init !! Name variable with
    | None => inr default
    | Some value =>
        match Value variable with
        | Some _ => inl (AlreadyInitialized (Name variable))
        | None =>
            match value with
            | NilInterface => inl (CannotBeNil (Name variable))
            | Val typ isNil data =>
                if Type_eqb typ (Typ variable) then inr (NewCopy typ data)
                else
                  match typ with
                  | TPtr elem =>
                      if Type_eqb elem (Typ variable) then
                        if isNil then inl (NilPointer (Name variable))
                        else inr (Given typ data)
                      else inl (WrongType (Name variable) (Typ variable) typ)
                  | _ => inl (WrongType (Name variable) (Typ variable) typ)
                  end
            end
        end
    end
  else inr default.

(** The loop over the variables: stops at the first panic. *)
Fixpoint initAll (init : gmap string InitValue) (variables : list Global)
  : panic + list Slot :=
  match variables with
  | [] => inr []
  | variable :: rest =>
      match initOne init variable with
      | inl p => inl p
      | inr slot =>
          match initAll init rest with
          | inl p => inl p
          | inr slots => inr (slot :: slots)
          end
      end
  end.

(** [initGlobalVariables]; a [nil] map [init] is [None]. *)
Definition initGlobalVariables (variables : list Global)
    (init : option (gmap string InitValue)) : panic + list Slot :=
  match variables with
  | [] => inr []
  | _ =>
      initAll (match init with Some m => m | None => ∅ end) variables
  end.

(** The value of a global that [init] does not set. *)
Definition defaultSlot (variable : Global) : Slot :=
  match Value variable with
  | None => NewZero (Typ variable)
  | Some v => Predefined v
  end.

(** What [initGlobalVariables] asks of the initializer of a global: the
    global is not predefined, and the initializer is a value of the type
    of the global or a pointer to it that is not nil. *)
Definition fits (variable : Global) (value : InitValue) : Prop :=
  Value variable = None
  /\ exists typ isNil data,
       value = Val typ isNil data
       /\ (typ = Typ variable \/ (typ = TPtr (Typ variable) /\ isNil = false)).

Definition wellInitialized (init : gmap string InitValue) (variable : Global)
  : Prop :=
  Pkg variable = "main" ->
  forall value, init !! Name variable = Some value -> fits variable value.

(** Sample globals: [main.title] of type [string], and [fmt.debug],
    predefined. *)
Definition sampleGlobals : list Global :=
  [mkGlobal "main" "title" (TBasic KString) None;
   mkGlobal "fmt" "debug" (TBasic KBool) (Some 1)].

Definition sampleInit : gmap string InitValue :=
  {["title" := Val (TBasic KString) false 42]}.

(** The initializers [initGlobalVariables] reads: a nil map holds
    none. *)
Definition initOf (init : option (gmap string InitValue))
  : gmap string InitValue :=
  match init with Some m => m | None => ∅ end.

End Globals.

(** ** Package vm: the address of a jump *)

Module VMAddr.

Definition uint8 (x : Z) : Z := x mod 256.

(** [decodeAddr]: the three operands of an instruction, of type [int8],
    read as the bytes of an address. *)
Definition decodeAddr (a b c : Z) : Z :=
  Z.lor (Z.lor (uint8 a) (Z.shiftl (uint8 b) 8)) (Z.shiftl (uint8 c) 16).

End VMAddr.

(** ** Package parser: absolute paths *)

Module AbsPath.
Import GoString.

Inductive result :=
| Ok (path : string)
| Invalid          (* the error "template: invalid path" *)
| Crash            (* a run-time panic: index or slice out of range *)
| OutOfFuel.

Definition slash : ascii := "/".
Definition dot : ascii := ".".

(** [b[i]] for an index of type [int]. *)
Definition at_ (b : list ascii) (i : Z) : option ascii :=
  if i <? 0 then None else b !! Z.to_nat i.

(** [bytes.LastIndexByte(b, '/')] *)
Fixpoint lastSlash (b : list ascii) : Z :=
  match b with
  | [] => -1
  | x :: r =>
      let i := lastSlash r in
      if 0 <=? i then i + 1 else if Ascii.eqb x slash then 0 else -1
  end.

(** Whether [b[i+1] == '.' && b[i+2] == '.'], [None] when an index is
    out of range. *)
Definition parentAt (b : list ascii) (i : Z) : option bool :=
  match at_ b (i + 1) with
  | None => None
  | Some x =>
      if Ascii.eqb x dot then
        match at_ b (i + 2) with
        | None => None
        | Some y => Some (Ascii.eqb y dot)
        end
      else Some false
  end.

(** The loop of [toAbsolutePath] on the bytes [b] from index [i]; every
    turn either moves on or shortens [b]. *)
Fixpoint resolve (fuel : nat) (b : list ascii) (i : Z) : result :=
  match fuel with
  | O => OutOfFuel
  | S fuel' =>
      if Z.of_nat (length b) <=? i then Ok (string_of_list_ascii b)
      else
        match at_ b i with
        | None => Crash
        | Some x =>
            if Ascii.eqb x slash then
              match parentAt b i with
              | None => Crash
              | Some false => resolve fuel' b (i + 1)
              | Some true =>
                  if i =? 0 then Invalid
                  else if Z.of_nat (length b) <? i + 4 then Crash
                  else
                    let s := lastSlash (List.firstn (Z.to_nat i) b) in
                    let b' := (List.firstn (Z.to_nat (s + 1)) b
                               ++ List.skipn (Z.to_nat (i + 4)) b)%list in
                    resolve fuel' b' (s - 1 + 1)
              end
            else resolve fuel' b (i + 1)
        end
  end.

(** [toAbsolutePath] *)
Definition toAbsolutePath (fuel : nat) (dir path : string) : result :=
  if negb (Contains path "..") then Ok (dir +:+ path)
  else resolve fuel (list_ascii_of_string (dir +:+ path)) 0.

(** A number of turns that is enough for [n] bytes. *)
Definition enoughFuel (n : nat) : nat := S ((S n) * (S n)).


(** The slash at index [j] of [b], if there is one, is followed by a
    byte and does not start a parent segment. *)
Definition noParentAt (b : list ascii) (j : Z) : Prop :=
  at_ b j = Some slash -> parentAt b j = Some false.

Definition resolved (s : string) : Prop :=
  forall j, noParentAt (list_ascii_of_string s) j.

End AbsPath.

(** ** The command-line driver: the message of a chain of panics *)

Module Panics.

(** [*runtime.Panic]: its message, whether it has been recovered; the
    chain through [Next] is a list. *)
Record Panic := mkPanic { String_ : string; Recovered : bool }.

Definition nl : string := String (ascii_of_nat 10) "".
Definition tab : string := String (ascii_of_nat 9) "".

(** The loop of [renderPanics]. *)
Fixpoint renderLoop (chain : list Panic) (msg : string) : string :=
  match chain with
  | [] => msg
  | p :: next =>
      let msg := nl +:+ msg in
      let msg := if Recovered p then " [recovered]" +:+ msg else msg in
      let msg := String_ p +:+ msg in
      let msg := match next with
                 | [] => msg
                 | _ => tab +:+ "panic: " +:+ msg
                 end in
      renderLoop next msg
  end.

(** [renderPanics] *)
Definition renderPanics (chain : list Panic) : string := renderLoop chain "".

(** The line of one panic. *)
Definition line (p : Panic) : string :=
  String_ p +:+ (if Recovered p then " [recovered]" else "") +:+ nl.

(** The message in one piece: the last panic of the chain first, then the
    ones before it from the last to the first, each after
    ["\tpanic: "]. *)
Definition panicLines (chain : list Panic) : string :=
  match rev chain with
  | [] => ""
  | last :: before =>
      line last
      +:+ fold_right (fun p s => tab +:+ "panic: " +:+ line p +:+ s) "" before
  end.

End Panics.

(** ** Package template: the errors of a rendering *)

Module TemplateErrors.
Import Renderer.

(** The function that [render] of package template passes as
    [handleError]: a [*RenderError] is collected and rendering goes on,
    any other error stops it. *)
Definition collect (e : error) : bool :=
  match e with
  | Error_ _ _ _ => true
  | _ => false
  end.

(** [RenderErrors.Error] on the messages of the errors. *)
Fixpoint joinFrom (s : string) (ee : list string) : string :=
  match ee with
  | [] => s
  | e :: rest =>
      let s := if String.eqb s "" then s else s +:+ Panics.nl in
      joinFrom (s +:+ e) rest
  end.

Definition Error (ee : list string) : string := joinFrom "" ee.


(** A rendering with the handler of package template and no variables. *)
Definition collectingRendering : rendering :=
  mkRendering ∅ "/index.html" [None; None] Ast.ContextHTML collect.

End TemplateErrors.

(** * Theorems *)

Local Open Scope list_scope.

(** ** Paths *)

Section PathFacts.
Import GoString Utf8 Strings Path.
Variable unicodeToLower : Z -> Z.

(** What [isFileName] does enforce: the length of the name in runes and
    the dots at its two ends. *)
Lemma isFileName_length_and_dots (name : string) :
  isFileName unicodeToLower name = true ->
  3 <= RuneCountInString name <= 255
  /\ is_byte (first_byte name) "." = false
  /\ is_byte (last_byte name) "." = false.
Proof.
  unfold isFileName.
  destruct (RuneCountInString name <=? 2) eqn:Hlo; simpl; [discriminate|].
  destruct (256 <=? RuneCountInString name) eqn:Hhi; simpl; [discriminate|].
  destruct (is_byte (first_byte name) ".") eqn:Hf; simpl; [discriminate|].
  destruct (is_byte (last_byte name) ".") eqn:Hl; simpl; [discriminate|].
  intros _. apply Z.leb_gt in Hlo. apply Z.leb_gt in Hhi. repeat split; lia.
Qed.

(** A valid path has a last segment accepted by [isFileName]. *)
Lemma IsPath_last_is_file_name (path : string) :
  IsPath unicodeToLower path = true ->
  isFileName unicodeToLower (List.last (Split path "/") "") = true.
Proof.
  unfold IsPath.
  destruct (String.eqb path "" || is_byte (last_byte path) "/"); [discriminate|].
  destruct (dirsOk 0 (removelast (Split path "/"))); [tauto|discriminate].
Qed.

(** C4: the file name "abc" has no extension, yet the path "abc" is
    accepted by [IsPath]: the test after the comment "Extension must be
    present" looks for a dot after the last dot, and finds none also
    when the name has no dot at all. *)
Theorem IsPath_accepts_name_without_extension :
  IsPath unicodeToLower "abc" = true
  /\ hasExtension "abc" = false
  /\ fileNameRule "abc" = false.
Proof. repeat split; vm_compute; reflexivity. Qed.

End PathFacts.

(** ** Sorting of Go strings *)

Section StringOrder.
Import GoString.

Lemma ltb_asym (a : string) : forall b, ltb a b = true -> ltb b a = false.
Proof.
  induction a as [|x a IH]; intros [|y b]; simpl; try congruence.
  destruct (Z.ltb_spec (byte x) (byte y)), (Z.ltb_spec (byte y) (byte x));
    try lia; try congruence.
  apply IH.
Qed.

Lemma ltb_cotrans (c : string) :
  forall a b, ltb c a = true -> ltb c b = true \/ ltb b a = true.
Proof.
  induction c as [|z c IH]; intros [|x a] [|y b]; simpl; try congruence; auto.
  destruct (Z.ltb_spec (byte z) (byte x)), (Z.ltb_spec (byte x) (byte z)),
      (Z.ltb_spec (byte z) (byte y)), (Z.ltb_spec (byte y) (byte z)),
      (Z.ltb_spec (byte y) (byte x)), (Z.ltb_spec (byte x) (byte y));
      try lia; try congruence; auto.
Qed.

Lemma leb_total (a b : string) : leb a b = false -> leb b a = true.
Proof.
  unfold leb. intros H. apply negb_false_iff in H.
  now rewrite (ltb_asym _ _ H).
Qed.

Lemma leb_trans (a b c : string) :
  leb a b = true -> leb b c = true -> leb a c = true.
Proof.
  unfold leb. rewrite !negb_true_iff. intros Hab Hbc.
  destruct (ltb c a) eqn:Hca; [|reflexivity].
  destruct (ltb_cotrans _ _ b Hca); congruence.
Qed.

End StringOrder.

(** ** [Template.UsedVars] *)

Section UsedVarsFacts.
Import GoString Templates.

Lemma insertString_perm (x : string) (l : list string) :
  Permutation (x :: l) (insertString x l).
Proof.
  induction l as [|y l IH]; simpl; [reflexivity|].
  destruct (leb x y); [reflexivity|].
  rewrite perm_swap. now apply perm_skip.
Qed.

Lemma sortStrings_perm (l : list string) : Permutation l (sortStrings l).
Proof.
  induction l as [|x l IH]; simpl; [reflexivity|].
  rewrite <- insertString_perm. now apply perm_skip.
Qed.

Lemma insertString_sorted (x : string) (l : list string) :
  sortedStrings l -> sortedStrings (insertString x l).
Proof.
  unfold sortedStrings.
  induction l as [|y l IH]; simpl; intros Hs.
  - repeat constructor.
  - inversion Hs as [|? ? Hl Hy]; subst.
    destruct (leb x y) eqn:Hxy.
    + constructor; [assumption|].
      constructor; [assumption|].
      eapply Forall_impl; [exact Hy|].
      intros z Hz. simpl in Hz. eapply leb_trans; eassumption.
    + constructor; [now apply IH|].
      eapply Permutation_Forall; [apply insertString_perm|].
      constructor; [now apply leb_total|assumption].
Qed.

Lemma sortStrings_sorted (l : list string) : sortedStrings (sortStrings l).
Proof.
  induction l as [|x l IH]; simpl; [constructor|].
  now apply insertString_sorted.
Qed.

(** The loop writes the name of the [i]-th global at index [i]. *)
Lemma fillNames_spec (gs : list Global) :
  forall (done : list string) (rest : list string),
    length rest = length gs ->
    fillNames (length done) gs (done ++ rest) = done ++ map Name gs.
Proof.
  induction gs as [|g gs IH]; intros done rest Hlen; simpl.
  - destruct rest; [reflexivity|discriminate].
  - destruct rest as [|r rest]; [discriminate|].
    simpl in Hlen.
    replace (<[length done := Name g]> (done ++ r :: rest))
      with ((done ++ [Name g]) ++ rest).
    + replace (S (length done)) with (length (done ++ [Name g])).
      * rewrite IH by lia. now rewrite <- app_assoc.
      * rewrite length_app. simpl. lia.
    + rewrite <- app_assoc. simpl.
      rewrite insert_app_r_alt by lia.
      now rewrite Nat.sub_diag.
Qed.

Lemma fillNames_all (gs : list Global) :
  fillNames 0 gs (replicate (length gs) "") = map Name gs.
Proof.
  apply (fillNames_spec gs [] (replicate (length gs) "")).
  apply length_replicate.
Qed.

(** C10: [UsedVars] returns the names of the globals, one per global,
    in increasing byte-wise order, and leaves the template as it was;
    it is a total function. *)
Theorem UsedVars_sorted_names (t : Template) :
  let '(vars, t') := UsedVars t in
  Permutation (map Name (globals t)) vars
  /\ length vars = length (globals t)
  /\ sortedStrings vars
  /\ t' = t.
Proof.
  unfold UsedVars. rewrite fillNames_all.
  repeat split.
  - apply sortStrings_perm.
  - rewrite <- (Permutation_length (sortStrings_perm _)). apply length_map.
  - apply sortStrings_sorted.
Qed.

End UsedVarsFacts.

(** ** Calls, returns and tail calls of the VM *)

Section VMFrame.
Import VM.

Ltac frame :=
  intros;
  repeat match goal with
         | vm : VM |- _ =>
             destruct vm as [? ? [[[? ?] ?] ?] [[[? ?] ?] ?] ? ? ? ? ?]
         end;
  unfold growInt, growFloat, growString, growGeneral, addFp0, addFp2, addFp3,
    moreIntStack, moreFloatStack, moreStringStack, moreGeneralStack,
    setFn, setCalls, setFp, setCvars, grown, need, bank0, bank1, bank2, bank3;
  cbn [fn cvars fp st calls fst snd];
  repeat match goal with
         | |- context [if ?c then _ else _] => destruct c
         end;
  reflexivity.

Lemma growInt_frame fd vm :
  fn (growInt fd vm) = fn vm /\ cvars (growInt fd vm) = cvars vm
  /\ fp (growInt fd vm) = fp vm /\ calls (growInt fd vm) = calls vm
  /\ st (growInt fd vm) =
       (grown (bank0 (st vm)) (need bank0 fd vm), bank1 (st vm),
        bank2 (st vm), bank3 (st vm)).
Proof. repeat split; frame. Qed.

Lemma growFloat_frame fd vm :
  fn (growFloat fd vm) = fn vm /\ cvars (growFloat fd vm) = cvars vm
  /\ fp (growFloat fd vm) = fp vm /\ calls (growFloat fd vm) = calls vm
  /\ st (growFloat fd vm) =
       (bank0 (st vm), grown (bank1 (st vm)) (need bank1 fd vm),
        bank2 (st vm), bank3 (st vm)).
Proof. repeat split; frame. Qed.

Lemma growString_frame fd vm :
  fn (growString fd vm) = fn vm /\ cvars (growString fd vm) = cvars vm
  /\ fp (growString fd vm) = fp vm /\ calls (growString fd vm) = calls vm
  /\ st (growString fd vm) =
       (bank0 (st vm), bank1 (st vm),
        grown (bank2 (st vm)) (need bank2 fd vm), bank3 (st vm)).
Proof. repeat split; frame. Qed.

Lemma growGeneral_frame fd vm :
  fn (growGeneral fd vm) = fn vm /\ cvars (growGeneral fd vm) = cvars vm
  /\ fp (growGeneral fd vm) = fp vm /\ calls (growGeneral fd vm) = calls vm
  /\ st (growGeneral fd vm) =
       (bank0 (st vm), bank1 (st vm), bank2 (st vm),
        grown (bank3 (st vm)) (need bank3 fd vm)).
Proof. repeat split; frame. Qed.

Lemma addFp0_frame vm d :
  fn (addFp0 vm d) = fn vm /\ cvars (addFp0 vm d) = cvars vm
  /\ st (addFp0 vm d) = st vm /\ calls (addFp0 vm d) = calls vm
  /\ fp (addFp0 vm d) =
       (wrap32 (bank0 (fp vm) + wrap32 d), bank1 (fp vm), bank2 (fp vm),
        bank3 (fp vm)).
Proof. repeat split; frame. Qed.

Lemma addFp2_frame vm d :
  fn (addFp2 vm d) = fn vm /\ cvars (addFp2 vm d) = cvars vm
  /\ st (addFp2 vm d) = st vm /\ calls (addFp2 vm d) = calls vm
  /\ fp (addFp2 vm d) =
       (bank0 (fp vm), bank1 (fp vm), wrap32 (bank2 (fp vm) + wrap32 d),
        bank3 (fp vm)).
Proof. repeat split; frame. Qed.

Lemma addFp3_frame vm d :
  fn (addFp3 vm d) = fn vm /\ cvars (addFp3 vm d) = cvars vm
  /\ st (addFp3 vm d) = st vm /\ calls (addFp3 vm d) = calls vm
  /\ fp (addFp3 vm d) =
       (bank0 (fp vm), bank1 (fp vm), bank2 (fp vm),
        wrap32 (bank3 (fp vm) + wrap32 d)).
Proof. repeat split; frame. Qed.

Lemma enterFrame_frame opNum off fd vm :
  let vm' := enterFrame opNum off fd vm in
  fn vm' = fn vm /\ cvars vm' = cvars vm /\ calls vm' = calls vm
  /\ bank0 (fp vm') = wrap32 (bank0 (fp vm) + wrap32 (opNum (op off)))
  /\ bank2 (fp vm') = wrap32 (bank2 (fp vm) + wrap32 (VM.b off))
  /\ bank3 (fp vm') = wrap32 (bank3 (fp vm) + wrap32 (VM.c off))
  /\ bank0 (st vm') = grown (bank0 (st vm)) (need bank0 fd vm')
  /\ bank1 (st vm') = grown (bank1 (st vm)) (need bank1 fd vm')
  /\ bank2 (st vm') = grown (bank2 (st vm)) (need bank2 fd vm')
  /\ bank3 (st vm') = grown (bank3 (st vm)) (need bank3 fd vm').
Proof.
  unfold enterFrame, need.
  set (v1 := addFp0 vm _). set (v2 := growInt fd v1).
  set (v3 := growFloat fd v2). set (v4 := addFp2 v3 _).
  set (v5 := growString fd v4). set (v6 := addFp3 v5 _).
  destruct (addFp0_frame vm (opNum (op off))) as (A1 & A2 & A3 & A4 & A5).
  destruct (growInt_frame fd v1) as (B1 & B2 & B3 & B4 & B5).
  destruct (growFloat_frame fd v2) as (K1 & K2 & K3 & K4 & K5).
  destruct (addFp2_frame v3 (VM.b off)) as (D1 & D2 & D3 & D4 & D5).
  destruct (growString_frame fd v4) as (E1 & E2 & E3 & E4 & E5).
  destruct (addFp3_frame v5 (VM.c off)) as (F1 & F2 & F3 & F4 & F5).
  destruct (growGeneral_frame fd v6) as (G1 & G2 & G3 & G4 & G5).
  fold v1 in A1, A2, A3, A4, A5. fold v2 in B1, B2, B3, B4, B5.
  fold v3 in K1, K2, K3, K4, K5. fold v4 in D1, D2, D3, D4, D5.
  fold v5 in E1, E2, E3, E4, E5. fold v6 in F1, F2, F3, F4, F5.
  cbv zeta. unfold need in *.
  rewrite G1, G2, G3, G4, G5, F1, F2, F3, F4, F5, E1, E2, E3, E4, E5,
    D1, D2, D3, D4, D5, K1, K2, K3, K4, K5, B1, B2, B3, B4, B5,
    A1, A2, A3, A4, A5.
  unfold bank0, bank1, bank2, bank3; cbn [fst snd].
  repeat split.
Qed.


End VMFrame.

Section VMFacts.
Import VM.
Variable prog : Program.
Variable opNum : operation -> Z.
Variable general : VM -> Z -> Value.
Variable execOther : instruction -> VM -> Z -> StepResult.

Lemma callee_frame (vm vm1 : VM) (a b : Z) (f : nat) (fd : Function) :
  callee prog general vm a b = Some (vm1, f, fd) ->
  funcs prog !! f = Some fd /\ exists cv, vm1 = setCvars vm cv.
Proof.
  unfold callee. intros Hc.
  repeat match type of Hc with
         | (if ?c then _ else _) = _ => destruct c
         | match ?x with _ => _ end = _ => destruct x eqn:?
         end; try discriminate; inversion Hc; subst; eauto.
Qed.

Lemma lastNonTail_skips (tails rest : list Call) :
  Forall isTail tails -> lastNonTail (tails ++ rest) = lastNonTail rest.
Proof.
  induction 1 as [|c tails Hc _ IH]; simpl; [reflexivity|].
  unfold isTail in Hc. now rewrite Hc.
Qed.

Lemma lastNonTail_found (below tails : list Call) (call : Call) :
  call_tail call = false -> Forall isTail tails ->
  lastNonTail (rev (below ++ call :: tails)) = Some (call, below).
Proof.
  intros Hcall Htails.
  rewrite rev_app_distr. simpl. rewrite <- app_assoc.
  rewrite lastNonTail_skips by now apply Forall_rev.
  simpl. rewrite Hcall. now rewrite rev_involutive.
Qed.

Lemma step_call_eq (vm vm1 : VM) (pc a b c0 : Z) (cur fd : Function)
    (off : instruction) (f : nat) :
  funcs prog !! fn vm = Some cur ->
  body cur !! Z.to_nat pc = Some (mkInstr opCall a b c0) ->
  body cur !! Z.to_nat (wrap32 (pc + 1)) = Some off ->
  callee prog general vm a b = Some (vm1, f, fd) ->
  step prog opNum general execOther vm pc =
    Next (setCalls (setFn (enterFrame opNum off fd vm1) f)
            (calls (enterFrame opNum off fd vm1) ++ [returnRecord vm pc])) 0.
Proof.
  intros Hcur Hin Hoff Hcallee.
  unfold step. rewrite Hcur, Hin. cbn [op VM.a VM.b].
  unfold execCall. rewrite Hcur, Hoff, Hcallee. reflexivity.
Qed.


(** A return with an empty call stack ends [run]. *)
Lemma step_return_empty (vm : VM) (pc a b c0 : Z) (cur : Function) :
  funcs prog !! fn vm = Some cur ->
  body cur !! Z.to_nat pc = Some (mkInstr opReturn a b c0) ->
  calls vm = [] ->
  step prog opNum general execOther vm pc = Halt maxInt8 vm.
Proof.
  intros Hcur Hin Hcalls. unfold step, execReturn.
  rewrite Hcur, Hin. cbn [op]. now rewrite Hcalls.
Qed.


End VMFacts.



(** ** Template files as packages *)

Section TemplatePackageFacts.
Import GoString Strings Ast Checker.

Lemma len_zero (s : string) : (len s =? 0) = String.eqb s "".
Proof. destruct s; reflexivity. Qed.

(** The [switch] of the source sorts the nodes as the specification
    does. *)
Lemma classify_spec (n : Node) :
  classify n =
    if isDeclarationNode n then Declaration
    else if isSilentlyDropped n then Dropped else Rejected.
Proof.
  destruct n; simpl; try reflexivity.
  unfold whitespaceOnly. rewrite len_zero. now destruct (String.eqb _ _).
Qed.

Lemma collect_allowed (nodes : list Node) :
  forall acc,
    Forall (fun n => isAllowed n = true) nodes ->
    collect nodes acc = inl (acc ++ List.filter isDeclarationNode nodes).
Proof.
  induction nodes as [|n nodes IH]; intros acc Hall; simpl.
  - now rewrite app_nil_r.
  - inversion Hall as [|? ? Hn Hrest]; subst.
    rewrite classify_spec. unfold isAllowed in Hn.
    destruct (isDeclarationNode n); simpl in *.
    + rewrite IH by assumption. now rewrite <- app_assoc.
    + rewrite Hn. now apply IH.
Qed.

Lemma collect_rejected (pre post : list Node) (n : Node) :
  forall acc,
    Forall (fun n => isAllowed n = true) pre ->
    isAllowed n = false ->
    collect (pre ++ n :: post) acc = inr n.
Proof.
  induction pre as [|m pre IH]; intros acc Hpre Hn; simpl.
  - rewrite classify_spec. unfold isAllowed in Hn.
    apply orb_false_iff in Hn as [-> ->]. reflexivity.
  - inversion Hpre as [|? ? Hm Hrest]; subst.
    rewrite classify_spec. unfold isAllowed in Hm.
    destruct (isDeclarationNode m); simpl in *.
    + now apply IH.
    + rewrite Hm. now apply IH.
Qed.

(** C5: when a tree that is not yet a package is converted, and all its
    top-level nodes are declarations, comments or blank text, the tree
    becomes one package whose declarations are the macro, var, type,
    const, import and extends nodes in their order, with no error;
    otherwise the first other node is reported with the error of
    template declarations. *)
Theorem templatePageToPackage_spec (tc_path path : string) (tree : Tree) :
  isPackageTree tree = false ->
  (Forall (fun n => isAllowed n = true) (Nodes tree) ->
   templatePageToPackage tc_path tree path = (tc_path, packageOf tree, None))
  /\ (forall pre n post,
        Nodes tree = pre ++ n :: post ->
        Forall (fun n => isAllowed n = true) pre ->
        isAllowed n = false ->
        exists e,
          templatePageToPackage tc_path tree path = (path, tree, Some e)
          /\ e = checkError path (Pos n) errTemplateDeclarations
          /\ message e =
               "template declarations can only contain extends, import or declaration statements").
Proof.
  intros Hpkg. unfold templatePageToPackage. rewrite Hpkg. split.
  - intros Hall. now rewrite (collect_allowed _ [] Hall).
  - intros pre n post Hnodes Hpre Hn.
    rewrite Hnodes, (collect_rejected pre post n [] Hpre Hn).
    eexists. split; [reflexivity|]. split; [reflexivity|].
    unfold checkError. now destruct (Pos n).
Qed.

(** A tree that is already a package is left as it is. *)
Lemma templatePageToPackage_package (tc_path path : string) (tree : Tree) :
  isPackageTree tree = true ->
  templatePageToPackage tc_path tree path = (tc_path, tree, None).
Proof. intros H. unfold templatePageToPackage. now rewrite H. Qed.

End TemplatePackageFacts.

(** C5 on the sample trees: the comment and the blank text are dropped,
    the macro and the variable are kept. *)
Lemma templatePageToPackage_spec_witness :
  Checker.templatePageToPackage "/index.html" Checker.sampleTree "/lib.html"
  = ("/index.html",
     Ast.mkTree "/lib.html" None
       [Ast.Package None "" [Ast.Macro None "M" []; Ast.Var None "var a = 1"]],
     None).
Proof.
  apply (proj1 (templatePageToPackage_spec "/index.html" "/lib.html"
                  Checker.sampleTree eq_refl)).
  repeat constructor.
Defined.

(** ** The operand of [show] *)

Section ShowFacts.
Import GoString Ast Reflect Checker.
Variable printedAsJavaScript : Type_ -> option string.
Variable typeString : typeInfo -> string.

Lemma kind_string (k : Kind) : Kind_eqb k KString = isStringKind k.
Proof. now destruct k. Qed.

Lemma kind_bool_to_complex (k : Kind) :
  kindBetween KBool k KComplex128 = isNumericKind k || isBoolKind k.
Proof. now destruct k. Qed.

Lemma kind_int_to_float (k : Kind) :
  kindBetween KInt k KFloat64 = isNumericKind k && negb (isComplexKind k).
Proof. now destruct k. Qed.

Lemma HasPrefix_app (p s : string) : HasPrefix (p +:+ s) p = true.
Proof.
  induction p as [|a p IH]; simpl; [now destruct s|].
  now rewrite Ascii.eqb_refl.
Qed.

Lemma message_checkError (path : string) (pos : option Position) (msg : string) :
  message (checkError path pos msg) = msg.
Proof. now destruct pos. Qed.

(** C1, as amended: for an operand that is not the untyped nil, in each
    of the nine tested contexts the checker accepts the operand exactly
    when [accepts] holds of its type, and every refusal is a "cannot
    print" error; the untyped nil is refused in every context. *)
Theorem checkShow_accepts (path expr : string) (pos : option Position)
    (ctx : Context) (ti : typeInfo) :
  IsNil ti = false ->
  testedContext ctx = true ->
  (checkShow printedAsJavaScript typeString path pos expr ctx ti = None
   <-> accepts printedAsJavaScript ctx (Typ ti) = true)
  /\ (forall e,
        checkShow printedAsJavaScript typeString path pos expr ctx ti = Some e ->
        HasPrefix (message e) "cannot print " = true).
Proof.
  intros Hnil Hctx. unfold checkShow. rewrite Hnil.
  split.
  - unfold accepts, textOperand.
    destruct ctx; try discriminate; cbn [Context_eqb andb];
      rewrite ?kind_string, ?kind_bool_to_complex, ?kind_int_to_float;
      destruct (isStringKind (Kind_of (Typ ti)));
      destruct (isNumericKind (Kind_of (Typ ti)));
      destruct (isBoolKind (Kind_of (Typ ti)));
      destruct (isComplexKind (Kind_of (Typ ti)));
      destruct (Type_eqb (Typ ti) emptyInterfaceType);
      destruct (Type_eqb (Typ ti) byteSliceType);
      destruct (Implements (Typ ti) stringerType);
      destruct (Implements (Typ ti) htmlStringerType);
      destruct (Implements (Typ ti) cssStringerType);
      destruct (printedAsJavaScript (Typ ti));
      cbn; split; congruence.
  - intros e.
    destruct ctx; try discriminate; cbn [Context_eqb andb];
      repeat match goal with
             | |- context [if ?c then _ else _] => destruct c
             | |- context [match ?c with Some _ => _ | None => _ end] =>
                 destruct c
             end;
      intros He; inversion He; subst; rewrite message_checkError;
      unfold cannotPrint; apply HasPrefix_app.
Qed.

Lemma checkShow_nil (path expr : string) (pos : option Position)
    (ctx : Context) (ti : typeInfo) :
  IsNil ti = true ->
  checkShow printedAsJavaScript typeString path pos expr ctx ti
  = Some (checkError path pos "use of untyped nil").
Proof. intros H. unfold checkShow. now rewrite H. Qed.

End ShowFacts.

(** C1, counterexample: a [bool] operand is accepted in text context,
    although [bool] is not a string, not a numeric kind, not the empty
    interface and has no [String] method; and a [complex128] operand, of
    a numeric kind, is refused in CSS context. *)
Lemma show_bool_accepted_complex_refused :
  Checker.checkShow Checker.sampleJS Checker.sampleTypeString "/index.html" None
    "b" Ast.ContextText Checker.boolOperand = None
  /\ Checker.textOperand (Checker.Typ Checker.boolOperand) = false
  /\ Checker.isNumericKind (Reflect.Kind_of (Checker.Typ Checker.complexOperand)) = true
  /\ Checker.checkShow Checker.sampleJS Checker.sampleTypeString "/index.html" None
       "c" Ast.ContextCSS Checker.complexOperand
     = Some (Checker.PlainError "cannot print c (type T cannot be printed as CSS)").
Proof. repeat split; reflexivity. Qed.

(** C1 on a sample: a value of a type with an [HTML] method is accepted
    in HTML context. *)
Lemma checkShow_accepts_witness :
  Checker.checkShow Checker.sampleJS Checker.sampleTypeString "/index.html" None
    "s" Ast.ContextHTML Checker.htmlOperand = None.
Proof.
  apply (proj2 (proj1 (checkShow_accepts Checker.sampleJS Checker.sampleTypeString
                         "/index.html" "s" None Ast.ContextHTML
                         Checker.htmlOperand eq_refl eq_refl))).
  reflexivity.
Defined.

(** ** Constant expressions *)

Section ConstEvalFacts.
Import ConstEval.

Lemma Sign_zero (n : Value) : Sign n = 0 <-> toQ n == 0%Q.
Proof.
  destruct n as [z|[qn qd]]; unfold Qeq; simpl.
  - destruct z; simpl; lia.
  - destruct qn; simpl; lia.
Qed.


End ConstEvalFacts.



(** ** Conversions of format types *)

Section FormatTypeFacts.
Import FormatTypes.

Lemma Format_eqb_eq (f g : Format) : Format_eqb f g = true <-> f = g.
Proof. destruct f, g; simpl; split; congruence. Qed.

(** C2: an untyped string constant converts to every format type; a
    value of type [string] does not, and the conversion is the compile
    error "cannot convert s (type string) to type ..."; a value of a
    format type converts to [string] by an explicit conversion, and is
    not a [string] without one; a value of a format type converts to
    its own type, and to no other format type. *)
Theorem format_type_conversions (f g : Format) :
  convertible UntypedString (TyFormat f) = true
  /\ convertible (Typed TyString) (TyFormat f) = false
  /\ checkConversion "s" (Typed TyString) (TyFormat f)
     = Some ("cannot convert s (type string) to type compiler." +:+ formatName f)
  /\ convertible (Typed (TyFormat f)) TyString = true
  /\ checkConversion "s" (Typed (TyFormat f)) TyString = None
  /\ assignable (Typed (TyFormat f)) TyString = false
  /\ assignable (Typed TyString) (TyFormat f) = false
  /\ convertible (Typed (TyFormat f)) (TyFormat f) = true
  /\ (convertible (Typed (TyFormat f)) (TyFormat g) = true <-> f = g).
Proof.
  repeat split; try reflexivity.
  - now destruct f.
  - simpl. apply Format_eqb_eq.
  - simpl. apply Format_eqb_eq.
Qed.

End FormatTypeFacts.

(** ** The URL state of the renderer *)

Section UrlStateFacts.
Import GoString Ast Renderer.

Lemma take_length (s : string) : take (String.length s) s = s.
Proof. induction s as [|a s IH]; simpl; [reflexivity|]. now rewrite IH. Qed.

Lemma append_assoc (a b c : string) : (a +:+ b) +:+ c = a +:+ (b +:+ c).
Proof.
induction a as [|x a IH]; [reflexivity|].
change (String x ((a +:+ b) +:+ c) = String x (a +:+ (b +:+ c))).
now rewrite IH.
Qed.

Lemma len_pos (s : string) : s <> "" -> 0 < len s.
Proof. destruct s; [congruence|]. unfold len. simpl. lia. Qed.

Lemma urlText_state (u : urlState) (text : string) :
  let '(u', rest, amp) := urlText u text in
  u' = afterText u text rest.
Proof.
  unfold urlText, afterText.
  destruct u as [p q s a]; simpl.
  destruct q; [reflexivity|].
  destruct (containsQueryOrFragment text); simpl;
    destruct s; simpl; try reflexivity;
    match goal with
    | |- context [0 <=? IndexByte ?t ","] => destruct (0 <=? IndexByte t ",")
    end; reflexivity.
Qed.

(** C8, as amended: literal text written to a buffer while a URL value
    is rendered is written whole (after ["&amp;"] in place of a leading
    question mark, when one is due), and the URL state after it is: the
    same state when the writer was in query state; otherwise the path
    state when the attribute is [srcset] and the text holds a comma,
    else the query state, with the path state cleared, when the text
    holds a question mark or a hash, else the same state. *)
Theorem renderText_url_state (u : urlState) (w text : string)
    (rep : list error) :
  text <> "" ->
  let '(u', rest, amp) := urlText u text in
  renderText (mkSt (Some w) (Some u) rep) text (mkCut 0 0)
  = Done (mkSt (Some (w +:+ (if amp then "&amp;" else "") +:+ rest))
               (Some u') rep) None
  /\ u' = afterText u text rest
  /\ (query u = true -> u' = u)
  /\ (query u = false -> isSet u = true -> 0 <= IndexByte rest "," ->
      path u' = true /\ query u' = false)
  /\ (query u = false -> containsQueryOrFragment text = true ->
      isSet u && (0 <=? IndexByte rest ",") = false ->
      path u' = false /\ query u' = true).
Proof.
  intros Hne.
  pose proof (urlText_state u text) as Hstate.
  destruct (urlText u text) as [[u' rest] amp] eqn:Hurl.
  split; [|split; [exact Hstate|]].
  - unfold renderText. cbn [wr urlstate reported Left Right].
    pose proof (len_pos text Hne) as Hlen.
    replace (len text - 0 - 0) with (len text) by lia.
    destruct (Z.eqb_spec (len text) 0) as [E|_]; [lia|].
    replace ((0 <? 0) || (len text - 0 <? 0) || (len text <? len text - 0))
      with false
      by (symmetry; rewrite !orb_false_iff; repeat split;
          apply Z.ltb_ge; lia).
    unfold len at 1. rewrite Nat2Z.id.
    change (drop (Z.to_nat 0) text) with text.
    rewrite take_length, Hurl.
    destruct amp; unfold Write, bufferWriter; cbn.
    + now rewrite append_assoc.
    + reflexivity.
  - subst u'. unfold afterText. split; [|split].
    + now intros ->.
    + intros -> -> Hc. apply Z.leb_le in Hc. now rewrite Hc.
    + intros -> Hq Hc. now rewrite Hc, Hq.
Qed.

End UrlStateFacts.

Section UrlStateSamples.
Import GoString Ast Renderer.

(** C8, counterexample: in a [srcset] value, after the literal text
    [/x?u=1] has put the writer in query state, the literal text [, /y]
    holds a comma and leaves the writer in query state. *)
Lemma srcset_comma_in_query_state :
  render sampleEval sampleRenderValue sampleTypeof sampleContextString 1
    sampleRendering
    [Text None "/x?u=1" (mkCut 0 0); Text None ", /y" (mkCut 0 0)]
    (mkSt (Some "") (Some srcsetStart) [])
  = Done (mkSt (Some "/x?u=1, /y") (Some (mkUrlState false true true false)) [])
         None.
Proof. reflexivity. Qed.

(** C8 on a sample: in a [srcset] value, the text [/x?u=1, ] written in
    path state leaves the writer in path state. *)
Lemma renderText_url_state_witness :
  renderText (mkSt (Some "") (Some srcsetStart) []) "/x?u=1, " (mkCut 0 0)
  = Done (mkSt (Some "/x?u=1, ") (Some (mkUrlState true false true false)) [])
         None.
Proof.
  apply (proj1 (renderText_url_state srcsetStart "" "/x?u=1, " []
                  ltac:(discriminate))).
Defined.

End UrlStateSamples.

(** ** Shows of macros *)

Section ShowMacroFacts.
Import GoString Ast Renderer.
Context {W : Type} `{Writer W}.
Variable eval : rendering -> Expr -> value + error.
Variable renderValue :
  option W -> value -> Expr -> Context -> option urlState ->
  option W * option urlState * option error.
Variable typeof : value -> string.
Variable contextString : Context -> string.

Abbreviation render' := (render eval renderValue typeof contextString).


End ShowMacroFacts.

Section ShowMacroSamples.
Import GoString Ast Renderer.



End ShowMacroSamples.

(** ** The exit status of the command-line driver *)

Section ExitStatusFacts.
Import GoString CLI.
Variable Program : Type.
Variable ParseDuration : string -> option Z.
Variable Abs : string -> string + string.
Variable ReadFile : string -> string + string.
Variable Load : string -> LoadOptions -> Program + string.
Variable Disassemble : Program -> option string.
Variable Run : Program -> RunOptions -> Z * option RunError.
Variable renderPanics : string -> string.

Abbreviation run' :=
  (run Program ParseDuration Abs ReadFile Load Disassemble Run renderPanics).

Lemma timeoutStep_invalid (cl : CommandLine) :
  timeoutStep ParseDuration cl = None
  <-> timeout cl <> "" /\ ParseDuration (timeout cl) = None.
Proof.
  unfold timeoutStep.
  destruct (String.eqb_spec (timeout cl) "") as [E|E].
  - split; [discriminate|]. intros [Hne _]. congruence.
  - destruct (ParseDuration (timeout cl)); split; try discriminate; try tauto.
    intros [_ Hd]. discriminate.
Qed.

Lemma memStep_invalid (cl : CommandLine) :
  memStep cl = None <-> mem cl <> "" /\ Atoi (memDigits (mem cl)) = None.
Proof.
  unfold memStep.
  destruct (String.eqb_spec (mem cl) "") as [E|E].
  - split; [discriminate|]. intros [Hne _]. congruence.
  - destruct (Atoi (memDigits (mem cl))); split; try discriminate; try tauto.
    intros [_ Hd]. discriminate.
Qed.

(** C9: the driver ends with status 1 on an invalid [-time] or [-mem]
    value, on a number of arguments other than one and on a file whose
    extension is not [.go]; otherwise, once the file is read, with
    status 2 when the program does not load, when [-S] is given and the
    disassembling fails, or when the run returns an error; with status
    0 when [-S] succeeds; and with the code that the run returns, which
    is [n] after [exit(n)] and 0 after a normal end, when the run
    returns no error. *)
Theorem run_exit_status (cl : CommandLine) :
  (timeout cl <> "" -> ParseDuration (timeout cl) = None ->
   exitStatus (run' cl) = 1)
  /\ (mem cl <> "" -> Atoi (memDigits (mem cl)) = None ->
      exitStatus (run' cl) = 1)
  /\ (length (args cl) <> 1%nat -> exitStatus (run' cl) = 1)
  /\ (forall file, args cl = [file] -> Ext file <> ".go" ->
      exitStatus (run' cl) = 1)
  /\ (forall ctx limit limiter file absFile main,
        timeoutStep ParseDuration cl = Some ctx ->
        memStep cl = Some (limit, limiter) ->
        args cl = [file] -> Ext file = ".go" ->
        Abs file = inl absFile -> ReadFile absFile = inl main ->
        (forall err, Load main (mkLoadOptions limit) = inr err ->
           run' cl = Exit 2)
        /\ (forall program,
              Load main (mkLoadOptions limit) = inl program ->
              (asm cl = true ->
               (forall err, Disassemble program = Some err -> run' cl = Exit 2)
               /\ (Disassemble program = None -> run' cl = Exit 0))
              /\ (asm cl = false ->
                  forall code,
                    (forall err,
                        Run program (mkRunOptions ctx limiter) = (code, Some err) ->
                        exitStatus (run' cl) = 2)
                    /\ (Run program (mkRunOptions ctx limiter) = (code, None) ->
                        run' cl = Exit code)))).
Proof.
  split; [|split; [|split; [|split]]].
  - intros Hne Hd. unfold run.
    now rewrite (proj2 (timeoutStep_invalid cl) (conj Hne Hd)).
  - intros Hne Hd. unfold run.
    rewrite (proj2 (memStep_invalid cl) (conj Hne Hd)).
    now destruct (timeoutStep ParseDuration cl).
  - intros Hlen. unfold run.
    destruct (timeoutStep ParseDuration cl); [|reflexivity].
    destruct (memStep cl) as [[limit limiter]|]; [|reflexivity].
    destruct (args cl) as [|file [|file' more]]; try reflexivity.
    now contradiction Hlen.
  - intros file Hargs Hext. unfold run.
    destruct (timeoutStep ParseDuration cl); [|reflexivity].
    destruct (memStep cl) as [[limit limiter]|]; [|reflexivity].
    rewrite Hargs. apply String.eqb_neq in Hext. now rewrite Hext.
  - intros ctx limit limiter file absFile main Ht Hm Hargs Hext Habs Hread.
    assert (Hrun : forall o,
               match Load main (mkLoadOptions limit) with
               | inr _ => Exit 2
               | inl program =>
                   if asm cl then
                     match Disassemble program with
                     | Some _ => Exit 2
                     | None => Exit 0
                     end
                   else
                     match Run program (mkRunOptions ctx limiter) with
                     | (_, Some (Panic p)) => GoPanic (renderPanics p)
                     | (_, Some _) => Exit 2
                     | (code, None) => Exit code
                     end
               end = o -> run' cl = o).
    { intros o <-. unfold run. rewrite Ht, Hm, Hargs.
      apply String.eqb_eq in Hext. rewrite Hext. cbn [negb].
      now rewrite Habs, Hread. }
    split.
    + intros err Hload. apply Hrun. now rewrite Hload.
    + intros program Hload. split.
      * intros Hasm. split.
        -- intros err Hdis. apply Hrun. now rewrite Hload, Hasm, Hdis.
        -- intros Hdis. apply Hrun. now rewrite Hload, Hasm, Hdis.
      * intros Hasm code. split.
        -- intros err Hr. erewrite Hrun; [|rewrite Hload, Hasm, Hr; reflexivity].
           now destruct err.
        -- intros Hr. apply Hrun. now rewrite Hload, Hasm, Hr.
Qed.

End ExitStatusFacts.

Section ExitStatusSamples.
Import GoString CLI.

Abbreviation sampleDriver :=
  (run string sampleParseDuration sampleAbs sampleReadFile sampleLoad
       sampleDisassemble sampleRun sampleRenderPanics).

(** C9 on samples: [-mem 10x] is a usage error, and a program that
    calls [exit(3)] ends the driver with status 3. *)
Lemma run_exit_status_witness :
  exitStatus (sampleDriver (mkCommandLine false "" "10x" ["main.go"])) = 1
  /\ sampleDriver (mkCommandLine false "50ms" "10K" ["main.go"]) = Exit 3.
Proof.
  split.
  - apply (proj1 (proj2
             (run_exit_status string sampleParseDuration sampleAbs
                sampleReadFile sampleLoad sampleDisassemble sampleRun
                sampleRenderPanics
                (mkCommandLine false "" "10x" ["main.go"])))).
    + discriminate.
    + reflexivity.
  - destruct (proj2 (proj2 (proj2 (proj2
             (run_exit_status string sampleParseDuration sampleAbs
                sampleReadFile sampleLoad sampleDisassemble sampleRun
                sampleRenderPanics
                (mkCommandLine false "50ms" "10K" ["main.go"])))))
             (Some 50000000) true (Some 10240) "main.go" "/work/main.go"
             "exit(3)" eq_refl eq_refl eq_refl eq_refl eq_refl eq_refl)
      as [_ Hload].
    destruct (Hload "exit(3)" eq_refl) as [_ Hrun].
    exact (proj2 (Hrun eq_refl 3) eq_refl).
Defined.

End ExitStatusSamples.

Section MoreSamples.
Import GoString Ast.

(** The call at the head of function 1 of the sample program: the
    shift word holds 3, 2, 1 and 4; the frame pointers of the integer,
    string and general banks move by 3, 1 and 4, the one of the float
    bank stays where it was. *)
Lemma sample_call_frame_pointers :
  VM.step VM.sampleProgram VM.sampleOpNum VM.sampleGeneral VM.sampleExecOther
    (VM.sampleVM 1 []) 0
  = VM.Next
      (VM.mkVM 0 [] (3, 0, 1, 4) (8, 4, 4, 8)
         [0; 0; 0; 0; 0; 0; 0; 0] [0; 0; 0; 0] [""; ""; ""; ""]
         [VM.VOther 0; VM.VOther 0; VM.VOther 0; VM.VOther 0;
          VM.VOther 0; VM.VOther 0; VM.VOther 0; VM.VOther 0]
         [VM.mkCall 1 [] (0, 0, 0, 0) 2 false])
      0.
Proof. reflexivity. Qed.

(** A top-level [show] statement is refused, with its position and the
    path of the file that is converted. *)
Lemma sample_bad_tree_refused :
  Checker.templatePageToPackage "/index.html" Checker.sampleBadTree "/bad.html"
  = ("/bad.html", Checker.sampleBadTree,
     Some (Checker.CheckingError "/bad.html" (mkPos 1 9 8 14)
             Checker.errTemplateDeclarations)).
Proof. reflexivity. Qed.

(** Paths that the comment of [IsPath] lists as valid and as
    invalid. *)
Lemma IsPath_documented_examples :
  Forall (fun p => Path.IsPath (fun r => r) p = true)
    ["/a.a"; "/a/a.a"; "a.a"; "a/a.a"; "../a.a"; "a/../a.a"]
  /\ Forall (fun p => Path.IsPath (fun r => r) p = false)
       [""; "/"; "a"; "aa"; "aa."; "a/"; ".."; "a/.."].
Proof. split; repeat constructor. Qed.

End MoreSamples.

(** * Further properties of the code *)

(** ** The [extends] node *)

Section ExtendsFacts.
Import Ast Extends Checker.

(** [getExtends] finds a node exactly when the nodes are comment and
    text nodes followed by an [extends] node, and returns that
    node. *)
Theorem getExtends_spec (nodes : list Node) (e : Node) :
  getExtends nodes = Some e
  <-> exists pre post,
        nodes = pre ++ e :: post
        /\ Forall (fun n => isCommentOrText n = true) pre
        /\ isExtends e = true.
Proof.
  split.
  - revert e. induction nodes as [|n nodes IH]; intros e Hg; [discriminate|].
    destruct n; simpl in Hg; try discriminate.
    + destruct (IH e Hg) as (pre & post & -> & Hpre & He).
      exists (Text pos text :: pre), post. repeat split; auto.
    + destruct (IH e Hg) as (pre & post & -> & Hpre & He).
      exists (Comment pos text :: pre), post. repeat split; auto.
    + inversion Hg; subst. exists [], nodes. repeat split; auto.
  - intros (pre & post & -> & Hpre & He).
    induction Hpre as [|n pre Hn _ IH]; simpl.
    + destruct e; try discriminate. reflexivity.
    + destruct n; try discriminate; exact IH.
Qed.

Lemma collect_head_acc (nodes : list Node) :
  forall acc decls,
    collect nodes acc = inl decls -> exists more, decls = acc ++ more.
Proof.
  induction nodes as [|n nodes IH]; intros acc decls Hc; simpl in Hc.
  - inversion Hc. exists []. now rewrite app_nil_r.
  - destruct (classify n); try discriminate.
    + now apply IH.
    + destruct (IH _ _ Hc) as [more ->].
      exists (n :: more). now rewrite <- app_assoc.
Qed.

Lemma collect_extends_first (nodes : list Node) (e : Node) :
  forall decls,
    getExtends nodes = Some e ->
    collect nodes [] = inl decls ->
    exists more, decls = e :: more.
Proof.
  induction nodes as [|n nodes IH]; intros decls Hg Hc; [discriminate|].
  destruct n; simpl in Hg; try discriminate.
  - simpl in Hc. destruct (GoString.len (Strings.TrimSpace text) =? 0); [|discriminate].
    now apply IH.
  - simpl in Hc. now apply IH.
  - inversion Hg; subst. simpl in Hc.
    apply collect_head_acc in Hc. exact Hc.
Qed.

(** When a file that extends another one is converted to a package,
    its [extends] node is the first declaration of the package. *)
Theorem extends_is_first_declaration (tc_path path : string) (tree tree' : Tree)
    (tc_path' : string) (e : Node) :
  isPackageTree tree = false ->
  getExtends (Nodes tree) = Some e ->
  templatePageToPackage tc_path tree path = (tc_path', tree', None) ->
  exists more, Nodes tree' = [Package (tree_Pos tree) "" (e :: more)].
Proof.
  intros Hpkg Hg. unfold templatePageToPackage. rewrite Hpkg.
  destruct (collect (Nodes tree) []) as [decls|n] eqn:Hc; [|discriminate].
  intros Heq. inversion Heq; subst. simpl.
  destruct (collect_extends_first _ _ _ Hg Hc) as [more ->].
  now exists more.
Qed.

End ExtendsFacts.

Section ExtendsSamples.
Import Ast Extends Checker.

Lemma extends_is_first_declaration_witness :
  exists more,
    Nodes (mkTree "/c.html" None
             [Package None ""
                [Extends None "/base.html"; Macro None "Title" []]])
    = [Package None "" (Extends None "/base.html" :: more)].
Proof.
  apply (extends_is_first_declaration "/c.html" "/c.html"
           (mkTree "/c.html" None
              [Comment None "c"; Text None " "; Extends None "/base.html";
               Macro None "Title" []])
           (mkTree "/c.html" None
              [Package None ""
                 [Extends None "/base.html"; Macro None "Title" []]])
           "/c.html" (Extends None "/base.html")
           eq_refl eq_refl eq_refl).
Defined.

End ExtendsSamples.

(** ** Composite literals *)

Section CompositeLiteralFacts.
Import CompositeLiteral.

Lemma maxIndexLoop_ok (keys : list Key) :
  forall m c,
    (exists r, maxIndexLoop keys m c = inr r) <-> Forall goodKey keys.
Proof.
  induction keys as [|k keys IH]; intros m c; simpl.
  - split; [constructor|eauto].
  - destruct k; simpl.
    + rewrite IH. split; [now constructor|now inversion 1].
    + split; [intros [r Hr]; discriminate|inversion 1; contradiction].
    + split; [intros [r Hr]; discriminate|inversion 1; contradiction].
    + destruct (Z.ltb_spec i 0).
      * split; [intros [r Hr]; discriminate|].
        inversion 1; subst. simpl in *. lia.
      * rewrite IH. split; [now constructor|now inversion 1].
Qed.

Lemma maxIndexLoop_max (keys : list Key) :
  forall m c r,
    maxIndexLoop keys m c = inr r ->
    m <= r
    /\ Forall (fun i => i <= r) (indicesFrom keys c)
    /\ (r = m \/ In r (indicesFrom keys c)).
Proof.
  induction keys as [|k keys IH]; intros m c r Hr; simpl in *.
  - inversion Hr; subst. repeat split; auto; lia.
  - destruct k; simpl in *; try discriminate.
    + apply IH in Hr as (H1 & H2 & H3).
      destruct (Z.ltb_spec m (wrapInt (c + 1))); repeat split;
        try lia; try (constructor; [lia|assumption]); intuition.
    + destruct (Z.ltb_spec i 0); [discriminate|].
      apply IH in Hr as (H1 & H2 & H3).
      destruct (Z.ltb_spec m i); repeat split;
        try lia; try (constructor; [lia|assumption]); intuition.
Qed.

Lemma first_index_nonnegative (k : Key) (keys : list Key) :
  Forall goodKey (k :: keys) ->
  exists i rest, indices (k :: keys) = i :: rest /\ 0 <= i.
Proof.
  inversion 1; subst. unfold indices. simpl.
  destruct k; simpl in *; try contradiction.
  - eexists _, _. split; [reflexivity|]. vm_compute. discriminate.
  - eexists _, _. split; [reflexivity|assumption].
Qed.

(** [maxIndex] succeeds on an array or slice literal exactly when its
    keys are non-negative integer constants; its result is then -1 for
    a literal without elements, and otherwise the largest of the
    indices that the elements stand at. *)
Theorem maxIndex_spec (keys : list Key) :
  ((exists r, maxIndex true keys = inr r) <-> Forall goodKey keys)
  /\ (forall r,
        maxIndex true keys = inr r ->
        Forall (fun i => i <= r) (indices keys)
        /\ (keys = [] -> r = -1)
        /\ (keys <> [] -> In r (indices keys))).
Proof.
  unfold maxIndex. split; [apply maxIndexLoop_ok|].
  intros r Hr.
  pose proof (maxIndexLoop_max _ _ _ _ Hr) as (H1 & H2 & H3).
  repeat split; [exact H2| |].
  - intros ->. simpl in Hr. now inversion Hr.
  - intros Hne. destruct H3 as [->|H3]; [|exact H3].
    destruct keys as [|k keys]; [contradiction|].
    assert (Hgood : Forall goodKey (k :: keys))
      by (apply (maxIndexLoop_ok _ noEllipses (-1)); eauto).
    destruct (first_index_nonnegative _ _ Hgood) as (i & rest & Hi & Hpos).
    unfold indices in *. rewrite Hi in H2. inversion H2; subst.
    unfold noEllipses in *. lia.
Qed.

Lemma maxIndexLoop_unkeyed (n : nat) :
  forall m c,
    -1 <= c -> c + Z.of_nat n < 2 ^ 63 ->
    maxIndexLoop (repeat NoKey n) m c
    = inr (if (n =? 0)%nat then m else Z.max m (c + Z.of_nat n)).
Proof.
  induction n as [|n IH]; intros m c Hc Hn; [reflexivity|].
  cbn [repeat maxIndexLoop].
  assert (Hw : wrapInt (c + 1) = c + 1).
  { unfold wrapInt. rewrite Z.mod_small; lia. }
  rewrite Hw, IH by lia.
  f_equal. destruct n as [|n]; simpl Nat.eqb; cbv iota.
  - destruct (Z.ltb_spec m (c + 1)); lia.
  - destruct (Z.ltb_spec m (c + 1)); lia.
Qed.

(** For a literal of [n] elements without keys, [maxIndex] is
    [n - 1]. *)
Theorem maxIndex_unkeyed (n : nat) :
  Z.of_nat n < 2 ^ 63 ->
  maxIndex true (repeat NoKey n) = inr (Z.of_nat n - 1).
Proof.
  intros Hn. unfold maxIndex. rewrite maxIndexLoop_unkeyed by lia.
  f_equal. unfold noEllipses. destruct n; simpl Nat.eqb; cbv iota; lia.
Qed.

Lemma declTypeLoop_none (keyed : list bool) :
  (declTypeLoop keyed 0 = None <-> In true keyed /\ In false keyed)
  /\ (declTypeLoop keyed 1 = None <-> In false keyed)
  /\ (declTypeLoop keyed (-1) = None <-> In true keyed).
Proof.
  induction keyed as [|k keyed (IH0 & IH1 & IH2)]; simpl.
  - repeat split; try discriminate; tauto.
  - destruct k; simpl; rewrite ?IH0, ?IH1, ?IH2;
      repeat split; intros; try tauto; try discriminate;
      intuition; try discriminate.
Qed.

Lemma declTypeLoop_explicit (keyed : list bool) :
  forall d, (d = 0 \/ d = 1) ->
    (declTypeLoop keyed d = Some 1
     <-> (d = 1 \/ keyed <> []) /\ Forall (fun k => k = true) keyed).
Proof.
  induction keyed as [|k keyed IH]; intros d Hd; simpl.
  - split.
    + intros H. inversion H. subst. split; [now left|constructor].
    + intros [[->|H] _]; [reflexivity|contradiction].
  - destruct k.
    + destruct (Z.eqb_spec d (-1)); [lia|].
      rewrite (IH 1) by now right.
      split.
      * intros [_ H]. split; [now right|now constructor].
      * intros [_ H]. inversion H; subst. split; [now left|assumption].
    + destruct (Z.eqb_spec d 1) as [->|Hne].
      * split; [discriminate|]. intros [_ H]. inversion H; discriminate.
      * split.
        -- intros H. exfalso. clear - H.
           assert (forall l, declTypeLoop l (-1) <> Some 1) as Hno.
           { induction l as [|[] l IHl]; simpl; try discriminate. exact IHl. }
           exact (Hno _ H).
        -- intros [_ H]. inversion H; discriminate.
Qed.

(** A struct literal is refused as a mixture exactly when it has an
    element with a key and an element without one; it is a literal with
    explicit fields exactly when it has elements and all have keys. *)
Theorem structShape_spec (keyed : list bool) (numField : nat) :
  (structShape keyed numField = ShapeError errMixture
   <-> In true keyed /\ In false keyed)
  /\ (structShape keyed numField = ExplicitFields
      <-> keyed <> [] /\ Forall (fun k => k = true) keyed).
Proof.
  unfold structShape.
  pose proof (declTypeLoop_none keyed) as (H0 & _ & _).
  pose proof (declTypeLoop_explicit keyed 0 (or_introl eq_refl)) as He.
  destruct (declTypeLoop keyed 0) as [d|] eqn:Hd.
  - split.
    + split.
      * intros Hs. exfalso.
        destruct (d =? 1); [discriminate|].
        destruct (length keyed =? 0)%nat; [discriminate|].
        destruct (length keyed <? numField)%nat; [discriminate|].
        destruct (numField <? length keyed)%nat; discriminate.
      * intros H. apply H0 in H. discriminate.
    + destruct (Z.eqb_spec d 1) as [->|Hne].
      * split; [intros _|reflexivity].
        destruct (proj1 He eq_refl) as [[H|H] HF]; [lia|tauto].
      * split.
        -- intros Hs. exfalso.
           destruct (length keyed =? 0)%nat; [discriminate|].
           destruct (length keyed <? numField)%nat; [discriminate|].
           destruct (numField <? length keyed)%nat; discriminate.
        -- intros [Hne' HF]. exfalso.
           assert (Some d = Some 1) by (apply He; split; [now right|assumption]).
           congruence.
  - split.
    + split; [intros _; now apply H0|reflexivity].
    + split; [discriminate|].
      intros [Hne HF]. exfalso.
      assert (@None Z = Some 1) by (apply He; split; [now right|assumption]).
      discriminate.
Qed.

End CompositeLiteralFacts.

Section CompositeLiteralSamples.
Import CompositeLiteral.

(** The literal [[...]int{5: a, b, 2: c}] has length 7. *)
Lemma maxIndex_unkeyed_witness :
  maxIndex true (repeat NoKey 3) = inr 2
  /\ maxIndex true [KeyInt 5; NoKey; KeyInt 2] = inr 6.
Proof.
  split; [|reflexivity].
  apply (maxIndex_unkeyed 3). reflexivity.
Defined.

End CompositeLiteralSamples.

(** ** The scopes of the type checker *)

Section ScopesFacts.
Import Scopes.

Lemma lookupInner_first (rs : list (gmap string scopeElement)) (name : string) :
  lookupInner rs true name false = lookupInner rs false name false.
Proof. destruct rs as [|sc rs]; [reflexivity|]. simpl. reflexivity. Qed.

(** After [assignScope], the name is found with the type it was given,
    whether all scopes or the current scope only are searched, and the
    lookup of every other name is as before. *)
Theorem lookup_after_assign (tc tc' : typechecker) (name : string)
    (value : TypeInfo) (declNode : option Z) (justCurrentScope : bool) :
  assignScope tc name value declNode = Some tc' ->
  lookupScopes tc' name justCurrentScope = Some value
  /\ (forall other,
        other <> name ->
        lookupScopes tc' other justCurrentScope
        = lookupScopes tc other justCurrentScope).
Proof.
  unfold assignScope.
  destruct (rev (scopes tc)) as [|last below] eqn:Hrev; [discriminate|].
  intros Htc. inversion Htc; subst; clear Htc.
  unfold lookupScopes.
  cbn [scopes setScopes filePackageBlock universe].
  rewrite rev_app_distr, rev_involutive, Hrev. cbn [rev app lookupInner].
  split.
  - now rewrite lookup_insert_eq.
  - intros other Hne. now rewrite lookup_insert_ne by congruence.
Qed.

(** A new scope is transparent: a name is found through it as before,
    and it holds no name of its own. *)
Theorem lookup_after_addScope (tc : typechecker) (name : string) :
  lookupScopes (addScope tc) name false = lookupScopes tc name false
  /\ lookupScopes (addScope tc) name true = None.
Proof.
  unfold lookupScopes, addScope.
  cbn [scopes setScopes filePackageBlock universe].
  rewrite rev_app_distr. cbn [rev app lookupInner].
  rewrite lookup_empty. cbn [andb].
  now rewrite lookupInner_first.
Qed.

(** A lookup in the current scope only gives what the innermost scope
    holds; without any scope it searches the file block and the
    universe as the full lookup does. *)
Theorem lookup_current_scope (tc : typechecker) (name : string) :
  (forall below cur,
      scopes tc = below ++ [cur] ->
      lookupScopes tc name true = t <$> (cur !! name))
  /\ (scopes tc = [] ->
      lookupScopes tc name true = lookupScopes tc name false).
Proof.
  unfold lookupScopes. split.
  - intros below cur ->. rewrite rev_app_distr. cbn [rev app lookupInner].
    now destruct (cur !! name).
  - now intros ->.
Qed.

Lemma cutUnused_kept (rev_unused : list scopeVariable) (level : Z) :
  forall kept,
    cutUnused rev_unused level = inr kept ->
    exists dropped,
      rev_unused = dropped ++ kept
      /\ Forall (fun v => node v = None /\ level <= scopeLevel v) dropped.
Proof.
  induction rev_unused as [|v before IH]; intros kept Hc; simpl in Hc.
  - inversion Hc. now exists [].
  - destruct (Z.ltb_spec (scopeLevel v) level).
    + inversion Hc. now exists [].
    + destruct (node v) eqn:Hn; [discriminate|].
      destruct (IH _ Hc) as (dropped & -> & HF).
      exists (v :: dropped). split; [reflexivity|].
      constructor; [split; [assumption|lia]|assumption].
Qed.

Lemma cutUnused_reported (rev_unused : list scopeVariable) (level : Z) :
  forall v,
    cutUnused rev_unused level = inl v ->
    In v rev_unused /\ node v <> None /\ level <= scopeLevel v.
Proof.
  induction rev_unused as [|u before IH]; intros v Hc; simpl in Hc;
    [discriminate|].
  destruct (Z.ltb_spec (scopeLevel u) level); [discriminate|].
  destruct (node u) eqn:Hn.
  - inversion Hc; subst. repeat split; [now left|congruence|lia].
  - destruct (IH _ Hc) as (Hin & Hnode & Hlevel).
    repeat split; [now right|assumption|assumption].
Qed.

(** Leaving a scope reports as declared and not used only a variable
    of the scope that is left, and only when the checker does not check
    a script; when it succeeds, the innermost scope is gone, and the
    unused variables that are forgotten are those at the end of the
    list that have no node. *)
Theorem removeCurrentScope_spec (tc : typechecker) :
  (forall v,
      removeCurrentScope tc = NotUsed v ->
      isScript tc = false
      /\ In v (unusedVars tc)
      /\ node v <> None
      /\ Z.of_nat (length (scopes tc)) - 1 <= scopeLevel v)
  /\ (forall tc',
        removeCurrentScope tc = Removed tc' ->
        (exists cur, scopes tc = scopes tc' ++ [cur])
        /\ (exists dropped,
              unusedVars tc = unusedVars tc' ++ dropped
              /\ Forall (fun v => node v = None) dropped)
        /\ universe tc' = universe tc
        /\ filePackageBlock tc' = filePackageBlock tc).
Proof.
  unfold removeCurrentScope. split.
  - intros v. destruct (isScript tc) eqn:Hs.
    + destruct (rev (scopes tc)); discriminate.
    + destruct (cutUnused _ _) as [u|kept] eqn:Hc.
      * intros Hv. inversion Hv; subst.
        destruct (cutUnused_reported _ _ _ Hc) as (Hin & Hnode & Hlevel).
        repeat split; try assumption. now apply in_rev.
      * destruct (rev (scopes tc)); discriminate.
  - intros tc'.
    assert (Hkept : forall kept,
               (if isScript tc then inr (rev (unusedVars tc))
                else cutUnused (rev (unusedVars tc))
                       (Z.of_nat (length (scopes tc)) - 1)) = inr kept ->
               exists dropped,
                 unusedVars tc = rev kept ++ dropped
                 /\ Forall (fun v => node v = None) dropped).
    { intros kept Hk. destruct (isScript tc).
      - inversion Hk. exists []. now rewrite rev_involutive, app_nil_r.
      - destruct (cutUnused_kept _ _ _ Hk) as (dropped & Hrev & HF).
        exists (rev dropped). split.
        + rewrite <- (rev_involutive (unusedVars tc)), Hrev.
          now rewrite rev_app_distr.
        + apply Forall_rev. eapply Forall_impl; [exact HF|].
          now intros v [Hn _]. }
    destruct (if isScript tc then _ else _) as [u|kept]; [discriminate|].
    destruct (rev (scopes tc)) as [|cur below] eqn:Hrev; [discriminate|].
    intros Htc. inversion Htc; subst; clear Htc.
    cbn [scopes unusedVars universe filePackageBlock].
    repeat split.
    + exists cur. rewrite <- (rev_involutive (scopes tc)), Hrev. reflexivity.
    + now apply Hkept.
Qed.

(** Entering a scope, declaring a name in it and leaving it gives back
    the type checker as it was, when it checks a script or has no
    unused variable at the level of the new scope. *)
Theorem scope_enter_declare_leave (tc tc1 : typechecker) (name : string)
    (value : TypeInfo) (declNode : option Z) :
  isScript tc = true
  \/ Forall (fun v => scopeLevel v < Z.of_nat (length (scopes tc)))
            (unusedVars tc) ->
  assignScope (addScope tc) name value declNode = Some tc1 ->
  removeCurrentScope tc1 = Removed tc.
Proof.
  intros Hunused. unfold assignScope, addScope.
  cbn [scopes setScopes]. rewrite rev_app_distr. cbn [rev app].
  intros Htc. inversion Htc; subst; clear Htc.
  unfold removeCurrentScope.
  cbn [scopes setScopes isScript unusedVars universe filePackageBlock].
  rewrite rev_involutive, rev_app_distr. cbn [rev app].
  assert (Hcut : (if isScript tc then inr (rev (unusedVars tc))
                  else cutUnused (rev (unusedVars tc))
                         (Z.of_nat (length (scopes tc ++ [<[name:=mkScopeElement value declNode]> ∅])) - 1))
                 = inr (rev (unusedVars tc))).
  { destruct (isScript tc); [reflexivity|].
    destruct Hunused as [|HF]; [discriminate|].
    rewrite length_app. cbn [length].
    replace (Z.of_nat (length (scopes tc) + 1) - 1)
      with (Z.of_nat (length (scopes tc))) by lia.
    apply Forall_rev in HF.
    destruct (rev (unusedVars tc)) as [|v before]; [reflexivity|].
    inversion HF; subst. simpl.
    destruct (Z.ltb_spec (scopeLevel v) (Z.of_nat (length (scopes tc))));
      [reflexivity|lia]. }
  rewrite Hcut. rewrite !rev_involutive.
  now destruct tc.
Qed.

End ScopesFacts.

Section ScopesSamples.
Import Scopes.

Lemma lookup_after_assign_witness :
  lookupScopes
    (setScopes sampleChecker
       [<["b" := mkScopeElement 3 None]> {["a" := mkScopeElement 2 (Some 10)]}])
    "b" true = Some 3.
Proof.
  apply (proj1 (lookup_after_assign sampleChecker _ "b" 3 None true eq_refl)).
Defined.

Lemma scope_enter_declare_leave_witness :
  removeCurrentScope
    (setScopes sampleChecker
       [{["a" := mkScopeElement 2 (Some 10)]};
        <["x" := mkScopeElement 7 None]> ∅])
  = Removed sampleChecker.
Proof.
  apply (scope_enter_declare_leave sampleChecker _ "x" 7 None).
  - right. constructor.
  - reflexivity.
Defined.

End ScopesSamples.

(** ** The initial values of the global variables *)

Section ReflectFacts.
Import Reflect.

Lemma Kind_eqb_eq (k k' : Kind) : Kind_eqb k k' = true <-> k = k'.
Proof.
  unfold Kind_eqb. split; [|intros ->; apply Z.eqb_refl].
  destruct k, k'; simpl; intros H; try reflexivity; discriminate.
Qed.

Lemma Methods_eqb_eq (l r : list Method) : Methods_eqb l r = true <-> l = r.
Proof.
  revert r. induction l as [|[n s] l IH]; intros [|[n' s'] r]; simpl;
    try (split; [reflexivity|reflexivity]); try (split; discriminate).
  unfold Method_eqb. simpl. rewrite !andb_true_iff, IH, !String.eqb_eq.
  split; [intros [[-> ->] ->]; reflexivity|].
  intros H; inversion H; auto.
Qed.

Lemma Type_eqb_eq (t : Type_) : forall u, Type_eqb t u = true <-> t = u.
Proof.
  induction t; intros u; destruct u; simpl;
    try (split; [discriminate|discriminate]).
  - rewrite Kind_eqb_eq. split; [now intros ->|now inversion 1].
  - rewrite !andb_true_iff, !String.eqb_eq, IHt, Methods_eqb_eq.
    split; [intros [[[-> ->] ->] ->]; reflexivity|].
    inversion 1; auto.
  - rewrite IHt. split; [now intros ->|now inversion 1].
  - rewrite andb_true_iff, Z.eqb_eq, IHt.
    split; [intros [-> ->]; reflexivity|inversion 1; auto].
  - rewrite IHt. split; [now intros ->|now inversion 1].
  - rewrite andb_true_iff, IHt1, IHt2.
    split; [intros [-> ->]; reflexivity|inversion 1; auto].
  - rewrite IHt. split; [now intros ->|now inversion 1].
  - rewrite Methods_eqb_eq. split; [now intros ->|now inversion 1].
  - rewrite String.eqb_eq. split; [now intros ->|now inversion 1].
  - rewrite String.eqb_eq. split; [now intros ->|now inversion 1].
Qed.

End ReflectFacts.

Section GlobalsFacts.
Import Reflect Globals.

Lemma initOne_ok (init : gmap string InitValue) (g : Global) :
  (exists slot, initOne init g = inr slot) <-> wellInitialized init g.
Proof.
  unfold initOne, wellInitialized, fits.
  destruct (String.eqb_spec (Pkg g) "main") as [Hmain|Hmain].
  2: { split; [intros _ Hm; contradiction|eauto]. }
  destruct (init !! Name g) as [value|] eqn:Hi.
  2: { split; [intros _ _ v Hv; discriminate|eauto]. }
  destruct (Value g) as [v|] eqn:Hv.
  { split; [intros [s Hs]; discriminate|].
    intros H. destruct (H Hmain _ eq_refl) as [Hnone _]. discriminate. }
  destruct value as [|typ isNil data].
  { split; [intros [s Hs]; discriminate|].
    intros H. destruct (H Hmain _ eq_refl) as (_ & ? & ? & ? & Hval & _).
    discriminate. }
  destruct (Type_eqb typ (Typ g)) eqn:Heq.
  { apply Type_eqb_eq in Heq. split; [|eauto].
    intros _ _ v Hval. inversion Hval; subst.
    split; [reflexivity|]. eexists _, _, _. split; [reflexivity|now left]. }
  assert (Hne : typ <> Typ g).
  { intros E. apply Type_eqb_eq in E. congruence. }
  split.
  - intros [slot Hs] _ v Hval. inversion Hval; subst. split; [reflexivity|].
    destruct typ; try discriminate.
    destruct (Type_eqb typ (Typ g)) eqn:He; [|discriminate].
    destruct isNil; [discriminate|].
    apply Type_eqb_eq in He. subst.
    eexists _, _, _. split; [reflexivity|now right].
  - intros H.
    destruct (H Hmain _ eq_refl) as (_ & typ' & n' & d' & Hval & Hfit).
    inversion Hval; subst.
    destruct Hfit as [E|[-> ->]]; [contradiction|].
    assert (He : Type_eqb (Typ g) (Typ g) = true) by now apply Type_eqb_eq.
    rewrite He. eauto.
Qed.

Lemma initAll_ok (init : gmap string InitValue) (variables : list Global) :
  (exists slots, initAll init variables = inr slots)
  <-> Forall (wellInitialized init) variables.
Proof.
  induction variables as [|g gs IH]; simpl.
  - split; [constructor|eauto].
  - split.
    + intros [slots Hs].
      destruct (initOne init g) as [p|slot] eqn:Hg; [discriminate|].
      destruct (initAll init gs) as [p|ss] eqn:Hgs; [discriminate|].
      constructor; [apply initOne_ok; eauto|apply IH; eauto].
    + inversion 1; subst.
      destruct (proj2 (initOne_ok init g) H2) as [slot ->].
      destruct (proj2 IH H3) as [ss ->]. eauto.
Qed.

Lemma initGlobalVariables_initAll (variables : list Global)
    (init : option (gmap string InitValue)) :
  initGlobalVariables variables init = initAll (initOf init) variables.
Proof. now destruct variables. Qed.

(** [initGlobalVariables] returns, without panic, exactly when every
    global of package main that [init] names is not predefined and has
    an initializer of its type, or a pointer to its type that is not
    nil. *)
Theorem initGlobalVariables_succeeds (variables : list Global)
    (init : option (gmap string InitValue)) :
  (exists slots, initGlobalVariables variables init = inr slots)
  <-> Forall (wellInitialized (initOf init)) variables.
Proof. rewrite initGlobalVariables_initAll. apply initAll_ok. Qed.

Lemma initAll_slots (init : gmap string InitValue) (variables : list Global) :
  forall slots,
    initAll init variables = inr slots ->
    length slots = length variables
    /\ forall i g,
         variables !! i = Some g ->
         Pkg g <> "main" \/ init !! Name g = None ->
         slots !! i = Some (defaultSlot g).
Proof.
  induction variables as [|g gs IH]; intros slots Hs; simpl in Hs.
  - inversion Hs. split; [reflexivity|]. intros i g Hg. discriminate.
  - destruct (initOne init g) as [p|slot] eqn:Hg; [discriminate|].
    destruct (initAll init gs) as [p|ss] eqn:Hgs; [discriminate|].
    inversion Hs; subst. destruct (IH _ eq_refl) as [Hlen Hdef].
    split; [simpl; now rewrite Hlen|].
    intros [|i] g' Hg' Hfree; simpl in *.
    + inversion Hg'; subst. unfold initOne in Hg. fold (defaultSlot g') in Hg.
      destruct (String.eqb_spec (Pkg g') "main") as [Hm|Hm].
      * destruct Hfree as [Hfree|Hfree]; [contradiction|].
        rewrite Hfree in Hg. now inversion Hg.
      * now inversion Hg.
    + now apply Hdef.
Qed.

(** When [initGlobalVariables] returns, there is one value for each
    global, and a global that is not of package main or that [init]
    does not name has its predefined value if it has one and a new zero
    value of its type otherwise. *)
Theorem initGlobalVariables_defaults (variables : list Global)
    (init : option (gmap string InitValue)) (slots : list Slot) :
  initGlobalVariables variables init = inr slots ->
  length slots = length variables
  /\ forall i g,
       variables !! i = Some g ->
       Pkg g <> "main" \/ initOf init !! Name g = None ->
       slots !! i = Some (defaultSlot g).
Proof. rewrite initGlobalVariables_initAll. apply initAll_slots. Qed.

Lemma initOne_other_name (init : gmap string InitValue) (g : Global)
    (name : string) (value : InitValue) :
  (Pkg g = "main" -> Name g <> name) ->
  initOne (<[name := value]> init) g = initOne init g.
Proof.
  intros Hne. unfold initOne.
  destruct (String.eqb_spec (Pkg g) "main") as [Hm|Hm]; [|reflexivity].
  rewrite lookup_insert_ne; [reflexivity|]. intros E. now apply (Hne Hm).
Qed.

(** An initializer for a name that is not a global of package main is
    ignored. *)
Theorem initGlobalVariables_ignores_unknown (variables : list Global)
    (init : gmap string InitValue) (name : string) (value : InitValue) :
  Forall (fun g => Pkg g = "main" -> Name g <> name) variables ->
  initGlobalVariables variables (Some (<[name := value]> init))
  = initGlobalVariables variables (Some init).
Proof.
  intros HF. rewrite !initGlobalVariables_initAll. simpl.
  induction HF as [|g gs Hg _ IH]; simpl; [reflexivity|].
  now rewrite (initOne_other_name _ _ _ _ Hg), IH.
Qed.

End GlobalsFacts.

Section GlobalsSamples.
Import Reflect Globals.

Lemma initGlobalVariables_defaults_witness :
  length [NewCopy (TBasic KString) 42; Predefined 1] = length sampleGlobals.
Proof.
  apply (proj1 (initGlobalVariables_defaults sampleGlobals (Some sampleInit)
                  [NewCopy (TBasic KString) 42; Predefined 1] eq_refl)).
Defined.

Lemma initGlobalVariables_ignores_unknown_witness :
  initGlobalVariables sampleGlobals
    (Some (<["debug" := NilInterface]> sampleInit))
  = initGlobalVariables sampleGlobals (Some sampleInit).
Proof.
  apply (initGlobalVariables_ignores_unknown sampleGlobals sampleInit
           "debug" NilInterface).
  repeat constructor; simpl; intros; discriminate.
Defined.

End GlobalsSamples.

(** ** The address of a jump *)

Section VMAddrFacts.
Import VMAddr.

Lemma lor_shiftl_add (x y n : Z) :
  0 <= n -> 0 <= x < 2 ^ n -> Z.lor x (Z.shiftl y n) = x + y * 2 ^ n.
Proof.
  intros Hn Hx. rewrite Z.shiftl_mul_pow2 by assumption.
  rewrite <- Z.lxor_lor, <- Z.add_nocarry_lxor; try reflexivity;
    apply Z.bits_inj'; intros m Hm; rewrite Z.land_spec, Z.bits_0;
    rewrite <- Z.shiftl_mul_pow2 by assumption;
    (destruct (Z.lt_ge_cases m n) as [Hlt|Hge];
     [rewrite (Z.shiftl_spec_low _ _ _ Hlt); apply andb_false_r|
      rewrite <- (Z.mod_small x (2 ^ n)) by assumption;
      rewrite Z.mod_pow2_bits_high by lia; reflexivity]).
Qed.

Lemma uint8_range (x : Z) : 0 <= uint8 x < 256.
Proof. unfold uint8. apply Z.mod_pos_bound. lia. Qed.

Lemma decodeAddr_value (a b c : Z) :
  decodeAddr a b c = uint8 a + 256 * uint8 b + 65536 * uint8 c.
Proof.
  pose proof (uint8_range a). pose proof (uint8_range b).
  pose proof (uint8_range c). unfold decodeAddr.
  rewrite (lor_shiftl_add (uint8 a) (uint8 b) 8) by lia.
  rewrite (lor_shiftl_add _ (uint8 c) 16) by lia. lia.
Qed.

(** [decodeAddr] reads its operands as the three low bytes of the
    address, the first operand the lowest: the address is below
    2^24. *)
Theorem decodeAddr_little_endian (a b c : Z) :
  decodeAddr a b c = uint8 a + 256 * uint8 b + 65536 * uint8 c
  /\ 0 <= decodeAddr a b c < 2 ^ 24.
Proof.
  pose proof (uint8_range a). pose proof (uint8_range b).
  pose proof (uint8_range c).
  rewrite decodeAddr_value. lia.
Qed.

(** Two triples of operands give the same address only when they agree
    as bytes. *)
Theorem decodeAddr_injective (a b c a' b' c' : Z) :
  decodeAddr a b c = decodeAddr a' b' c' ->
  uint8 a = uint8 a' /\ uint8 b = uint8 b' /\ uint8 c = uint8 c'.
Proof.
  rewrite !decodeAddr_value.
  pose proof (uint8_range a). pose proof (uint8_range b).
  pose proof (uint8_range c). pose proof (uint8_range a').
  pose proof (uint8_range b'). pose proof (uint8_range c'). lia.
Qed.

Lemma decodeAddr_injective_witness :
  uint8 (-1) = uint8 255 /\ uint8 0 = uint8 256 /\ uint8 1 = uint8 1.
Proof. apply (decodeAddr_injective (-1) 0 1 255 256 1). reflexivity. Defined.

End VMAddrFacts.

(** ** Calls and returns together *)

Section VMCallReturn.
Import VM.
Variable prog : Program.
Variable opNum : operation -> Z.
Variable general : VM -> Z -> Value.
Variable execOther : instruction -> VM -> Z -> StepResult.

(** The record that a call pushes brings the caller back: when the
    callee returns with that record on the call stack, under tail
    records only, the machine has the function, the closure variables,
    the frame pointers and the call stack it had before the call, and
    goes on after the word of shifts that follows the call. *)
Theorem call_then_return (vm vm1 : VM) (pc a b c0 : Z) (cur fd : Function)
    (off : instruction) (f : nat) :
  funcs prog !! fn vm = Some cur ->
  body cur !! Z.to_nat pc = Some (mkInstr opCall a b c0) ->
  body cur !! Z.to_nat (wrap32 (pc + 1)) = Some off ->
  callee prog general vm a b = Some (vm1, f, fd) ->
  exists vm',
    step prog opNum general execOther vm pc = Next vm' 0
    /\ forall vm2 pc2 a2 b2 c2 cur2 tails,
         calls vm2 = calls vm' ++ tails ->
         Forall isTail tails ->
         funcs prog !! fn vm2 = Some cur2 ->
         body cur2 !! Z.to_nat pc2 = Some (mkInstr opReturn a2 b2 c2) ->
         exists vm3,
           step prog opNum general execOther vm2 pc2
             = Next vm3 (wrap32 (wrap32 (pc + 1) + 1))
           /\ fn vm3 = fn vm /\ cvars vm3 = cvars vm /\ fp vm3 = fp vm
           /\ calls vm3 = calls vm /\ st vm3 = st vm2.
Proof.
  intros Hcur Hin Hoff Hcallee.
  eexists. split; [eapply step_call_eq; eassumption|].
  intros vm2 pc2 a2 b2 c2 cur2 tails Hcalls Htails Hcur2 Hin2.
  destruct (callee_frame _ _ _ _ _ _ _ _ Hcallee) as [_ [cv ->]].
  destruct (enterFrame_frame opNum off fd (setCvars vm cv))
    as (_ & _ & E3 & _).
  cbv zeta in E3. cbn [calls setCalls setFn setCvars] in *.
  rewrite E3 in Hcalls. cbn [calls setCvars] in Hcalls.
  rewrite <- app_assoc in Hcalls. simpl in Hcalls.
  unfold step, execReturn. rewrite Hcur2, Hin2. cbn [op]. rewrite Hcalls.
  rewrite lastNonTail_found by (assumption || reflexivity).
  destruct (calls vm ++ returnRecord vm pc :: tails) eqn:E.
  - now destruct (calls vm).
  - eexists. split; [reflexivity|]. repeat split.
Qed.

(** A return finds no record to go back to when the call stack holds
    tail records only: the index runs below 0. *)
Theorem return_over_tail_records_only (vm : VM) (pc a b c0 : Z)
    (cur : Function) :
  funcs prog !! fn vm = Some cur ->
  body cur !! Z.to_nat pc = Some (mkInstr opReturn a b c0) ->
  calls vm <> [] ->
  Forall isTail (calls vm) ->
  step prog opNum general execOther vm pc = Panic "index out of range".
Proof.
  intros Hcur Hin Hne Htails. unfold step, execReturn.
  rewrite Hcur, Hin. cbn [op].
  assert (Hl : lastNonTail (rev (calls vm)) = None).
  { rewrite <- (app_nil_r (rev (calls vm))).
    rewrite lastNonTail_skips by now apply Forall_rev. reflexivity. }
  rewrite Hl. destruct (calls vm); [contradiction|reflexivity].
Qed.

End VMCallReturn.

Section VMCallReturnSamples.
Import VM.

Lemma call_then_return_witness :
  exists vm',
    step sampleProgram sampleOpNum sampleGeneral sampleExecOther
      (sampleVM 1 []) 0 = Next vm' 0
    /\ exists vm3,
         step sampleProgram sampleOpNum sampleGeneral sampleExecOther
           (sampleVM 0 [mkCall 1 [] (0, 0, 0, 0) 2 false;
                        mkCall 0 [] (0, 0, 0, 0) 1 true]) 1
         = Next vm3 2
         /\ fn vm3 = 1%nat /\ calls vm3 = [].
Proof.
  destruct (call_then_return sampleProgram sampleOpNum sampleGeneral
              sampleExecOther (sampleVM 1 []) (setCvars (sampleVM 1 []) [])
              0 CurrentPackage 0 0
              (mkFunction 0 (1, 1, 1, 1)
                 [mkInstr opCall CurrentPackage 0 0;
                  mkInstr (opOther 3) 2 1 4;
                  mkInstr opReturn 0 0 0])
              (mkFunction 0 (2, 2, 2, 2)
                 [mkInstr opTailCall CurrentPackage CurrentFunction 0;
                  mkInstr opReturn 0 0 0])
              (mkInstr (opOther 3) 2 1 4) 0%nat
              eq_refl eq_refl eq_refl eq_refl) as (vm' & Hstep & Hret).
  exists vm'. split; [exact Hstep|].
  destruct (Hret (sampleVM 0 [mkCall 1 [] (0, 0, 0, 0) 2 false;
                              mkCall 0 [] (0, 0, 0, 0) 1 true]) 1 0 0 0
              (mkFunction 0 (2, 2, 2, 2)
                 [mkInstr opTailCall CurrentPackage CurrentFunction 0;
                  mkInstr opReturn 0 0 0])
              [mkCall 0 [] (0, 0, 0, 0) 1 true])
    as (vm3 & H3 & Hfn & _ & _ & Hcalls & _).
  - assert (E : vm' = setCalls (setFn (enterFrame sampleOpNum
                    (mkInstr (opOther 3) 2 1 4)
                    (mkFunction 0 (2, 2, 2, 2)
                       [mkInstr opTailCall CurrentPackage CurrentFunction 0;
                        mkInstr opReturn 0 0 0])
                    (setCvars (sampleVM 1 []) [])) 0%nat)
                  [returnRecord (sampleVM 1 []) 0]).
    { vm_compute in Hstep. inversion Hstep. reflexivity. }
    rewrite E. reflexivity.
  - repeat constructor.
  - reflexivity.
  - reflexivity.
  - exists vm3. split; [exact H3|]. split; [exact Hfn|exact Hcalls].
Defined.

Lemma return_over_tail_records_only_witness :
  step sampleProgram sampleOpNum sampleGeneral sampleExecOther
    (sampleVM 0 [mkCall 0 [] (0, 0, 0, 0) 1 true]) 1
  = Panic "index out of range".
Proof.
  apply (return_over_tail_records_only sampleProgram sampleOpNum
           sampleGeneral sampleExecOther
           (sampleVM 0 [mkCall 0 [] (0, 0, 0, 0) 1 true]) 1 0 0 0
           (mkFunction 0 (2, 2, 2, 2)
              [mkInstr opTailCall CurrentPackage CurrentFunction 0;
               mkInstr opReturn 0 0 0])).
  - reflexivity.
  - reflexivity.
  - discriminate.
  - repeat constructor.
Defined.

End VMCallReturnSamples.

(** ** Absolute paths *)

Section AbsPathFacts.
Import GoString AbsPath.

Lemma lastSlash_range (b : list ascii) :
  -1 <= lastSlash b < Z.of_nat (length b).
Proof.
  induction b as [|x r IH]; simpl length; simpl lastSlash; [lia|].
  destruct (0 <=? lastSlash r) eqn:E; [lia|].
  destruct (Ascii.eqb x slash); lia.
Qed.

Lemma lastSlash_found (b : list ascii) :
  0 <= lastSlash b -> at_ b (lastSlash b) = Some slash.
Proof.
  induction b as [|x r IH]; simpl lastSlash; [lia|].
  destruct (Z.leb_spec 0 (lastSlash r)) as [Hr|Hr].
  - intros _. specialize (IH Hr). unfold at_ in *.
    destruct (Z.ltb_spec (lastSlash r) 0); [lia|].
    destruct (Z.ltb_spec (lastSlash r + 1) 0); [lia|].
    replace (Z.to_nat (lastSlash r + 1)) with (S (Z.to_nat (lastSlash r)))
      by lia.
    exact IH.
  - destruct (Ascii.eqb_spec x slash) as [->|Hx]; [|lia].
    intros _. reflexivity.
Qed.

Lemma at_Some (b : list ascii) (i : Z) (x : ascii) :
  at_ b i = Some x -> 0 <= i < Z.of_nat (length b).
Proof.
  unfold at_. destruct (Z.ltb_spec i 0); [discriminate|].
  intros Hx. apply lookup_lt_Some in Hx. lia.
Qed.

Lemma at_firstn (b : list ascii) (n : nat) (i : Z) :
  i < Z.of_nat n -> at_ (List.firstn n b) i = at_ b i.
Proof.
  intros Hi. unfold at_. destruct (Z.ltb_spec i 0); [reflexivity|].
  apply lookup_take_lt. lia.
Qed.

Lemma at_app_l (b c : list ascii) (i : Z) :
  i < Z.of_nat (length b) -> at_ (b ++ c) i = at_ b i.
Proof.
  intros Hi. unfold at_. destruct (Z.ltb_spec i 0); [reflexivity|].
  apply lookup_app_l. lia.
Qed.

Lemma length_list_ascii (s : string) :
  length (list_ascii_of_string s) = String.length s.
Proof. induction s; simpl; congruence. Qed.

(** The bytes kept before index [s + 1] are the bytes of [b]. *)
Lemma at_cut (b : list ascii) (s i k : Z) :
  0 <= s < i -> i + 4 <= Z.of_nat (length b) -> k <= s ->
  at_ (List.firstn (Z.to_nat (s + 1)) b ++ List.skipn (Z.to_nat (i + 4)) b) k
  = at_ b k.
Proof.
  intros Hs Hlen Hk.
  rewrite at_app_l by (rewrite length_firstn; lia).
  apply at_firstn. lia.
Qed.

Lemma parentAt_cut (b : list ascii) (s i j : Z) :
  0 <= s < i -> i + 4 <= Z.of_nat (length b) -> j < s ->
  at_ b s = Some slash ->
  parentAt b j = Some false ->
  parentAt
    (List.firstn (Z.to_nat (s + 1)) b ++ List.skipn (Z.to_nat (i + 4)) b) j
  = Some false.
Proof.
  intros Hs Hlen Hj Hslash. unfold parentAt.
  rewrite (at_cut b s i (j + 1)) by lia.
  destruct (at_ b (j + 1)) as [x|] eqn:Hx; [|discriminate].
  destruct (Ascii.eqb_spec x dot) as [->|Hne]; [|reflexivity].
  assert (j + 1 <> s).
  { intros E. rewrite E in Hx. rewrite Hslash in Hx. discriminate. }
  rewrite (at_cut b s i (j + 2)) by lia. trivial.
Qed.

Lemma resolve_below_zero (fuel : nat) (b : list ascii) (s : string) :
  resolve fuel b (-1) <> Ok s.
Proof.
  destruct fuel; simpl; [discriminate|].
  destruct (Z.leb_spec (Z.of_nat (length b)) (-1)); [lia|].
  discriminate.
Qed.

Lemma resolve_ok (fuel : nat) :
  forall (b : list ascii) (i : Z) (s : string),
    0 <= i ->
    (forall j, 0 <= j < i -> noParentAt b j) ->
    resolve fuel b i = Ok s ->
    (forall j, noParentAt (list_ascii_of_string s) j)
    /\ (String.length s <= length b)%nat
    /\ at_ (list_ascii_of_string s) 0 = at_ b 0.
Proof.
  induction fuel as [|fuel IH]; intros b i s Hi Hinv; simpl; [discriminate|].
  destruct (Z.leb_spec (Z.of_nat (length b)) i) as [Hend|Hin].
  { intros E. inversion E; subst. rewrite list_ascii_of_string_of_list_ascii.
    split; [|split].
    - intros j Hj. apply Hinv; [|exact Hj]. apply at_Some in Hj. lia.
    - rewrite <- length_list_ascii, list_ascii_of_string_of_list_ascii. lia.
    - reflexivity. }
  destruct (at_ b i) as [x|] eqn:Hx; [|discriminate].
  assert (Hnext : forall j, 0 <= j < i + 1 -> j <> i -> noParentAt b j).
  { intros j Hj Hne. apply Hinv. lia. }
  destruct (Ascii.eqb_spec x slash) as [->|Hne].
  2: { apply IH; [lia|]. intros j Hj.
       destruct (Z.eq_dec j i) as [->|Hji]; [|now apply Hnext].
       intros E. rewrite Hx in E. congruence. }
  destruct (parentAt b i) as [[|]|] eqn:Hp; [| |discriminate].
  2: { apply IH; [lia|]. intros j Hj.
       destruct (Z.eq_dec j i) as [->|Hji]; [|now apply Hnext].
       intros _. exact Hp. }
  destruct (Z.eqb_spec i 0) as [Hz|Hz]; [discriminate|].
  destruct (Z.ltb_spec (Z.of_nat (length b)) (i + 4)) as [Hl|Hl];
    [discriminate|].
  set (sl := lastSlash (List.firstn (Z.to_nat i) b)).
  pose proof (lastSlash_range (List.firstn (Z.to_nat i) b)) as Hr.
  rewrite length_firstn in Hr. fold sl in Hr.
  replace (sl - 1 + 1) with sl by lia.
  destruct (Z.eq_dec sl (-1)) as [Hm|Hm].
  { rewrite Hm. intros E. now apply resolve_below_zero in E. }
  assert (Hsl : 0 <= sl < i) by lia.
  assert (Hslash : at_ b sl = Some slash).
  { rewrite <- (at_firstn b (Z.to_nat i)) by lia.
    apply lastSlash_found. fold sl. lia. }
  intros E. apply IH in E; [|lia|].
  - destruct E as (E1 & E2 & E3). split; [exact E1|]. split.
    + rewrite length_app, length_firstn, length_skipn in E2. lia.
    + rewrite E3. apply (at_cut b sl i 0); lia.
  - intros j Hj Hjs. rewrite (at_cut b sl i j) in Hjs by lia.
    apply parentAt_cut; try assumption; try lia.
    apply Hinv; [lia|exact Hjs].
Qed.

(** When [path] holds two dots and [toAbsolutePath] returns a path,
    no slash of that path starts a parent segment and every slash is
    followed by a byte; the path is not longer than [dir] and [path]
    together and starts with the byte [dir + path] starts with. *)
Theorem toAbsolutePath_resolved (fuel : nat) (dir path s : string) :
  Contains path ".." = true ->
  toAbsolutePath fuel dir path = Ok s ->
  resolved s
  /\ (String.length s <= String.length dir + String.length path)%nat
  /\ at_ (list_ascii_of_string s) 0
     = at_ (list_ascii_of_string (dir +:+ path)) 0.
Proof.
  intros Hdots. unfold toAbsolutePath. rewrite Hdots. cbn [negb].
  intros E. apply resolve_ok in E; [|lia|intros j Hj; lia].
  destruct E as (E1 & E2 & E3). split; [exact E1|]. split; [|exact E3].
  rewrite length_list_ascii in E2.
  assert (Hlen : forall a b : string,
             String.length (a +:+ b) = (String.length a + String.length b)%nat).
  { intros a b. induction a; simpl; [reflexivity|].
    change (String.length (a0 +:+ b)
            = (String.length a0 + String.length b)%nat) in IHa.
    change (S (String.length (a0 +:+ b))
            = S (String.length a0 + String.length b)). now rewrite IHa. }
  rewrite Hlen in E2. exact E2.
Qed.

Lemma resolve_more_fuel (fuel : nat) :
  forall (b : list ascii) (i : Z) (k : nat),
    resolve fuel b i <> OutOfFuel ->
    resolve (fuel + k) b i = resolve fuel b i.
Proof.
  induction fuel as [|fuel IH]; intros b i k; simpl; [congruence|].
  destruct (Z.of_nat (length b) <=? i); [reflexivity|].
  destruct (at_ b i); [|reflexivity].
  destruct (Ascii.eqb a slash); [|apply IH].
  destruct (parentAt b i) as [[|]|]; [|apply IH|reflexivity].
  destruct (i =? 0); [reflexivity|].
  destruct (Z.of_nat (length b) <? i + 4); [reflexivity|]. apply IH.
Qed.

Lemma resolve_enough (fuel : nat) :
  forall (b : list ascii) (i : Z),
    -1 <= i <= Z.of_nat (length b) ->
    (Z.of_nat (length b) + 1) * (Z.of_nat (length b) + 1) - i
      <= Z.of_nat fuel ->
    resolve fuel b i <> OutOfFuel.
Proof.
  induction fuel as [|fuel IH]; intros b i Hi Hfuel.
  { exfalso. nia. }
  simpl.
  destruct (Z.leb_spec (Z.of_nat (length b)) i) as [Hend|Hin];
    [discriminate|].
  destruct (at_ b i) as [x|] eqn:Hx; [|discriminate].
  assert (Hstep : resolve fuel b (i + 1) <> OutOfFuel).
  { apply IH; lia. }
  destruct (Ascii.eqb x slash); [|exact Hstep].
  destruct (parentAt b i) as [[|]|]; [|exact Hstep|discriminate].
  destruct (Z.eqb_spec i 0); [discriminate|].
  destruct (Z.ltb_spec (Z.of_nat (length b)) (i + 4)); [discriminate|].
  apply at_Some in Hx.
  pose proof (lastSlash_range (List.firstn (Z.to_nat i) b)) as Hr.
  rewrite length_firstn in Hr.
  set (sl := lastSlash (List.firstn (Z.to_nat i) b)) in *.
  replace (sl - 1 + 1) with sl by lia.
  apply IH; rewrite length_app, length_firstn, length_skipn.
  - lia.
  - set (L := Z.of_nat (length b)) in *.
    replace (Z.of_nat (Z.to_nat (sl + 1) `min` length b
                       + (length b - Z.to_nat (i + 4))))
      with (sl + 1 + (L - (i + 4))) by (unfold L; lia).
    nia.
Qed.

(** The loop of [toAbsolutePath] ends: on [n] bytes, [enoughFuel n]
    turns are enough, and more turns give the same result. *)
Theorem toAbsolutePath_terminates (fuel : nat) (dir path : string) :
  (enoughFuel (String.length (dir +:+ path)) <= fuel)%nat ->
  toAbsolutePath fuel dir path <> OutOfFuel
  /\ toAbsolutePath fuel dir path
     = toAbsolutePath (enoughFuel (String.length (dir +:+ path))) dir path.
Proof.
  intros Hfuel. unfold toAbsolutePath.
  destruct (Contains path ".."); cbn [negb]; [|split; [discriminate|reflexivity]].
  set (b := list_ascii_of_string (dir +:+ path)).
  assert (Hb : length b = String.length (dir +:+ path))
    by apply length_list_ascii.
  rewrite <- Hb. rewrite <- Hb in Hfuel.
  assert (Hen : resolve (enoughFuel (length b)) b 0 <> OutOfFuel).
  { apply resolve_enough; [lia|]. unfold enoughFuel. nia. }
  replace fuel with (enoughFuel (length b) + (fuel - enoughFuel (length b)))%nat
    by lia.
  rewrite resolve_more_fuel by exact Hen. split; [exact Hen|reflexivity].
Qed.

End AbsPathFacts.

Section AbsPathSamples.
Import GoString AbsPath.

Lemma toAbsolutePath_resolved_witness :
  resolved "/b"
  /\ (String.length "/b" <= String.length "/a/" + String.length "../b")%nat
  /\ at_ (list_ascii_of_string "/b") 0
     = at_ (list_ascii_of_string ("/a/" +:+ "../b")) 0.
Proof.
  apply (toAbsolutePath_resolved 100 "/a/" "../b" "/b"); reflexivity.
Defined.

Lemma toAbsolutePath_terminates_witness :
  toAbsolutePath 100 "/a/" "../b" <> OutOfFuel
  /\ toAbsolutePath 100 "/a/" "../b"
     = toAbsolutePath (enoughFuel (String.length ("/a/" +:+ "../b")))
         "/a/" "../b".
Proof.
  apply (toAbsolutePath_terminates 100 "/a/" "../b"). vm_compute. lia.
Defined.

End AbsPathSamples.

(** ** Constant expressions together *)

Section ConstEvalMore.
Import ConstEval.

(** On integer constants the quotient and the remainder fit together:
    [(x / y) * y + x % y] evaluates to [x], and the remainder is
    smaller than the divisor in absolute value and has the sign of
    the dividend. *)
Theorem integer_quotient_and_remainder (x y : Z) :
  y <> 0 ->
  exists q r,
    binaryOp OperatorDivision (intConstant x) (intConstant y)
      = Ok (intConstant q)
    /\ binaryOp OperatorModulo (intConstant x) (intConstant y)
      = Ok (intConstant r)
    /\ binaryOp OperatorMultiplication (intConstant q) (intConstant y)
      = Ok (intConstant (q * y))
    /\ binaryOp OperatorAddition (intConstant (q * y)) (intConstant r)
      = Ok (intConstant x)
    /\ Z.abs r < Z.abs y
    /\ 0 <= r * x.
Proof.
  intros Hy. exists (Z.quot x y), (Z.rem x y).
  assert (Hs : (Z.sgn y =? 0) = false)
    by (apply Z.eqb_neq; destruct y; simpl; lia).
  split; [|split; [|split; [|split; [|split]]]].
  - unfold binaryOp, intConstant. cbn. unfold numericOp. cbn.
    now rewrite Hs.
  - unfold binaryOp, intConstant. cbn. unfold numericOp. cbn.
    rewrite Hs. apply Z.eqb_neq in Hy. now rewrite Hy.
  - reflexivity.
  - unfold binaryOp, intConstant. cbn. unfold numericOp. cbn.
    pose proof (Z.quot_rem' x y) as Hqr.
    replace (Z.quot x y * y + Z.rem x y) with x by lia. reflexivity.
  - apply Z.rem_bound_abs. exact Hy.
  - apply Z.rem_sign_mul. exact Hy.
Qed.

(** Two string literals compare by the field [Bool] of their
    constants, which is false in both: [==] is true and [!=] is false
    whatever the texts are, and so it is for the sums of literals. *)
Theorem string_literals_compare_equal (s t : string) :
  binaryOp OperatorEqual (stringLiteral s) (stringLiteral t)
    = Ok (boolConstant true)
  /\ binaryOp OperatorNotEqual (stringLiteral s) (stringLiteral t)
    = Ok (boolConstant false)
  /\ binaryOp OperatorAddition (stringLiteral s) (stringLiteral t)
    = Ok (stringLiteral (s +:+ t)).
Proof. repeat split. Qed.

End ConstEvalMore.

Section ConstEvalMoreSamples.
Import ConstEval.

Lemma integer_quotient_and_remainder_witness :
  exists q r,
    binaryOp OperatorDivision (intConstant (-7)) (intConstant 2)
      = Ok (intConstant q)
    /\ binaryOp OperatorModulo (intConstant (-7)) (intConstant 2)
      = Ok (intConstant r)
    /\ binaryOp OperatorMultiplication (intConstant q) (intConstant 2)
      = Ok (intConstant (q * 2))
    /\ binaryOp OperatorAddition (intConstant (q * 2)) (intConstant r)
      = Ok (intConstant (-7))
    /\ Z.abs r < Z.abs 2
    /\ 0 <= r * (-7).
Proof. apply (integer_quotient_and_remainder (-7) 2). lia. Defined.

End ConstEvalMoreSamples.

(** ** Rendering: text, parameters and collected errors *)

Section RenderMore.
Import GoString Ast Renderer.
Variable eval : rendering -> Expr -> value + error.
Variable renderValue :
  option string -> value -> Expr -> Context -> option urlState ->
  option string * option urlState * option error.
Variable typeof : value -> string.
Variable contextString : Context -> string.

Lemma append_empty_r (s : string) : s +:+ "" = s.
Proof.
  induction s as [|a s IH]; [reflexivity|].
  change (String a (s +:+ "") = String a s). now rewrite IH.
Qed.

Lemma take_zero (s : string) : take 0 s = "".
Proof. now destruct s. Qed.

Lemma renderText_buffer (w text : string) (cut : Cut) (rep : list error) :
  validCut text cut = true ->
  renderText (mkSt (Some w) None rep) text cut
  = Done (mkSt (Some (w +:+ cutText text cut)) None rep) None.
Proof.
  unfold validCut. rewrite !andb_true_iff, !Z.leb_le. intros [[Hl Hr] Hlen].
  unfold renderText, cutText. cbn [wr urlstate reported].
  destruct (Z.eqb_spec (len text - Left cut - Right cut) 0) as [E|E].
  - replace (len text - Right cut - Left cut) with 0 by lia.
    change (Z.to_nat 0) with 0%nat. rewrite take_zero, append_empty_r.
    reflexivity.
  - replace ((Left cut <? 0) || (len text - Right cut <? Left cut)
             || (len text <? len text - Right cut)) with false
      by (symmetry; rewrite !orb_false_iff; repeat split;
          apply Z.ltb_ge; lia).
    reflexivity.
Qed.

(** Text nodes with valid cuts, rendered to a buffer outside a URL,
    append their cut texts to the buffer in order; nothing is reported
    and no error is returned. *)
Theorem render_text_nodes (fuel : nat) (r : rendering) (nodes : list Node)
    (s w : string) (rep : list error) :
  literalText nodes = Some s ->
  render eval renderValue typeof contextString (S fuel) r nodes
    (mkSt (Some w) None rep)
  = Done (mkSt (Some (w +:+ s)) None rep) None.
Proof.
  revert s w. induction nodes as [|n rest IH]; intros s w Hs.
  - inversion Hs. now rewrite append_empty_r.
  - destruct n; try discriminate. simpl in Hs.
    destruct (validCut text cut) eqn:Hcut; [|discriminate].
    destruct (literalText rest) as [s'|] eqn:Hrest; [|discriminate].
    inversion Hs; subst.
    change (render eval renderValue typeof contextString (S fuel) r
              (Text pos text cut :: rest) (mkSt (Some w) None rep))
      with (match renderText (mkSt (Some w) None rep) text cut with
            | Done st' None =>
                render eval renderValue typeof contextString (S fuel) r
                  rest st'
            | o => o
            end).
    rewrite renderText_buffer by exact Hcut.
    rewrite (IH s' _ eq_refl). now rewrite append_assoc.
Qed.

(** With the handler of package template, shows of names that are not
    declared write nothing: each one that has a position adds its
    error to the collected ones and rendering goes on to the end
    without error; one that has no position stops the rendering with
    its error. *)
Theorem undeclared_shows_are_collected (fuel : nat) (r : rendering)
    (nodes : list Node) (es : list error) (st : St string) :
  handleError r = TemplateErrors.collect ->
  undeclaredShows r nodes = Some es ->
  render eval renderValue typeof contextString (S fuel) r nodes st
  = Done (mkSt (wr st) (urlstate st) (reported st ++ es)) None
  /\ forall imp mname args ctx rest,
       variable r (showName imp mname ".") = inr None ->
       let e := Plain ("macro " +:+ showName imp mname "." +:+ " not declared") in
       render eval renderValue typeof contextString (S fuel) r
         (nodes ++ ShowMacro None imp mname args ctx :: rest) st
       = Done (mkSt (wr st) (urlstate st) (reported st ++ es ++ [e])) (Some e).
Proof.
  intros Hh. revert es st.
  induction nodes as [|n more IH]; intros es st Hes.
  - inversion Hes; subst. split.
    + destruct st. simpl. now rewrite app_nil_r.
    + intros imp mname args ctx rest Hvar. simpl.
      rewrite Hvar. unfold report, errorf. rewrite Hh. reflexivity.
  - destruct n as [| | |pos imp0 mname0 args0 ctx0| |]; try discriminate.
    destruct pos as [p|]; [|discriminate].
    simpl in Hes.
    destruct (variable r (showName imp0 mname0 ".")) as [|[v|]] eqn:Hvar;
      try discriminate.
    destruct (undeclaredShows r more) as [es'|] eqn:Hmore; [|discriminate].
    inversion Hes; subst.
    set (e := errorf r (Some p)
                ("macro " +:+ showName imp0 mname0 "." +:+ " not declared")).
    assert (Hstep : forall tail,
               render eval renderValue typeof contextString (S fuel) r
                 (ShowMacro (Some p) imp0 mname0 args0 ctx0 :: tail) st
               = render eval renderValue typeof contextString (S fuel) r tail
                   (mkSt (wr st) (urlstate st) (reported st ++ [e]))).
    { intros tail. simpl. rewrite Hvar. unfold report. rewrite Hh.
      reflexivity. }
    destruct (IH es' (mkSt (wr st) (urlstate st) (reported st ++ [e]))
                eq_refl) as [IH1 IH2].
    cbn [wr urlstate reported] in IH1, IH2.
    split.
    + rewrite Hstep, IH1. now rewrite <- app_assoc.
    + intros imp mname args ctx' rest Hv.
      rewrite <- app_comm_cons, Hstep, (IH2 imp mname args ctx' rest Hv).
      cbv zeta. now rewrite <- !app_assoc.
Qed.

Lemma bindArguments_other (params : list string) (isVariadic : bool) :
  forall (args : list value) (acc : gmap string value) (p : string),
    p ∉ params ->
    bindArguments params isVariadic args acc !! p = acc !! p.
Proof.
  induction params as [|q ps IH]; intros args acc p Hp; [reflexivity|].
  apply not_elem_of_cons in Hp as [Hq Hps].
  destruct ps as [|q' ps'].
  - simpl. destruct isVariadic; [now rewrite lookup_insert_ne|].
    destruct args; [reflexivity|now rewrite lookup_insert_ne].
  - change (bindArguments (q :: q' :: ps') isVariadic args acc)
      with (match args with
            | a :: rest => bindArguments (q' :: ps') isVariadic rest
                             (<[q := a]> acc)
            | [] => bindArguments (q' :: ps') isVariadic [] acc
            end).
    destruct args as [|a rest]; rewrite IH by exact Hps;
      [reflexivity|now rewrite lookup_insert_ne].
Qed.

Lemma bindArguments_at (params : list string) (isVariadic : bool) :
  forall (args : list value) (acc : gmap string value) (i : nat)
         (p : string),
    NoDup params ->
    params !! i = Some p ->
    (forall a, isVariadic = false \/ (S i < length params)%nat ->
               args !! i = Some a ->
               bindArguments params isVariadic args acc !! p = Some a)
    /\ (isVariadic = true -> S i = length params ->
        bindArguments params isVariadic args acc !! p
        = Some (VSlice (List.skipn i args))).
Proof.
  induction params as [|q ps IH]; intros args acc i p Hnd Hi;
    [discriminate|].
  apply NoDup_cons in Hnd as [Hq Hnd].
  destruct ps as [|q' ps'].
  - destruct i as [|i]; [|discriminate]. inversion Hi; subst. split.
    + intros a [Hv|Hlt] Ha; [|simpl in Hlt; lia]. subst. simpl.
      destruct args as [|a' rest]; [discriminate|].
      inversion Ha; subst. apply lookup_insert_eq.
    + intros Hv _. subst. simpl. apply lookup_insert_eq.
  - change (bindArguments (q :: q' :: ps') isVariadic args acc)
      with (match args with
            | a :: rest => bindArguments (q' :: ps') isVariadic rest
                             (<[q := a]> acc)
            | [] => bindArguments (q' :: ps') isVariadic [] acc
            end).
    destruct i as [|i].
    + inversion Hi; subst. split.
      * intros a _ Ha. destruct args as [|a' rest]; [discriminate|].
        inversion Ha; subst. rewrite bindArguments_other by exact Hq.
        apply lookup_insert_eq.
      * intros _ Hlen. simpl in Hlen. lia.
    + simpl in Hi. split.
      * intros a Hor Ha. destruct args as [|a' rest]; [discriminate|].
        simpl in Ha.
        apply (proj1 (IH rest (<[q := a']> acc) i p Hnd Hi)); [|exact Ha].
        destruct Hor as [Hv|Hlt]; [now left|right]. simpl in *. lia.
      * intros Hv Hlen.
        assert (Hlen' : S i = length (q' :: ps')) by (simpl in *; lia).
        destruct args as [|a' rest].
        -- rewrite (proj2 (IH [] acc i p Hnd Hi) Hv Hlen').
           now destruct i.
        -- rewrite (proj2 (IH rest (<[q := a']> acc) i p Hnd Hi) Hv Hlen').
           reflexivity.
Qed.

(** In the rendering of the body of a macro whose parameters have
    different names, a parameter names the argument at its place, and
    the last parameter of a variadic macro names the slice of the
    arguments from its place on, whatever the scopes below hold. *)
Theorem macro_parameters_name_arguments (r : rendering) (m : macro)
    (v0 v1 : option (gmap string value)) (vs : list value) (i : nat)
    (p : string) :
  NoDup (Parameters (macro_node m)) ->
  Parameters (macro_node m) !! i = Some p ->
  (forall a,
      IsVariadic (macro_node m) = false
      \/ (S i < length (Parameters (macro_node m)))%nat ->
      vs !! i = Some a -> a <> VReference ->
      variable (macroRendering r m v0 v1 vs) p = inr (Some a))
  /\ (IsVariadic (macro_node m) = true ->
      S i = length (Parameters (macro_node m)) ->
      variable (macroRendering r m v0 v1 vs) p
      = inr (Some (VSlice (List.skipn i vs)))).
Proof.
  intros Hnd Hi.
  destruct (bindArguments_at (Parameters (macro_node m))
              (IsVariadic (macro_node m)) vs ∅ i p Hnd Hi) as [H1 H2].
  unfold variable, macroRendering. cbn [vars rev app variableFrom].
  split.
  - intros a Hor Ha Hne. rewrite (H1 a Hor Ha).
    destruct a; try reflexivity. contradiction.
  - intros Hv Hlen. now rewrite (H2 Hv Hlen).
Qed.

(** The text of a URL never changes whether the attribute is a set of
    URLs and whether an ampersand is due; a state that is either the
    path state or the query state stays so; the text that remains is
    the text, or the text without its leading question mark, and an
    ampersand is written only for such a question mark when one is
    due. *)
Theorem urlText_invariants (u : urlState) (text : string) :
  let '(u', rest, amp) := urlText u text in
  isSet u' = isSet u /\ addAmp u' = addAmp u
  /\ (path u = negb (query u) -> path u' = negb (query u'))
  /\ (rest = text \/ text = String "?" rest)
  /\ (amp = true -> addAmp u = true /\ path u = false
                    /\ text = String "?" rest).
Proof.
  unfold urlText. destruct u as [p q s a]. cbn [path query isSet addAmp].
  destruct q.
  { repeat split; auto; discriminate. }
  destruct (containsQueryOrFragment text).
  - assert (Hstrip : is_byte (first_byte text) "?" = true ->
                     text = String "?" (drop 1 text)).
    { destruct text as [|c t]; cbn [first_byte is_byte drop];
        [discriminate|].
      destruct (Ascii.eqb_spec "?"%char c) as [<-|];
        [reflexivity|discriminate]. }
    destruct (is_byte (first_byte text) "?") eqn:Hq; destruct p, a;
      cbn [negb andb isSet addAmp path query];
      match goal with
      | |- context [s && ?c] => destruct (s && c)
      end; cbn [isSet addAmp path query negb];
      repeat split; auto; try discriminate; intros; auto.
  - cbn [isSet addAmp path query].
    destruct (s && (0 <=? IndexByte text ","));
      cbn [isSet addAmp path query negb];
      repeat split; auto; discriminate.
Qed.

End RenderMore.

Section RenderMoreSamples.
Import GoString Ast Renderer.

Lemma render_text_nodes_witness :
  render sampleEval sampleRenderValue sampleTypeof sampleContextString 1
    sampleRendering
    [Text None " Hello, " (mkCut 1 0); Text None "world " (mkCut 0 1)]
    (mkSt (Some "") None [])
  = Done (mkSt (Some ("" +:+ "Hello, world")) None []) None.
Proof.
  apply (render_text_nodes sampleEval sampleRenderValue sampleTypeof
           sampleContextString 0 sampleRendering
           [Text None " Hello, " (mkCut 1 0); Text None "world " (mkCut 0 1)]
           "Hello, world" "" []).
  reflexivity.
Defined.

Lemma undeclared_shows_are_collected_witness :
  render sampleEval sampleRenderValue sampleTypeof sampleContextString 1
    TemplateErrors.collectingRendering
    [ShowMacro (Some (mkPos 1 1 0 9)) None "A" [] ContextHTML;
     ShowMacro (Some (mkPos 2 1 10 19)) None "B" [] ContextHTML] emptySt
  = Done (mkSt (wr emptySt) (urlstate emptySt)
            (reported emptySt
             ++ [Error_ "/index.html" (mkPos 1 1 0 9) "macro A not declared";
                 Error_ "/index.html" (mkPos 2 1 10 19)
                   "macro B not declared"])) None.
Proof.
  apply (undeclared_shows_are_collected sampleEval sampleRenderValue
           sampleTypeof sampleContextString 0
           TemplateErrors.collectingRendering
           [ShowMacro (Some (mkPos 1 1 0 9)) None "A" [] ContextHTML;
            ShowMacro (Some (mkPos 2 1 10 19)) None "B" [] ContextHTML]
           _ emptySt eq_refl eq_refl).
Defined.

Lemma macro_parameters_name_arguments_witness :
  variable (macroRendering sampleRendering sampleMacro None None
              [VString "x"]) "a"
  = inr (Some (VString "x")).
Proof.
  apply (proj1 (macro_parameters_name_arguments sampleRendering sampleMacro
                  None None [VString "x"] 0 "a"
                  (NoDup_singleton "a") eq_refl) (VString "x")).
  - left. reflexivity.
  - reflexivity.
  - discriminate.
Defined.

End RenderMoreSamples.

(** ** The directories of a path *)

Section PathMore.
Import GoString Utf8 Strings Path.
Variable unicodeToLower : Z -> Z.

Lemma dirsOk_spec (names : list string) :
  forall i : nat,
    dirsOk i names = true ->
    forall (j : nat) (name : string),
      names !! j = Some name ->
      ((i + j = 0)%nat /\ name = "") \/ name = ".."
      \/ isDirName name = true.
Proof.
  induction names as [|n rest IH]; intros i Hok j name Hj; [discriminate|].
  simpl in Hok.
  destruct j as [|j].
  - simpl in Hj. injection Hj as ->.
    destruct (String.eqb_spec name "..") as [Hd|Hd]; [now right; left|].
    destruct (isDirName name) eqn:Hdir; [now right; right|].
    cbn [negb andb] in Hok.
    destruct (Nat.eqb_spec i 0) as [Hi|Hi];
      destruct (String.eqb_spec name "") as [He|He]; cbn [andb] in Hok;
      try discriminate.
    left. split; [lia|exact He].
  - simpl in Hj.
    assert (Hrest : dirsOk (S i) rest = true).
    { destruct ((i =? 0)%nat && String.eqb n ""); [exact Hok|].
      destruct (negb (String.eqb n "..") && negb (isDirName n));
        [discriminate|exact Hok]. }
    destruct (IH (S i) Hrest j name Hj) as [[H0 _]|H]; [lia|right; exact H].
Qed.

Lemma isDirName_spec (name : string) :
  isDirName name = true ->
  name <> "" /\ name <> "." /\ RuneCountInString name <= 255
  /\ Contains name ".." = false
  /\ forall c, In c (bytes name) -> 0x1F < c /\ ~ In c forbidden_bytes.
Proof.
  unfold isDirName.
  destruct (String.eqb_spec name "") as [|Hne]; [discriminate|].
  destruct (Z.leb_spec 256 (RuneCountInString name)) as [|Hlen];
    [discriminate|].
  cbn [orb].
  destruct (String.eqb_spec name ".") as [|Hdot]; [discriminate|].
  destruct (Contains name "..") eqn:Hc; [discriminate|]. cbn [orb].
  destruct (is_byte (first_byte name) " " || is_byte (last_byte name) " ");
    [discriminate|].
  intros Hres. apply negb_true_iff in Hres.
  repeat split; try assumption; try lia.
  - unfold isWindowsReservedName in Hres.
    destruct (existsb _ (bytes name)) eqn:Hex; [discriminate|].
    destruct (Z.leb_spec c 0x1F) as [Hle|]; [|lia].
    exfalso. rewrite <- not_true_iff_false in Hex. apply Hex.
    apply existsb_exists. exists c. split; [assumption|].
    apply orb_true_iff. right. now apply Z.leb_le.
  - unfold isWindowsReservedName in Hres.
    destruct (existsb _ (bytes name)) eqn:Hex; [discriminate|].
    intros Hin. rewrite <- not_true_iff_false in Hex. apply Hex.
    apply existsb_exists. exists c. split; [assumption|].
    apply orb_true_iff. left. apply existsb_exists. exists c.
    split; [exact Hin|apply Z.eqb_refl].
Qed.

(** In a path that [IsPath] accepts, every name before the last is the
    empty name in first place, the name of the parent directory, or a
    name of 1 to 255 characters that is not a dot, holds no two dots
    in a row, no control byte and none of the forbidden bytes. *)
Theorem IsPath_directories (path : string) (j : nat) (name : string) :
  IsPath unicodeToLower path = true ->
  removelast (Split path "/") !! j = Some name ->
  (j = 0%nat /\ name = "") \/ name = ".."
  \/ (name <> "" /\ name <> "." /\ RuneCountInString name <= 255
      /\ Contains name ".." = false
      /\ forall c, In c (bytes name) -> 0x1F < c /\ ~ In c forbidden_bytes).
Proof.
  unfold IsPath.
  destruct (String.eqb path "" || is_byte (last_byte path) "/");
    [discriminate|].
  destruct (dirsOk 0 (removelast (Split path "/"))) eqn:Hok; [|discriminate].
  intros _ Hj.
  destruct (dirsOk_spec _ 0 Hok j name Hj) as [[H0 He]|[Hd|Hdir]].
  - left. split; [lia|exact He].
  - right; left; exact Hd.
  - right; right. now apply isDirName_spec.
Qed.

End PathMore.

Section PathMoreSamples.
Import GoString Utf8 Strings Path.

Lemma IsPath_directories_witness :
  (1%nat = 0%nat /\ "b c" = "") \/ "b c" = ".."
  \/ ("b c" <> "" /\ "b c" <> "." /\ RuneCountInString "b c" <= 255
      /\ Contains "b c" ".." = false
      /\ forall c, In c (bytes "b c") -> 0x1F < c /\ ~ In c forbidden_bytes).
Proof.
  apply (IsPath_directories (fun r => r) "../b c/a.a" 1 "b c");
    reflexivity.
Defined.

End PathMoreSamples.

(** ** The flag [-mem] *)

Section MemFlag.
Import GoString CLI.

Lemma digits_range (l : list Z) :
  forall acc n, digits l acc = Some n -> Forall (fun c => 48 <= c <= 57) l.
Proof.
  induction l as [|c r IH]; intros acc n Hd; [constructor|].
  simpl in Hd.
  destruct (Z.leb_spec 48 c); [|discriminate].
  destruct (Z.leb_spec c 57); [|discriminate].
  constructor; [lia|]. eapply IH; exact Hd.
Qed.

Lemma last_byte_bytes (s : string) (a : ascii) :
  last_byte s = Some a -> List.last (bytes s) 0 = byte a.
Proof.
  unfold bytes. induction s as [|c [|c' s'] IH]; intros Hl.
  - discriminate.
  - inversion Hl. reflexivity.
  - specialize (IH Hl). exact IH.
Qed.

Lemma last_byte_some (s : string) : s <> "" -> exists a, last_byte s = Some a.
Proof.
  induction s as [|c s IH]; intros Hne; [contradiction|].
  destruct s as [|c' s']; [now exists c|].
  destruct IH as [a Ha]; [discriminate|]. exists a. exact Ha.
Qed.

Lemma last_in (l : list Z) (d : Z) : l <> [] -> In (List.last l d) l.
Proof.
  induction l as [|x [|y r] IH]; intros Hne; [contradiction|now left|].
  right. apply IH. discriminate.
Qed.

(** The last byte of a string that [Atoi] accepts is a digit. *)
Lemma Atoi_last_digit (s : string) (n : Z) :
  Atoi s = Some n ->
  exists a, last_byte s = Some a /\ 48 <= byte a <= 57.
Proof.
  intros HA.
  assert (Hne : s <> "") by (intros ->; discriminate).
  destruct (last_byte_some s Hne) as [a Ha]. exists a. split; [exact Ha|].
  rewrite <- (last_byte_bytes s a Ha).
  unfold Atoi in HA.
  set (b := bytes s) in *.
  assert (Hds : forall ds, ds <> [] -> (exists m, digits ds 0 = Some m) ->
                           (ds = b \/ exists x, b = x :: ds) ->
                           48 <= List.last b 0 <= 57).
  { intros ds Hds [m Hm] Hb.
    pose proof (digits_range ds 0 m Hm) as Hall.
    assert (Hl : In (List.last ds 0) ds) by now apply last_in.
    rewrite List.Forall_forall in Hall.
    assert (Hlast : List.last b 0 = List.last ds 0).
    { destruct Hb as [->|[x ->]]; [reflexivity|].
      destruct ds; [contradiction|reflexivity]. }
    rewrite Hlast. apply Hall. exact Hl. }
  destruct b as [|c r] eqn:Hb; [discriminate|].
  assert (Hcase :
            forall ds, (ds = c :: r \/ exists x, c :: r = x :: ds) ->
              match ds with
              | [] => None
              | _ :: _ =>
                  match digits ds 0 with
                  | Some n0 => Some n0
                  | None => None
                  end
              end <> None -> 48 <= List.last (c :: r) 0 <= 57).
  { intros ds Hor Hsome. destruct ds as [|d ds']; [contradiction|].
    apply (Hds (d :: ds')); [discriminate| |exact Hor].
    destruct (digits (d :: ds') 0) as [m|]; [eauto|contradiction]. }
  destruct (Z.eq_dec c 45) as [->|H45].
  { apply (Hcase r); [right; eauto|].
    destruct r; [discriminate|].
    destruct (digits (z :: r) 0); [discriminate|discriminate]. }
  destruct (Z.eq_dec c 43) as [->|H43].
  { apply (Hcase r); [right; eauto|].
    destruct r; [discriminate|].
    destruct (digits (z :: r) 0); [discriminate|discriminate]. }
  apply (Hcase (c :: r)); [now left|].
  assert (E : match c with 45 => (true, r) | 43 => (false, r)
              | _ => (false, c :: r) end = (false, c :: r)).
  { destruct c as [|p|p]; try reflexivity.
    do 6 (destruct p; try reflexivity); lia. }
  rewrite E in HA.
  destruct (digits (c :: r) 0); [discriminate|discriminate].
Qed.

Lemma last_byte_snoc (s : string) (c : ascii) :
  last_byte (s +:+ String c "") = Some c.
Proof.
  induction s as [|a s IH]; [reflexivity|].
  change (last_byte (String a (s +:+ String c "")) = Some c).
  destruct s; [reflexivity|exact IH].
Qed.

Lemma take_snoc (s : string) (c : ascii) :
  take (String.length (s +:+ String c "") - 1) (s +:+ String c "") = s.
Proof.
  induction s as [|a s IH]; [reflexivity|].
  change (take (S (String.length (s +:+ String c "")) - 1)
            (String a (s +:+ String c "")) = String a s).
  assert (Hlen : exists k, String.length (s +:+ String c "") = S k).
  { destruct s; simpl; eauto. }
  destruct Hlen as [k Hk]. rewrite Hk in *.
  replace (S (S k) - 1)%nat with (S k) by lia.
  replace (S k - 1)%nat with k in IH by lia.
  simpl. f_equal.
  destruct k; [|exact IH].
  destruct s as [|b s]; [discriminate Hk || (simpl in *; reflexivity)|].
  simpl in Hk. destruct s; discriminate.
Qed.

(** The value of [-mem]: a number alone, zero and negative numbers
    included, limits the memory to that number of bytes; after a
    number, the letters B, K, M and G, in upper or lower case, scale
    it by 1, 1024, 1024^2 and 1024^3, within the type [int]. *)
Theorem mem_flag_units (cl : CommandLine) (ds : string) (n : Z) :
  Atoi ds = Some n ->
  (mem cl = ds -> memStep cl = Some (true, Some n))
  /\ forall c : ascii,
       mem cl = ds +:+ String c "" ->
       (c = "B"%char \/ c = "b"%char -> memStep cl = Some (true, Some n))
       /\ (c = "K"%char \/ c = "k"%char ->
           memStep cl = Some (true, Some (wrap64 (n * 1024))))
       /\ (c = "M"%char \/ c = "m"%char ->
           memStep cl = Some (true, Some (wrap64 (n * (1024 * 1024)))))
       /\ (c = "G"%char \/ c = "g"%char ->
           memStep cl
           = Some (true, Some (wrap64 (n * (1024 * 1024 * 1024))))).
Proof.
  intros HA. split.
  - intros Hm. unfold memStep. rewrite Hm.
    destruct (String.eqb_spec ds "") as [->|_]; [discriminate|].
    destruct (Atoi_last_digit ds n HA) as (a & Ha & Hr).
    assert (Hu : memUnit ds = byte a).
    { unfold memUnit. rewrite Ha. cbv zeta.
      destruct (Z.ltb_spec 90 (byte a)); [lia|reflexivity]. }
    assert (Hl : isUnitLetter (byte a) = false).
    { unfold isUnitLetter. rewrite !orb_false_iff.
      repeat split; apply Z.eqb_neq; lia. }
    unfold memDigits. rewrite Hu, Hl, HA.
    unfold memScale.
    destruct (Z.eqb_spec (byte a) 75); [lia|].
    destruct (Z.eqb_spec (byte a) 77); [lia|].
    destruct (Z.eqb_spec (byte a) 71); [lia|]. reflexivity.
  - intros c Hm.
    assert (Hstep : forall u, memUnit (ds +:+ String c "") = u ->
                      isUnitLetter u = true ->
                      memStep cl = Some (true, Some (memScale u n))).
    { intros u Hu Hl. unfold memStep. rewrite Hm.
      destruct (String.eqb_spec (ds +:+ String c "") "") as [E|_].
      - destruct ds; discriminate.
      - unfold memDigits. rewrite Hu, Hl, take_snoc, HA. reflexivity. }
    assert (Hunit : memUnit (ds +:+ String c "")
                    = if 90 <? byte c then byte c - (122 - 90) else byte c).
    { unfold memUnit. now rewrite last_byte_snoc. }
    repeat split; intros [->| ->];
      rewrite (Hstep _ Hunit eq_refl); reflexivity.
Qed.

End MemFlag.

Section MemFlagSamples.
Import GoString CLI.

Lemma mem_flag_units_witness :
  memStep (mkCommandLine false "" "0" ["main.go"]) = Some (true, Some 0)
  /\ memStep (mkCommandLine false "" "-5k" ["main.go"])
     = Some (true, Some (wrap64 (-5 * 1024))).
Proof.
  split.
  - apply (proj1 (mem_flag_units (mkCommandLine false "" "0" ["main.go"])
                    "0" 0 eq_refl) eq_refl).
  - apply (proj1 (proj2 (proj2 (mem_flag_units
                    (mkCommandLine false "" "-5k" ["main.go"])
                    "-5" (-5) eq_refl) "k"%char eq_refl))).
    right. reflexivity.
Defined.

End MemFlagSamples.

(** ** The message of a chain of panics *)

Section PanicsFacts.
Import Panics.

Lemma line_then (p : Panic) (msg : string) :
  String_ p +:+ (if Recovered p then " [recovered]" +:+ nl +:+ msg
                 else nl +:+ msg)
  = line p +:+ msg.
Proof.
  unfold line. destruct (Recovered p); rewrite !append_assoc; reflexivity.
Qed.

Lemma fold_lines_app (l : list Panic) (msg : string) :
  fold_right (fun p s => tab +:+ "panic: " +:+ line p +:+ s) "" l +:+ msg
  = fold_right (fun p s => tab +:+ "panic: " +:+ line p +:+ s) msg l.
Proof.
  induction l as [|p l IH]; [reflexivity|].
  cbn [fold_right]. rewrite <- IH.
  rewrite !append_assoc. reflexivity.
Qed.

Lemma renderLoop_lines (chain : list Panic) :
  forall msg, chain <> [] ->
    renderLoop chain msg = panicLines chain +:+ msg.
Proof.
  induction chain as [|p next IH]; intros msg Hne; [contradiction|].
  destruct next as [|p' next'].
  - cbn [renderLoop]. unfold panicLines. cbn [rev app fold_right].
    rewrite line_then, append_assoc. reflexivity.
  - change (renderLoop (p :: p' :: next') msg)
      with (renderLoop (p' :: next')
              (tab +:+ "panic: " +:+ String_ p
               +:+ (if Recovered p then " [recovered]" +:+ nl +:+ msg
                    else nl +:+ msg))).
    rewrite line_then, IH by discriminate.
    unfold panicLines.
    change (rev (p :: p' :: next')) with (rev (p' :: next') ++ [p]).
    destruct (rev (p' :: next')) as [|last before] eqn:Hrev.
    { apply (f_equal (@length _)) in Hrev.
      rewrite length_rev in Hrev. discriminate. }
    cbn [app]. rewrite !append_assoc. f_equal.
    rewrite fold_right_app. cbn [fold_right].
    rewrite <- (fold_lines_app before (tab +:+ "panic: " +:+ line p +:+ "")).
    rewrite !append_assoc. reflexivity.
Qed.

(** The message of [renderPanics] is the line of the last panic of the
    chain, then, from the last but one back to the first, the line of
    each panic after a tab and [panic: ]; a line is the message of the
    panic, followed by [ [recovered]] when it has been recovered, and a
    new line. *)
Theorem renderPanics_lines (chain : list Panic) :
  renderPanics chain = panicLines chain.
Proof.
  unfold renderPanics. destruct chain as [|p next]; [reflexivity|].
  rewrite renderLoop_lines by discriminate.
  apply append_empty_r.
Qed.

End PanicsFacts.

(** ** The message of the errors of a rendering *)

Section RenderErrorsFacts.
Import TemplateErrors.

Lemma joinFrom_nonempty (ee : list string) :
  forall s, s <> "" -> Forall (fun e => e <> "") ee ->
    joinFrom s ee
    = s +:+ match ee with
            | [] => ""
            | _ => Panics.nl +:+ String.concat Panics.nl ee
            end.
Proof.
  induction ee as [|e rest IH]; intros s Hs Hall.
  - simpl. now rewrite append_empty_r.
  - apply Forall_cons in Hall as [He Hrest].
    cbn [joinFrom].
    destruct (String.eqb_spec s "") as [|_]; [contradiction|].
    rewrite IH; [|destruct s; [contradiction|discriminate]|exact Hrest].
    rewrite !append_assoc. do 2 f_equal.
    destruct rest as [|e' rest']; [|reflexivity].
    simpl. apply append_empty_r.
Qed.

(** The message of the errors of a rendering is the messages of the
    errors, in order, with a new line between two of them, when no
    message is empty. *)
Theorem RenderErrors_Error_joins (ee : list string) :
  Forall (fun e => e <> "") ee ->
  Error ee = String.concat Panics.nl ee.
Proof.
  intros Hall. unfold Error. destruct ee as [|e rest]; [reflexivity|].
  apply Forall_cons in Hall as [He Hrest].
  cbn [joinFrom]. change (String.eqb "" "") with true. cbv iota.
  change ("" +:+ e) with e.
  rewrite joinFrom_nonempty by assumption.
  destruct rest as [|e' rest']; [|reflexivity].
  simpl. apply append_empty_r.
Qed.

End RenderErrorsFacts.

Section RenderErrorsSamples.
Import TemplateErrors.

Lemma RenderErrors_Error_joins_witness :
  Error ["a"; "b"] = String.concat Panics.nl ["a"; "b"].
Proof.
  apply (RenderErrors_Error_joins ["a"; "b"]).
  repeat constructor; discriminate.
Defined.

End RenderErrorsSamples.
